(** * Ida9sp1-Patcher: the license generator of [src/main.py]

    A shallow embedding of the Python program and the verification of its
    specification.  Python values are modelled as follows.

    - [str] is a sequence of Unicode code points, [pystr := list N];
      [ustr] turns a literal into such a sequence.
    - [int] is [Z]; a [float] is known by the numeral that
      [float.__repr__] prints for it.
    - Exceptions are the constructors of [exn]; a computation that reads
      or changes a state of type [St] is a function
      [St -> result A * St].
    - The dataclasses are records, one module per class; a constructor
      call with keyword arguments is the function [init] of the module.
    - A value annotated [Any] is a [pyval]: [None], [bool], [int],
      [float], [str], [list], [tuple], [dict] with keys of any hashable
      type, and [PyObject] for any other object (a set, bytes, an
      instance of a class).  A [pyval] is a tree: containers that contain
      themselves are outside the model.
    - The interpreter is CPython 3.11 on a POSIX system whose file system
      encoding is UTF-8; what its configuration leaves open (the limit on
      the digits of an [int] that is printed, the depth of recursion that
      is left, how the C library prints a year) is a field of the
      [World]. *)

From Stdlib Require Import ZArith NArith List String Ascii Bool Lia.
From Stdlib Require DecimalFacts DecimalPos DecimalZ.
From stdpp Require Import gmap.
Import ListNotations.

Local Open Scope N_scope.

(** ** Python strings *)

Definition pystr : Type := list N.

Definition ustr (s : string) : pystr :=
  List.map N_of_ascii (list_ascii_of_string s).

(** The decimal digits of a [Decimal.uint], most significant first. *)
Fixpoint uint_chars (d : Decimal.uint) : pystr :=
  match d with
  | Decimal.Nil => []
  | Decimal.D0 d => 48 :: uint_chars d
  | Decimal.D1 d => 49 :: uint_chars d
  | Decimal.D2 d => 50 :: uint_chars d
  | Decimal.D3 d => 51 :: uint_chars d
  | Decimal.D4 d => 52 :: uint_chars d
  | Decimal.D5 d => 53 :: uint_chars d
  | Decimal.D6 d => 54 :: uint_chars d
  | Decimal.D7 d => 55 :: uint_chars d
  | Decimal.D8 d => 56 :: uint_chars d
  | Decimal.D9 d => 57 :: uint_chars d
  end.

(** [int.__repr__], also what [f"{i}"] inserts for an [int], when the
    interpreter sets no limit on the number of digits. *)
Definition int_repr (z : Z) : pystr :=
  match Z.to_int z with
  | Decimal.Pos d => uint_chars d
  | Decimal.Neg d => 45 :: uint_chars d
  end.

(** The number of decimal digits of an [int]. *)
Definition int_digits (z : Z) : nat :=
  match Z.to_int z with
  | Decimal.Pos d | Decimal.Neg d => List.length (uint_chars d)
  end.

(** Whether the interpreter refuses to convert between an [int] of
    [digits] decimal digits and its text: [limit] is
    [sys.get_int_max_str_digits()], 0 for no limit; up to 640 digits
    nothing is refused. *)
Definition digits_refused (limit : N) (digits : nat) : bool :=
  (640 <? digits)%nat && (0 <? limit) && (limit <? N.of_nat digits).

(** A [float]: not a number, an infinity, or a finite number, which is
    represented by the numeral that [float.__repr__] prints for it:
    [Decimal i f] for [i.f] and [DecimalExp i f e] for [i.fe+XX], the
    point being left out when [f] is empty. *)
Inductive pyfloat : Type :=
| FNan
| FInf (negative : bool)
| FNum (numeral : Decimal.decimal).

Definition signed_chars (i : Decimal.int) : pystr :=
  match i with
  | Decimal.Pos d => uint_chars d
  | Decimal.Neg d => 45 :: uint_chars d
  end.

(** The exponent of a numeral: a sign and two digits at least. *)
Definition exponent_chars (e : Decimal.int) : pystr :=
  let padded d :=
    match uint_chars d with
    | [] => [48; 48]
    | [c] => [48; c]
    | cs => cs
    end in
  match e with
  | Decimal.Pos d => 43 :: padded d
  | Decimal.Neg d => 45 :: padded d
  end.

(** [float.__repr__] of a finite [float]. *)
Definition float_repr (numeral : Decimal.decimal) : pystr :=
  match numeral with
  | Decimal.Decimal i f => signed_chars i ++ [46] ++ uint_chars f
  | Decimal.DecimalExp i f e =>
      signed_chars i
      ++ match f with
         | Decimal.Nil => []
         | _ => [46] ++ uint_chars f
         end
      ++ [101] ++ exponent_chars e
  end.

(** ** Exceptions and effects *)

Inductive exn : Type :=
| OSError (msg : pystr)       (* [IOError] is an alias of [OSError] *)
| TypeError (msg : pystr)
| ValueError (msg : pystr)
| UnicodeEncodeError          (* a [ValueError]; its text is not modelled *)
| RecursionError
| OverflowError.

Inductive result (A : Type) : Type :=
| Return (a : A)
| Raise (e : exn).
Arguments Return {A} a.
Arguments Raise {A} e.

Definition M (St A : Type) : Type := St -> result A * St.

Definition ret {St A} (a : A) : M St A := fun s => (Return a, s).

Definition raise {St A} (e : exn) : M St A := fun s => (Raise e, s).

Definition bind {St A B} (m : M St A) (k : A -> M St B) : M St B :=
  fun s =>
    match m s with
    | (Return a, s') => k a s'
    | (Raise e, s') => (Raise e, s')
    end.

Notation "'do' x <- m ; k" := (bind m (fun x => k))
  (at level 10, x name, m at level 100, k at level 200).
Notation "m ;; k" := (bind m (fun _ => k))
  (at level 100, k at level 200, right associativity).

(** ** [class TimeProvider(ABC)]

    The abstract base class is an interface over the state [St] that an
    implementation may read and change. *)

Class TimeProvider (St : Type) : Type := {
  current_time : M St pystr;
  future_time : Z -> M St pystr
}.

(** ** The values of type [Any] and the dictionaries of [to_dict] *)

(** The key of a dictionary: a [str], an [int], a [float], a [bool],
    [None], or another hashable object (a tuple, bytes), of which the
    name of the type is kept. *)
Inductive pykey : Type :=
| KStr (s : pystr)
| KInt (z : Z)
| KFloat (f : pyfloat)
| KBool (b : bool)
| KNone
| KOther (type_name : pystr).

#[local] Unset Elimination Schemes.
Inductive pyval : Type :=
| PyNone
| PyBool (b : bool)
| PyInt (z : Z)
| PyFloat (f : pyfloat)
| PyStr (s : pystr)
| PyList (l : list pyval)
| PyTuple (l : list pyval)
| PyDict (d : list (pykey * pyval))   (* insertion-ordered *)
| PyObject (type_name : pystr).       (* not JSON serializable *)
#[local] Set Elimination Schemes.

(** A dictionary whose keys are all [str], as [Dict[str, Any]] declares
    it. *)
Definition str_items (d : list (pystr * pyval)) : list (pykey * pyval) :=
  List.map (fun kv => (KStr (fst kv), snd kv)) d.

(** ** The dataclasses *)

Module AddonPlugin.
Record t : Type := init {
  id : pystr;
  code : pystr;
  owner : pystr;
  start_date : pystr;
  end_date : pystr
}.

Definition to_dict (self : t) : pyval :=
  PyDict [
    (KStr (ustr "id"), PyStr (id self));
    (KStr (ustr "code"), PyStr (code self));
    (KStr (ustr "owner"), PyStr (owner self));
    (KStr (ustr "start_date"), PyStr (start_date self));
    (KStr (ustr "end_date"), PyStr (end_date self))
  ].
End AddonPlugin.

Module LicenseId.
Record t : Type := mk {
  id : pystr;
  license_type : pystr;
  product : pystr;
  product_id : pystr;
  edition_id : pystr;
  seats : Z;
  start_date : pystr;
  end_date : pystr;
  issued_on : pystr;
  owner : pystr;
  add_ons : list AddonPlugin.t;
  features : list pyval
}.

(** [LicenseId(start_date=..., end_date=..., issued_on=...)]: the other
    fields take the defaults of the dataclass. *)
Definition init (start_date end_date issued_on : pystr) : t :=
  {| id := ustr "48-2437-ACBD-29";
     license_type := ustr "named";
     product := ustr "IDA";
     product_id := ustr "IDAPRO";
     edition_id := ustr "ida-pro";
     seats := 1%Z;
     start_date := start_date;
     end_date := end_date;
     issued_on := issued_on;
     owner := ustr "0x0060";
     add_ons := [];
     features := [] |}.

(** [self.add_ons.append(addon)] *)
Definition add_ons_append (self : t) (addon : AddonPlugin.t) : t :=
  {| id := id self;
     license_type := license_type self;
     product := product self;
     product_id := product_id self;
     edition_id := edition_id self;
     seats := seats self;
     start_date := start_date self;
     end_date := end_date self;
     issued_on := issued_on self;
     owner := owner self;
     add_ons := add_ons self ++ [addon];
     features := features self |}.

Definition to_dict (self : t) : pyval :=
  PyDict [
    (KStr (ustr "id"), PyStr (id self));
    (KStr (ustr "license_type"), PyStr (license_type self));
    (KStr (ustr "product"), PyStr (product self));
    (KStr (ustr "product_id"), PyStr (product_id self));
    (KStr (ustr "edition_id"), PyStr (edition_id self));
    (KStr (ustr "seats"), PyInt (seats self));
    (KStr (ustr "start_date"), PyStr (start_date self));
    (KStr (ustr "end_date"), PyStr (end_date self));
    (KStr (ustr "issued_on"), PyStr (issued_on self));
    (KStr (ustr "owner"), PyStr (owner self));
    (KStr (ustr "add_ons"),
     PyList (List.map AddonPlugin.to_dict (add_ons self)));
    (KStr (ustr "features"), PyList (features self))
  ].
End LicenseId.

Module LicensePayload.
Record t : Type := mk {
  name : pystr;
  email : pystr;
  licenses : list LicenseId.t
}.

(** [LicensePayload()] *)
Definition init : t :=
  {| name := ustr "0x0060";
     email := ustr "ren@0x0060.dev";
     licenses := [] |}.

(** [self.licenses.append(license_id)] *)
Definition licenses_append (self : t) (license_id : LicenseId.t) : t :=
  {| name := name self;
     email := email self;
     licenses := licenses self ++ [license_id] |}.

Definition to_dict (self : t) : pyval :=
  PyDict [
    (KStr (ustr "name"), PyStr (name self));
    (KStr (ustr "email"), PyStr (email self));
    (KStr (ustr "licenses"),
     PyList (List.map LicenseId.to_dict (licenses self)))
  ].
End LicensePayload.

Module License.
Record t : Type := mk {
  header : list (pystr * pyval);
  payload : LicensePayload.t;
  signature : pystr
}.

Definition default_signature : pystr :=
  ustr "3238353E900849B6547801BBF8AF31E7822CB4B74A6F54DE03F5E9DFF96AC5DA981B50A62EAAF021F2052CC44498107B36C2D3B34C86B7B48084313189274A1D5D1F45C1F512820C508EA22ABA43EC584E6FEFF6BA9969DD428268F40859AFFE8A2E5BB66CA9C71E78FCAC14E3168D26D11952A71C0F330251D9D74FFC67BD24".

(** [License(payload=payload)] *)
Definition init (payload : LicensePayload.t) : t :=
  {| header := [(ustr "version", PyInt 1)];
     payload := payload;
     signature := default_signature |}.

Definition to_dict (self : t) : pyval :=
  PyDict [
    (KStr (ustr "header"), PyDict (str_items (header self)));
    (KStr (ustr "payload"), LicensePayload.to_dict (payload self));
    (KStr (ustr "signature"), PyStr (signature self))
  ].
End License.

(** ** The [datetime] module, as far as [DefaultTimeProvider] uses it

    The integer arithmetic of the reference implementation of the
    standard library ([_pydatetime.py]): proleptic Gregorian ordinals
    (day 1 is 0001-01-01), the normalisation of [timedelta] and
    [datetime + timedelta]. *)

Module Datetime.
Local Open Scope Z_scope.

Record datetime : Type := mk {
  year : Z;
  month : Z;
  day : Z;
  hour : Z;
  minute : Z;
  second : Z;
  microsecond : Z
}.

Record timedelta : Type := mkdelta {
  days : Z;
  seconds : Z;
  microseconds : Z
}.

Definition MINYEAR : Z := 1.
Definition MAXYEAR : Z := 9999.
Definition MAXORDINAL : Z := 3652059.   (* date.max.toordinal() *)

Definition DAYS_IN_MONTH : list Z :=
  [-1; 31; 28; 31; 30; 31; 30; 31; 31; 30; 31; 30; 31].

Definition DAYS_BEFORE_MONTH : list Z :=
  [-1; 0; 31; 59; 90; 120; 151; 181; 212; 243; 273; 304; 334].

Definition is_leap (year : Z) : bool :=
  (year mod 4 =? 0) && (negb (year mod 100 =? 0) || (year mod 400 =? 0)).

Definition days_before_year (year : Z) : Z :=
  let y := year - 1 in
  y * 365 + y / 4 - y / 100 + y / 400.

Definition days_in_month (year month : Z) : Z :=
  if (month =? 2) && is_leap year then 29
  else nth (Z.to_nat month) DAYS_IN_MONTH 0.

Definition days_before_month (year month : Z) : Z :=
  nth (Z.to_nat month) DAYS_BEFORE_MONTH 0
  + (if (2 <? month) && is_leap year then 1 else 0).

Definition ymd2ord (year month day : Z) : Z :=
  days_before_year year + days_before_month year month + day.

Definition DI400Y : Z := 146097.
Definition DI100Y : Z := 36524.
Definition DI4Y : Z := 1461.

(** The month and the day of the [n]-th day (from zero) of a year. *)
Definition month_day (n : Z) (leapyear : bool) : Z * Z :=
  let month := Z.shiftr (n + 50) 5 in
  let preceding :=
    nth (Z.to_nat month) DAYS_BEFORE_MONTH 0
    + (if (2 <? month) && leapyear then 1 else 0) in
  if n <? preceding then
    let month := month - 1 in
    let preceding :=
      preceding
      - (nth (Z.to_nat month) DAYS_IN_MONTH 0
         + (if (month =? 2) && leapyear then 1 else 0)) in
    (month, n - preceding + 1)
  else (month, n - preceding + 1).

Definition ord2ymd (n : Z) : Z * Z * Z :=
  let n := n - 1 in
  let n400 := n / DI400Y in
  let n := n mod DI400Y in
  let year := n400 * 400 + 1 in
  let n100 := n / DI100Y in
  let n := n mod DI100Y in
  let n4 := n / DI4Y in
  let n := n mod DI4Y in
  let n1 := n / 365 in
  let n := n mod 365 in
  let year := year + n100 * 100 + n4 * 4 + n1 in
  if (n1 =? 4) || (n100 =? 4) then (year - 1, 12, 31)
  else
    let leapyear := (n1 =? 3) && (negb (n4 =? 24) || (n100 =? 3)) in
    let '(month, day) := month_day n leapyear in
    (year, month, day).

Definition toordinal (self : datetime) : Z :=
  ymd2ord (year self) (month self) (day self).

(** [timedelta(days, seconds, microseconds)] for integer arguments:
    carries are propagated and the magnitude of [days] is checked. *)
Definition timedelta_new (days seconds microseconds : Z)
    : result timedelta :=
  let s := seconds + microseconds / 1000000 in
  let us := microseconds mod 1000000 in
  let d := days + s / 86400 in
  let s := s mod 86400 in
  if 999999999 <? Z.abs d then Raise OverflowError
  else Return (mkdelta d s us).

(** [timedelta.__add__] *)
Definition timedelta_add (a b : timedelta) : result timedelta :=
  timedelta_new (days a + days b) (seconds a + seconds b)
                (microseconds a + microseconds b).

(** [datetime.__add__(self, other)] for a naive [datetime] *)
Definition add (self : datetime) (other : timedelta) : result datetime :=
  match timedelta_new (toordinal self)
                      (hour self * 3600 + minute self * 60 + second self)
                      (microsecond self) with
  | Raise e => Raise e
  | Return delta =>
      match timedelta_add delta other with
      | Raise e => Raise e
      | Return delta =>
          let hour := seconds delta / 3600 in
          let rem := seconds delta mod 3600 in
          let minute := rem / 60 in
          let second := rem mod 60 in
          if (0 <? days delta) && (days delta <=? MAXORDINAL) then
            let '(y, m, d) := ord2ymd (days delta) in
            Return (mk y m d hour minute second (microseconds delta))
          else Raise OverflowError
      end
  end.

(** One decimal digit as a character. *)
Definition digit (d : Z) : N := (48 + Z.to_N d)%N.

Definition pad2 (n : Z) : pystr := [digit (n / 10 mod 10); digit (n mod 10)].

Definition pad4 (n : Z) : pystr :=
  [digit (n / 1000 mod 10); digit (n / 100 mod 10);
   digit (n / 10 mod 10); digit (n mod 10)].

(** [%Y] is left to the C library of the platform: it pads the year
    with zeros to four digits, as the library reference has it, or prints
    it as it is (glibc).  The two agree from the year 1000 on. *)
Definition format_year (zero_padded : bool) (year : Z) : pystr :=
  if zero_padded then pad4 year else int_repr year.

(** [self.strftime("%Y-%m-%d %H:%M:%S")] *)
Definition strftime (zero_padded : bool) (self : datetime) : pystr :=
  format_year zero_padded (year self) ++ ustr "-" ++ pad2 (month self)
  ++ ustr "-" ++ pad2 (day self) ++ ustr " " ++ pad2 (hour self)
  ++ ustr ":" ++ pad2 (minute self) ++ ustr ":" ++ pad2 (second self).

(** The values a [datetime] object can hold. *)
Definition valid (self : datetime) : Prop :=
  MINYEAR <= year self <= MAXYEAR
  /\ 1 <= month self <= 12
  /\ 1 <= day self <= days_in_month (year self) (month self)
  /\ 0 <= hour self < 24
  /\ 0 <= minute self < 60
  /\ 0 <= second self < 60
  /\ 0 <= microsecond self < 1000000.
End Datetime.

(** ** The world the program runs in

    The system clock is the sequence of its successive readings;
    [pads_year] tells whether the C library zero-pads [%Y].

    [int_max_str_digits] is [sys.get_int_max_str_digits()], the limit on
    the digits of an [int] that is printed (4300 unless the interpreter
    is configured otherwise, 0 for no limit); [recursion_units] is what is
    left of the recursion limit of the interpreter when [json.dump] runs
    the encoder.

    The files are known by the numbers of their inodes: [inode] gives
    the file that a name denotes, or that [open] creates under the name,
    so two names may denote one file (through [./], a symbolic link or a
    hard link); [disk] maps the files to their texts.  [unwritable] gives,
    for a name that cannot be opened for writing, the text of the
    [OSError] that [open] raises; [capacity] gives, for a file on a device
    that runs full, the number of characters that the file can take and
    the text of the [OSError] that is raised when more is flushed to it.
    The standard streams take what is printed. *)

Record World : Type := mkWorld {
  clock : nat -> Datetime.datetime;
  reads : nat;
  pads_year : bool;
  int_max_str_digits : N;
  recursion_units : nat;
  inode : pystr -> N;
  disk : gmap N pystr;
  unwritable : pystr -> option pystr;
  capacity : N -> option (nat * pystr);
  stdout : pystr;
  stderr : pystr
}.

(** The world with another count of readings, file system, or text on a
    standard stream. *)
Definition set_reads (n : nat) (w : World) : World :=
  mkWorld (clock w) n (pads_year w) (int_max_str_digits w)
          (recursion_units w) (inode w) (disk w) (unwritable w)
          (capacity w) (stdout w) (stderr w).

Definition set_disk (d : gmap N pystr) (w : World) : World :=
  mkWorld (clock w) (reads w) (pads_year w) (int_max_str_digits w)
          (recursion_units w) (inode w) d (unwritable w)
          (capacity w) (stdout w) (stderr w).

Definition set_stdout (text : pystr) (w : World) : World :=
  mkWorld (clock w) (reads w) (pads_year w) (int_max_str_digits w)
          (recursion_units w) (inode w) (disk w) (unwritable w)
          (capacity w) text (stderr w).

Definition set_stderr (text : pystr) (w : World) : World :=
  mkWorld (clock w) (reads w) (pads_year w) (int_max_str_digits w)
          (recursion_units w) (inode w) (disk w) (unwritable w)
          (capacity w) (stdout w) text.

(** [datetime.now()] *)
Definition datetime_now : M World Datetime.datetime :=
  fun w => (Return (clock w (reads w)), set_reads (S (reads w)) w).

(** [self.strftime("%Y-%m-%d %H:%M:%S")] on the platform of the world *)
Definition datetime_strftime (self : Datetime.datetime) : M World pystr :=
  fun w => (Return (Datetime.strftime (pads_year w) self), w).

(** The characters of a name that the file system encoding (UTF-8 with
    the [surrogateescape] error handler) encodes: all but the surrogates
    outside [U+DC80..U+DCFF]. *)
Definition fs_encodable (c : N) : bool :=
  negb ((55296 <=? c) && (c <=? 57343)) || ((56448 <=? c) && (c <=? 56575)).

(** The exception that [open] raises for a name that is no path: a
    character that cannot be encoded, or a null character. *)
Definition path_error (filename : pystr) : option exn :=
  if negb (forallb fs_encodable filename) then Some UnicodeEncodeError
  else if existsb (N.eqb 0) filename
       then Some (ValueError (ustr "embedded null byte"))
       else None.

(** [open(filename, 'w', encoding='utf-8')]: the file is created or
    truncated; the handle is the file. *)
Definition open_w (filename : pystr) : M World N :=
  fun w =>
    match path_error filename with
    | Some e => (Raise e, w)
    | None =>
        match unwritable w filename with
        | Some msg => (Raise (OSError msg), w)
        | None =>
            (Return (inode w filename),
             set_disk (<[inode w filename := []]> (disk w)) w)
        end
    end.

(** [file.write(text)]: the text goes to the buffer of the file, which
    is flushed when the file is closed at the latest; here it is appended
    to the text of the file at once, and the device is asked when the
    file is closed.  A device that refuses a flush before the file is
    closed raises the same [OSError] at that point, with the same text
    kept and the same exception leaving the [with] statement. *)
Definition file_write (file : N) (text : pystr) : M World unit :=
  fun w =>
    (Return tt, set_disk (alter (fun old => old ++ text) file (disk w)) w).

(** [file.close()]: the buffer is flushed; a device that cannot take all
    of the text keeps what it can take, and [OSError] is raised. *)
Definition file_close (file : N) : M World unit :=
  fun w =>
    match capacity w file, disk w !! file with
    | Some (n, msg), Some text =>
        if (n <? List.length text)%nat
        then (Raise (OSError msg),
              set_disk (<[file := List.firstn n text]> (disk w)) w)
        else (Return tt, w)
    | _, _ => (Return tt, w)
    end.

(** [with open(filename, 'w', encoding='utf-8') as file: body]: the
    file is closed when the body returns and when it raises; an exception
    of the close replaces the one of the body. *)
Definition with_open_w {A} (filename : pystr) (body : N -> M World A)
    : M World A :=
  do file <- open_w filename;
  fun w =>
    let '(outcome, w') := body file w in
    match file_close file w' with
    | (Return _, w'') => (outcome, w'')
    | (Raise e, w'') => (Raise e, w'')
    end.

(** [print(text)] and [print(text, file=sys.stderr)] *)
Definition print (text : pystr) : M World unit :=
  fun w => (Return tt, set_stdout (stdout w ++ text ++ [10]) w).

Definition print_stderr (text : pystr) : M World unit :=
  fun w => (Return tt, set_stderr (stderr w ++ text ++ [10]) w).

(** [try: body except IOError as e: handler(str(e))] *)
Definition try_except_IOError {A} (body : M World A)
    (handler : pystr -> M World A) : M World A :=
  fun w =>
    match body w with
    | (Raise (OSError msg), w') => handler msg w'
    | r => r
    end.

(** ** [class DefaultTimeProvider(TimeProvider)] *)

Module DefaultTimeProvider.
Definition current_time : M World pystr :=
  do now <- datetime_now;
  datetime_strftime now.

(** The default of the parameter [years] of [future_time]. *)
Definition years_default : Z := 999999.

Definition future_time (years : Z) : M World pystr :=
  do now <- datetime_now;
  match Datetime.timedelta_new (365 * years) 0 0 with
  | Raise e => raise e
  | Return delta =>
      match Datetime.add now delta with
      | Raise e => raise e
      | Return future => datetime_strftime future
      end
  end.
End DefaultTimeProvider.

#[export] Instance DefaultTimeProvider_TimeProvider : TimeProvider World := {
  current_time := DefaultTimeProvider.current_time;
  future_time := DefaultTimeProvider.future_time
}.

(** ** [class LicenseGenerator] *)

(** [enumerate(l)] *)
Definition enumerate {A} (l : list A) : list (nat * A) :=
  combine (seq 0 (List.length l)) l.

Definition addon_plugins : list pystr :=
  [ ustr "HEXX86"; ustr "HEXX64"; ustr "HEXARM"; ustr "HEXARM64";
    ustr "HEXMIPS"; ustr "HEXMIPS64"; ustr "HEXPPC"; ustr "HEXPPC64";
    ustr "HEXRV64"; ustr "HEXARC"; ustr "HEXARC64" ].

Module LicenseGenerator.
(** [__init__]: [self.time_provider = time_provider or
    DefaultTimeProvider()].  A provider is given with its truth value
    [bool(time_provider)], which is [True] for every object without
    [__bool__] and [__len__]: a provider that is false is replaced as
    [None] is. *)
Definition init (time_provider : option (bool * TimeProvider World))
    : TimeProvider World :=
  match time_provider with
  | Some (true, provider) => provider
  | Some (false, _) | None => DefaultTimeProvider_TimeProvider
  end.

Section Generator.
Context {St : Type} (time_provider : TimeProvider St).

(** The body of the [for] loop: one add-on is built and appended. *)
Definition add_plugin (start_date end_date : pystr)
    (license_id : LicenseId.t) (ip : nat * pystr) : LicenseId.t :=
  let '(i, plugin) := ip in
  let addon :=
    AddonPlugin.init
      (ustr "48-1337-DEAD-" ++ int_repr (Z.of_nat i))
      plugin
      (LicenseId.id license_id)
      start_date
      end_date in
  LicenseId.add_ons_append license_id addon.

Definition generate_license : M St License.t :=
  do start_date <- current_time;
  do end_date <- future_time 10;
  let license_id := LicenseId.init start_date end_date start_date in
  let license_id :=
    fold_left (add_plugin start_date end_date)
              (enumerate addon_plugins) license_id in
  let payload := LicensePayload.init in
  let payload := LicensePayload.licenses_append payload license_id in
  let license := License.init payload in
  ret license.
End Generator.
End LicenseGenerator.

(** ** [json.dump(data, file, separators=(',', ':'))]

    The encoder of the standard library with its defaults
    ([ensure_ascii=True], [skipkeys=False], [sort_keys=False],
    [indent=None], [allow_nan=True]): the generators of
    [_make_iterencode].  It yields chunks of text until an exception
    stops it: an [emit] is the text yielded so far and the exception, if
    any.  A chunk is lost when the conversion that it waits for raises: a
    list holds back its opening bracket, or the comma, until the first
    chunk of the next item is there.

    [units] is what is left of the recursion limit: a generator takes one
    unit for the time it runs, and so does, for the time of the call,
    each call of a function that the interpreter counts ([id], the
    encoder of a [str], [int.__repr__], the constructor of an exception);
    the conversion of a [float] is a Python function that makes such a
    call and takes two.  The count is that of code that has run before in
    the interpreter; code that runs for the first time may take more, up
    to what [units_needed] allows for. *)

Module Json.
Definition emit : Type := pystr * option exn.

Definition say (text : pystr) : emit := (text, None).

Definition fail (e : exn) : emit := ([], Some e).

Definition then_ (a b : emit) : emit :=
  match a with
  | (text, None) => (text ++ fst b, snd b)
  | (text, Some e) => (text, Some e)
  end.

Infix ">>" := then_ (at level 61, left associativity).

(** What needs [n] units of the recursion limit. *)
Definition need (units n : nat) (a : emit) : emit :=
  if (n <=? units)%nat then a else fail RecursionError.

(** A lower-case hexadecimal digit. *)
Definition hexdigit (d : N) : N :=
  if d <? 10 then 48 + d else 87 + d.

(** ['{0:04x}'.format(n)] for [n < 0x10000]. *)
Definition hex4 (n : N) : pystr :=
  [hexdigit (N.shiftr n 12 mod 16); hexdigit (N.shiftr n 8 mod 16);
   hexdigit (N.shiftr n 4 mod 16); hexdigit (n mod 16)].

(** The replacement of one character by [ESCAPE_ASCII] and
    [ESCAPE_DCT]: the printable ASCII characters other than the quote
    and the backslash stand for themselves. *)
Definition escape_char (c : N) : pystr :=
  if c =? 34 then [92; 34]              (* backslash, quote *)
  else if c =? 92 then [92; 92]         (* two backslashes *)
  else if c =? 10 then [92; 110]        (* backslash n *)
  else if c =? 13 then [92; 114]        (* backslash r *)
  else if c =? 9 then [92; 116]         (* backslash t *)
  else if c =? 8 then [92; 98]          (* backslash b *)
  else if c =? 12 then [92; 102]        (* backslash f *)
  else if (32 <=? c) && (c <=? 126) then [c]
  else if c <? 65536 then [92; 117] ++ hex4 c
  else
    let n := c - 65536 in
    let s1 := N.lor 55296 (N.land (N.shiftr n 10) 1023) in
    let s2 := N.lor 56320 (N.land n 1023) in
    [92; 117] ++ hex4 s1 ++ [92; 117] ++ hex4 s2.

(** [encode_basestring_ascii(s)] *)
Definition encode_basestring_ascii (s : pystr) : pystr :=
  [34] ++ flat_map escape_char s ++ [34].

(** [int.__repr__(o)] *)
Definition intstr (limit : N) (z : Z) : emit :=
  if digits_refused limit (int_digits z)
  then
    fail (ValueError
            (ustr "Exceeds the limit (" ++ int_repr (Z.of_N limit)
             ++ ustr " digits) for integer string conversion; use sys.set_int_max_str_digits() to increase the limit"))
  else say (int_repr z).

(** [floatstr(o)] *)
Definition floatstr (f : pyfloat) : pystr :=
  match f with
  | FNan => ustr "NaN"
  | FInf false => ustr "Infinity"
  | FInf true => ustr "-Infinity"
  | FNum numeral => float_repr numeral
  end.

(** The chunk of a value that is no container, [None] for the other
    values. *)
Definition scalar (limit : N) (units : nat) (o : pyval) : option emit :=
  match o with
  | PyStr s => Some (need units 1 (say (encode_basestring_ascii s)))
  | PyNone => Some (say (ustr "null"))
  | PyBool true => Some (say (ustr "true"))
  | PyBool false => Some (say (ustr "false"))
  | PyInt z => Some (need units 1 (intstr limit z))
  | PyFloat f => Some (need units 2 (say (floatstr f)))
  | _ => None
  end.

(** The [str] that stands for the key of a dictionary. *)
Definition key_text (limit : N) (units : nat) (key : pykey)
    : result pystr :=
  match key with
  | KStr s => Return s
  | KFloat f =>
      if (2 <=? units)%nat then Return (floatstr f) else Raise RecursionError
  | KBool true => Return (ustr "true")
  | KBool false => Return (ustr "false")
  | KNone => Return (ustr "null")
  | KInt z =>
      if (1 <=? units)%nat then
        match intstr limit z with
        | (text, None) => Return text
        | (_, Some e) => Raise e
        end
      else Raise RecursionError
  | KOther type_name =>
      if (1 <=? units)%nat then
        Raise (TypeError
                 (ustr "keys must be str, int, float, bool or None, not "
                  ++ type_name))
      else Raise RecursionError
  end.

(** [yield buf + chunk]: nothing is yielded when the chunk raises. *)
Definition buffered (buf : pystr) (a : emit) : emit :=
  match a with
  | (text, None) => (buf ++ text, None)
  | (_, Some e) => fail e
  end.

(** One value of a list, behind [buf], the opening bracket or the
    separator; [enter] runs the generator of a container or of another
    object. *)
Definition element (limit : N) (units : nat) (enter : pyval -> emit)
    (buf : pystr) (value : pyval) : emit :=
  match scalar limit units value with
  | Some a => buffered buf a
  | None => say buf >> enter value
  end.

(** The values of a list after the first one. *)
Fixpoint elements (limit : N) (units : nat) (enter : pyval -> emit)
    (lst : list pyval) : emit :=
  match lst with
  | [] => say []
  | value :: lst =>
      element limit units enter (ustr ",") value
      >> elements limit units enter lst
  end.

(** One item of a dictionary: the separator unless the item is the
    first one, the key, the key separator, the value. *)
Definition member (limit : N) (units : nat) (enter : pyval -> emit)
    (first : bool) (kv : pykey * pyval) : emit :=
  match key_text limit units (fst kv) with
  | Raise e => fail e
  | Return key =>
      say (if first then [] else ustr ",")
      >> say (encode_basestring_ascii key) >> say (ustr ":")
      >> match scalar limit units (snd kv) with
         | Some a => a
         | None => enter (snd kv)
         end
  end.

(** The items of a dictionary after the first one. *)
Fixpoint members (limit : N) (units : nat) (enter : pyval -> emit)
    (dct : list (pykey * pyval)) : emit :=
  match dct with
  | [] => say []
  | kv :: dct =>
      member limit units enter false kv >> members limit units enter dct
  end.

Definition not_serializable (type_name : pystr) : exn :=
  TypeError (ustr "Object of type " ++ type_name
             ++ ustr " is not JSON serializable").

(** [_iterencode_list(lst)] and [_iterencode_dict(dct)], in a generator
    that has [units] left: a container that is not empty calls [id]
    first. *)
Definition iterencode_list (limit : N) (units : nat) (enter : pyval -> emit)
    (lst : list pyval) : emit :=
  match lst with
  | [] => say (ustr "[]")
  | value :: lst =>
      need units 1
        (element limit units enter (ustr "[") value
         >> elements limit units enter lst
         >> say (ustr "]"))
  end.

Definition iterencode_dict (limit : N) (units : nat) (enter : pyval -> emit)
    (dct : list (pykey * pyval)) : emit :=
  match dct with
  | [] => say (ustr "{}")
  | kv :: dct =>
      need units 1
        (say (ustr "{")
         >> member limit units enter true kv
         >> members limit units enter dct
         >> say (ustr "}"))
  end.

(** The generator of a value inside a container: [_iterencode_list],
    [_iterencode_dict], or [_iterencode] for another object, which calls
    [default], where the [TypeError] is made.  A generator takes one
    unit. *)
Fixpoint enter (limit : N) (units : nat) (o : pyval) {struct o} : emit :=
  match units with
  | O => fail RecursionError
  | S inside =>
      match o with
      | PyList lst | PyTuple lst =>
          iterencode_list limit inside (enter limit inside) lst
      | PyDict dct => iterencode_dict limit inside (enter limit inside) dct
      | PyObject type_name =>
          need inside 2 (fail (not_serializable type_name))
      | _ => say []     (* not reached: the container writes its scalars *)
      end
  end.

(** [JSONEncoder.iterencode(o)]: the encoder is set up, which takes the
    last unit for the time of the calls, and [_iterencode(o)] runs. *)
Definition iterencode (limit : N) (units : nat) (o : pyval) : emit :=
  need units 1
    match scalar limit units o with
    | Some a => a
    | None =>
        match o with
        | PyObject type_name =>
            need units 2 (fail (not_serializable type_name))
        | _ => enter limit units o
        end
    end.

(** The values in which nothing raises [TypeError]: no object without a
    JSON form, no key of another type than [str], [int], [float], [bool]
    and [None]. *)
Definition key_serializable (key : pykey) : bool :=
  match key with
  | KOther _ => false
  | _ => true
  end.

Fixpoint serializable (o : pyval) : bool :=
  match o with
  | PyList lst | PyTuple lst => forallb serializable lst
  | PyDict dct =>
      forallb (fun kv => key_serializable (fst kv) && serializable (snd kv))
              dct
  | PyObject _ => false
  | _ => true
  end.

(** [json.dump(data, file, separators=(',', ':'))]: every chunk is
    written to the file as soon as it is yielded. *)
Definition dump (data : pyval) (file : N) : M World unit :=
  fun w =>
    let '(text, stopped) :=
      iterencode (int_max_str_digits w) (recursion_units w) data in
    (file_write file text ;;
     match stopped with
     | Some e => raise e
     | None => ret tt
     end) w.
End Json.

(** ** [class FileWriter] *)

Module FileWriter.
Definition write_json (data : pyval) (filename : pystr) : M World bool :=
  try_except_IOError
    (with_open_w filename (fun file => Json.dump data file) ;;
     ret true)
    (fun e =>
       print_stderr (ustr "Failed to open file :( -> " ++ filename
                     ++ [10] ++ e) ;;
       ret false).
End FileWriter.

(** ** [main] *)

Definition main : M World Z :=
  let generator := LicenseGenerator.init None in
  do license <- LicenseGenerator.generate_license generator;
  do success <- FileWriter.write_json (License.to_dict license)
                  (ustr "idapro.hexlic");
  if success then
    print (ustr "License file generated: idapro.hexlic :D") ;;
    ret 0%Z
  else ret 1%Z.

(** ** [json.loads]

    The decoder of the standard library, which the round-trip property
    of the specification decodes with.  [None] stands for what the
    decoder raises: a [JSONDecodeError], or the [ValueError] of [int] for
    digits over the limit of the interpreter.  A float (a number with a
    fraction or an exponent, [NaN], an infinity) is not read by this
    model: it is [None] as well.  [fuel] bounds the number of values and
    of loop iterations;
    the recursion limit, which the decoder needs less of than the encoder
    for the same value, is not modelled. *)

Module JsonDecoder.
Definition is_ws (c : N) : bool :=
  (c =? 32) || (c =? 9) || (c =? 10) || (c =? 13).

Fixpoint skip_ws (s : pystr) : pystr :=
  match s with
  | c :: r => if is_ws c then skip_ws r else s
  | [] => []
  end.

Definition hexval (c : N) : option N :=
  if (48 <=? c) && (c <=? 57) then Some (c - 48)
  else if (97 <=? c) && (c <=? 102) then Some (c - 87)
  else if (65 <=? c) && (c <=? 70) then Some (c - 55)
  else None.

(** [_decode_uXXXX]: four hexadecimal digits. *)
Definition decode_uXXXX (h1 h2 h3 h4 : N) : option N :=
  match hexval h1, hexval h2, hexval h3, hexval h4 with
  | Some a, Some b, Some c, Some d => Some (((a * 16 + b) * 16 + c) * 16 + d)
  | _, _, _, _ => None
  end.

(** The table [BACKSLASH] of the one-letter escapes. *)
Definition BACKSLASH (esc : N) : option N :=
  if esc =? 34 then Some 34
  else if esc =? 92 then Some 92
  else if esc =? 47 then Some 47
  else if esc =? 98 then Some 8
  else if esc =? 102 then Some 12
  else if esc =? 110 then Some 10
  else if esc =? 114 then Some 13
  else if esc =? 116 then Some 9
  else None.

Definition is_high_surrogate (c : N) : bool := (55296 <=? c) && (c <=? 56319).
Definition is_low_surrogate (c : N) : bool := (56320 <=? c) && (c <=? 57343).

Definition join_surrogates (uni uni2 : N) : N :=
  65536 + N.lor (N.shiftl (uni - 55296) 10) (uni2 - 56320).

Definition cons_char (c : N) (r : option (pystr * pystr))
    : option (pystr * pystr) :=
  match r with
  | Some (s, rest) => Some (c :: s, rest)
  | None => None
  end.

(** [py_scanstring(s, end, strict=True)], from the character after the
    opening quote: the decoded string and the text after the closing
    quote. *)
Fixpoint scanstring (s : pystr) : option (pystr * pystr) :=
  match s with
  | [] => None
  | c :: r =>
      if c =? 34 then Some ([], r)
      else if c =? 92 then
        match r with
        | [] => None
        | esc :: r1 =>
            if esc =? 117 then
              match r1 with
              | h1 :: h2 :: h3 :: h4 :: r2 =>
                  match decode_uXXXX h1 h2 h3 h4 with
                  | None => None
                  | Some uni =>
                      match r2 with
                      | b :: u :: g1 :: g2 :: g3 :: g4 :: r3 =>
                          if is_high_surrogate uni && (b =? 92) && (u =? 117)
                          then
                            match decode_uXXXX g1 g2 g3 g4 with
                            | None => None
                            | Some uni2 =>
                                if is_low_surrogate uni2 then
                                  cons_char (join_surrogates uni uni2)
                                            (scanstring r3)
                                else cons_char uni (scanstring r2)
                            end
                          else cons_char uni (scanstring r2)
                      | b :: u :: _ =>
                          if is_high_surrogate uni && (b =? 92) && (u =? 117)
                          then None
                          else cons_char uni (scanstring r2)
                      | _ => cons_char uni (scanstring r2)
                      end
                  end
              | _ => None
              end
            else
              match BACKSLASH esc with
              | Some char => cons_char char (scanstring r1)
              | None => None
              end
        end
      else if c <? 32 then None
      else cons_char c (scanstring r)
  end.

Definition is_digit (c : N) : bool := (48 <=? c) && (c <=? 57).

Fixpoint span_digits (s : pystr) : pystr * pystr :=
  match s with
  | c :: r =>
      if is_digit c then
        let '(ds, rest) := span_digits r in (c :: ds, rest)
      else ([], s)
  | [] => ([], [])
  end.

(** The integer part of [NUMBER_RE], without the sign:
    [0|[1-9][0-9]*]. *)
Definition match_integer (s : pystr) : option (pystr * pystr) :=
  match s with
  | c :: r =>
      if c =? 48 then Some ([c], r)
      else if is_digit c then
        let '(ds, rest) := span_digits r in Some (c :: ds, rest)
      else None
  | [] => None
  end.

(** Whether a fraction or an exponent of [NUMBER_RE] follows. *)
Definition has_frac (s : pystr) : bool :=
  match s with
  | dot :: d :: _ => (dot =? 46) && is_digit d
  | _ => false
  end.

Definition has_exp (s : pystr) : bool :=
  match s with
  | e :: d :: r =>
      ((e =? 101) || (e =? 69))
      && (is_digit d
          || (((d =? 43) || (d =? 45))
              && match r with d2 :: _ => is_digit d2 | [] => false end))
  | _ => false
  end.

Fixpoint chars_uint (ds : pystr) : Decimal.uint :=
  match ds with
  | [] => Decimal.Nil
  | c :: ds =>
      let u := chars_uint ds in
      if c =? 48 then Decimal.D0 u
      else if c =? 49 then Decimal.D1 u
      else if c =? 50 then Decimal.D2 u
      else if c =? 51 then Decimal.D3 u
      else if c =? 52 then Decimal.D4 u
      else if c =? 53 then Decimal.D5 u
      else if c =? 54 then Decimal.D6 u
      else if c =? 55 then Decimal.D7 u
      else if c =? 56 then Decimal.D8 u
      else Decimal.D9 u
  end.

(** [match_number] followed by [int(integer)], which refuses the digits
    that are over the limit of the interpreter.  A number with a fraction
    or an exponent is a [float], which this decoder does not read. *)
Definition scan_number (limit : N) (s : pystr) : option (pyval * pystr) :=
  let negative := match s with c :: _ => c =? 45 | [] => false end in
  match match_integer (if negative then tl s else s) with
  | None => None
  | Some (ds, rest) =>
      if has_frac rest || has_exp rest then None
      else if digits_refused limit (List.length ds) then None
      else
        let u := chars_uint ds in
        Some (PyInt (Z.of_int (if negative then Decimal.Neg u
                               else Decimal.Pos u)), rest)
  end.

Fixpoint strip_prefix (p s : pystr) : option pystr :=
  match p, s with
  | [], _ => Some s
  | a :: p, b :: s => if a =? b then strip_prefix p s else None
  | _ :: _, [] => None
  end.

(** [d[key] = value] on an insertion-ordered dictionary. *)
Fixpoint dict_set (d : list (pystr * pyval)) (key : pystr) (value : pyval)
    : list (pystr * pyval) :=
  match d with
  | [] => [(key, value)]
  | (k, v) :: d =>
      if bool_decide (k = key) then (k, value) :: d
      else (k, v) :: dict_set d key value
  end.

(** [dict(pairs)] *)
Definition dict_of_pairs (pairs : list (pystr * pyval))
    : list (pystr * pyval) :=
  fold_left (fun d kv => dict_set d (fst kv) (snd kv)) pairs [].

(** [scan_once], with the loops of [JSONArray] and [JSONObject]. *)
Fixpoint scan_once (limit : N) (fuel : nat) (s : pystr)
    : option (pyval * pystr) :=
  match fuel with
  | O => None
  | S fuel =>
      match s with
      | [] => None
      | nextchar :: r =>
          if nextchar =? 34 then
            match scanstring r with
            | Some (str, rest) => Some (PyStr str, rest)
            | None => None
            end
          else if nextchar =? 123 then
            match skip_ws r with
            | c :: r1 =>
                if c =? 125 then Some (PyDict [], r1)
                else if c =? 34 then
                  match object_loop limit fuel r1 with
                  | Some (pairs, rest) =>
                      Some (PyDict (str_items (dict_of_pairs pairs)), rest)
                  | None => None
                  end
                else None
            | [] => None
            end
          else if nextchar =? 91 then
            match skip_ws r with
            | c :: r1 =>
                if c =? 93 then Some (PyList [], r1)
                else
                  match array_loop limit fuel (c :: r1) with
                  | Some (values, rest) => Some (PyList values, rest)
                  | None => None
                  end
            | [] => None
            end
          else if nextchar =? 110 then
            match strip_prefix (ustr "null") s with
            | Some rest => Some (PyNone, rest)
            | None => None
            end
          else if nextchar =? 116 then
            match strip_prefix (ustr "true") s with
            | Some rest => Some (PyBool true, rest)
            | None => None
            end
          else if nextchar =? 102 then
            match strip_prefix (ustr "false") s with
            | Some rest => Some (PyBool false, rest)
            | None => None
            end
          else scan_number limit s
      end
  end

(** The loop of [JSONArray], from the first character of a value. *)
with array_loop (limit : N) (fuel : nat) (s : pystr)
    : option (list pyval * pystr) :=
  match fuel with
  | O => None
  | S fuel =>
      match scan_once limit fuel s with
      | None => None
      | Some (value, r) =>
          match skip_ws r with
          | c :: r1 =>
              if c =? 93 then Some ([value], r1)
              else if c =? 44 then
                match array_loop limit fuel (skip_ws r1) with
                | Some (values, rest) => Some (value :: values, rest)
                | None => None
                end
              else None
          | [] => None
          end
      end
  end

(** The loop of [JSONObject], from the character after the opening
    quote of a key. *)
with object_loop (limit : N) (fuel : nat) (s : pystr)
    : option (list (pystr * pyval) * pystr) :=
  match fuel with
  | O => None
  | S fuel =>
      match scanstring s with
      | None => None
      | Some (key, r) =>
          match skip_ws r with
          | colon :: r1 =>
              if colon =? 58 then
                match scan_once limit fuel (skip_ws r1) with
                | None => None
                | Some (value, r2) =>
                    match skip_ws r2 with
                    | c :: r3 =>
                        if c =? 125 then Some ([(key, value)], r3)
                        else if c =? 44 then
                          match skip_ws r3 with
                          | q :: r4 =>
                              if q =? 34 then
                                match object_loop limit fuel r4 with
                                | Some (pairs, rest) =>
                                    Some ((key, value) :: pairs, rest)
                                | None => None
                                end
                              else None
                          | [] => None
                          end
                        else None
                    | [] => None
                    end
                end
              else None
          | [] => None
          end
      end
  end.

(** [json.loads(s)]: one value, surrounded by optional whitespace. *)
Definition loads (limit : N) (s : pystr) : option pyval :=
  match scan_once limit (List.length s) (skip_ws s) with
  | Some (obj, rest) =>
      match skip_ws rest with
      | [] => Some obj
      | _ :: _ => None
      end
  | None => None
  end.
End JsonDecoder.

(** ** Notions the properties are stated with *)

(** A Python [str] holds code points below [0x110000]. *)
Definition valid_str (s : pystr) : Prop := Forall (fun c => c < 1114112) s.

(** The values all of whose strings and [str] keys are Python strings. *)
Fixpoint python_strings (o : pyval) : bool :=
  match o with
  | PyStr s => forallb (fun c => c <? 1114112) s
  | PyList lst | PyTuple lst => forallb python_strings lst
  | PyDict dct =>
      forallb (fun kv =>
                 match fst kv with
                 | KStr s => forallb (fun c => c <? 1114112) s
                 | _ => true
                 end && python_strings (snd kv))
              dct
  | _ => true
  end.

(** *** The limits of the interpreter *)

(** The values all of whose integers, keys included, the interpreter
    converts under the limit [limit] on the digits. *)
Fixpoint ints_within (limit : N) (o : pyval) : bool :=
  match o with
  | PyInt z => negb (digits_refused limit (int_digits z))
  | PyList lst | PyTuple lst => forallb (ints_within limit) lst
  | PyDict dct =>
      forallb (fun kv =>
                 match fst kv with
                 | KInt z => negb (digits_refused limit (int_digits z))
                 | _ => true
                 end && ints_within limit (snd kv))
              dct
  | _ => true
  end.

(** Units of the recursion limit that are enough for the encoder on a
    value: two for a [float], three for an object that is refused, and
    for a container one more than for what it holds. *)
Fixpoint units_needed (o : pyval) : nat :=
  match o with
  | PyFloat _ => 2
  | PyList lst | PyTuple lst =>
      S (fold_right (fun value n => Nat.max (units_needed value) n) 1%nat lst)
  | PyDict dct =>
      S (fold_right
           (fun kv n =>
              Nat.max (match fst kv with KFloat _ => 2 | _ => 1 end)
                      (Nat.max (units_needed (snd kv)) n))
           1%nat dct)
  | PyObject _ => 3
  | _ => 1
  end%nat.

(** A value within the limits of the interpreter of a world. *)
Definition within_limits (w : World) (o : pyval) : Prop :=
  ints_within (int_max_str_digits w) o = true
  /\ (units_needed o <= recursion_units w)%nat.

(** The exceptions that the encoder raises. *)
Definition encoder_error (e : exn) : Prop :=
  match e with
  | TypeError _ | ValueError _ | RecursionError => True
  | _ => False
  end.

(** *** The file of a name *)

(** Whether the device of a file has room for a text. *)
Definition fits (w : World) (file : N) (text : pystr) : bool :=
  match capacity w file with
  | Some (n, _) => (List.length text <=? n)%nat
  | None => true
  end.

(** What a file keeps of a text that is flushed to it, and the text of
    the error of a device without room. *)
Definition kept (w : World) (file : N) (text : pystr) : pystr :=
  match capacity w file with
  | Some (n, _) => List.firstn n text
  | None => text
  end.

Definition no_room (w : World) (file : N) : pystr :=
  match capacity w file with
  | Some (_, msg) => msg
  | None => []
  end.

(** *** Licenses *)

(** The strings of an add-on and of an identification. *)
Definition addon_strings (a : AddonPlugin.t) : list pystr :=
  [ AddonPlugin.id a; AddonPlugin.code a; AddonPlugin.owner a;
    AddonPlugin.start_date a; AddonPlugin.end_date a ].

Definition identification_strings (l : LicenseId.t) : list pystr :=
  [ LicenseId.id l; LicenseId.license_type l; LicenseId.product l;
    LicenseId.product_id l; LicenseId.edition_id l; LicenseId.start_date l;
    LicenseId.end_date l; LicenseId.issued_on l; LicenseId.owner l ]
  ++ flat_map addon_strings (LicenseId.add_ons l).

(** A value that has a JSON form: nothing in it is refused by the
    encoder, and its strings are Python strings. *)
Definition json_value (o : pyval) : Prop :=
  Json.serializable o = true /\ python_strings o = true.

(** A [License] whose fields hold values of their declared types, the
    ones declared [Any] having a JSON form. *)
Definition well_formed (license : License.t) : Prop :=
  Forall valid_str
         (License.signature license
          :: LicensePayload.name (License.payload license)
          :: LicensePayload.email (License.payload license)
          :: flat_map identification_strings
                      (LicensePayload.licenses (License.payload license)))
  /\ json_value (PyDict (str_items (License.header license)))
  /\ Forall (fun l => json_value (PyList (LicenseId.features l)))
            (LicensePayload.licenses (License.payload license)).

(** A test double of [TimeProvider]: a fixed clock. *)
Definition FixedTimeProvider (now future : pystr) : TimeProvider unit := {|
  current_time := ret now;
  future_time := fun _ => ret future
|}.

(** *** Compact text

    A reading of a JSON text that tells the string literals from the text
    around them.  A text is compact when it ends outside a literal and no
    space or control character stands outside a literal. *)

Module Compact.
Inductive state : Type := Outside | Inside | Escaped.

Definition step (st : state) (c : N) : option state :=
  match st with
  | Outside =>
      if c =? 34 then Some Inside
      else if c <=? 32 then None
      else Some Outside
  | Inside =>
      if c =? 92 then Some Escaped
      else if c =? 34 then Some Outside
      else Some Inside
  | Escaped => Some Inside
  end.

Fixpoint run (st : state) (text : pystr) : option state :=
  match text with
  | [] => Some st
  | c :: text =>
      match step st c with
      | Some st => run st text
      | None => None
      end
  end.

Definition compact (text : pystr) : bool :=
  match run Outside text with
  | Some Outside => true
  | _ => false
  end.
End Compact.

(** *** The canonical form, as the specification words it

    The text of each entity written out from the field order that the
    data model declares and from the grammar of JSON, without reference
    to the encoder: an object is its members in that order, [key:value]
    joined by commas between braces, without any space; an array is its
    items joined by commas between brackets; a string stands between
    quotes, its quotes, backslashes and control characters escaped and
    every character outside ASCII written as [\uXXXX], above the basic
    plane as the two surrogates of UTF-16. *)

Module Canonical.
Fixpoint join (sep : pystr) (parts : list pystr) : pystr :=
  match parts with
  | [] => []
  | [part] => part
  | part :: parts => part ++ sep ++ join sep parts
  end.

Definition hexadecimal (n : N) : N :=
  nth (N.to_nat n) (ustr "0123456789abcdef") 0.

Definition u_escape (n : N) : pystr :=
  [92] ++ ustr "u"
  ++ [hexadecimal (n / 4096 mod 16); hexadecimal (n / 256 mod 16);
      hexadecimal (n / 16 mod 16); hexadecimal (n mod 16)].

(** The characters with an escape of two characters, and what follows
    the backslash in it: the quote, the backslash, and the letters of
    backspace, form feed, line feed, carriage return and tab. *)
Definition two_character_escapes : list (N * pystr) :=
  [ (34, [34]); (92, [92]); (8, ustr "b"); (12, ustr "f"); (10, ustr "n");
    (13, ustr "r"); (9, ustr "t") ].

Definition character (c : N) : pystr :=
  match List.find (fun escape => fst escape =? c) two_character_escapes with
  | Some (_, escape) => [92] ++ escape
  | None =>
      if (32 <=? c) && (c <? 127) then [c]
      else if c <? 65536 then u_escape c
      else u_escape (55296 + (c - 65536) / 1024)
           ++ u_escape (56320 + (c - 65536) mod 1024)
  end.

Definition quoted (s : pystr) : pystr :=
  [34] ++ flat_map character s ++ [34].

Definition member (kv : string * pystr) : pystr :=
  quoted (ustr (fst kv)) ++ ustr ":" ++ snd kv.

Definition object (members : list (string * pystr)) : pystr :=
  ustr "{" ++ join (ustr ",") (List.map member members) ++ ustr "}".

Definition array (items : list pystr) : pystr :=
  ustr "[" ++ join (ustr ",") items ++ ustr "]".

(** A number that is no integer: the names that JavaScript has for the
    values that are not finite, else the numeral. *)
Definition number (f : pyfloat) : pystr :=
  match f with
  | FNan => ustr "NaN"
  | FInf false => ustr "Infinity"
  | FInf true => ustr "-Infinity"
  | FNum numeral => float_repr numeral
  end.

(** The name of a member whose key is no string: the text of the
    key. *)
Definition key_name (key : pykey) : pystr :=
  match key with
  | KStr s => s
  | KInt z => int_repr z
  | KFloat f => number f
  | KBool true => ustr "true"
  | KBool false => ustr "false"
  | KNone => ustr "null"
  | KOther _ => []
  end.

(** The text of a value declared [Any]; a tuple is an array, and an
    object without a JSON form has no text. *)
Fixpoint any (value : pyval) : pystr :=
  match value with
  | PyNone => ustr "null"
  | PyBool true => ustr "true"
  | PyBool false => ustr "false"
  | PyInt z => int_repr z
  | PyFloat f => number f
  | PyStr s => quoted s
  | PyList lst | PyTuple lst => array (List.map any lst)
  | PyDict dct =>
      ustr "{"
      ++ join (ustr ",")
              (List.map (fun kv => quoted (key_name (fst kv)) ++ ustr ":"
                                   ++ any (snd kv))
                        dct)
      ++ ustr "}"
  | PyObject _ => []
  end.

Definition addon (a : AddonPlugin.t) : pystr :=
  object [
    ("id", quoted (AddonPlugin.id a));
    ("code", quoted (AddonPlugin.code a));
    ("owner", quoted (AddonPlugin.owner a));
    ("start_date", quoted (AddonPlugin.start_date a));
    ("end_date", quoted (AddonPlugin.end_date a))
  ]%string.

Definition identification (l : LicenseId.t) : pystr :=
  object [
    ("id", quoted (LicenseId.id l));
    ("license_type", quoted (LicenseId.license_type l));
    ("product", quoted (LicenseId.product l));
    ("product_id", quoted (LicenseId.product_id l));
    ("edition_id", quoted (LicenseId.edition_id l));
    ("seats", int_repr (LicenseId.seats l));
    ("start_date", quoted (LicenseId.start_date l));
    ("end_date", quoted (LicenseId.end_date l));
    ("issued_on", quoted (LicenseId.issued_on l));
    ("owner", quoted (LicenseId.owner l));
    ("add_ons", array (List.map addon (LicenseId.add_ons l)));
    ("features", array (List.map any (LicenseId.features l)))
  ]%string.

Definition payload (p : LicensePayload.t) : pystr :=
  object [
    ("name", quoted (LicensePayload.name p));
    ("email", quoted (LicensePayload.email p));
    ("licenses",
     array (List.map identification (LicensePayload.licenses p)))
  ]%string.

Definition license (l : License.t) : pystr :=
  object [
    ("header", any (PyDict (str_items (License.header l))));
    ("payload", payload (License.payload l));
    ("signature", quoted (License.signature l))
  ]%string.
End Canonical.

(** *** What the decoder makes of an encoded value

    The decoder joins a high surrogate and the low surrogate after it
    into one character, so a [str] that holds such a pair is read back
    with the pair joined. *)

Module Normal.
Import JsonDecoder.

Fixpoint join_pairs (s : pystr) : pystr :=
  match s with
  | [] => []
  | c :: r =>
      match r with
      | c2 :: r2 =>
          if is_high_surrogate c && is_low_surrogate c2
          then join_surrogates c c2 :: join_pairs r2
          else c :: join_pairs r
      | [] => [c]
      end
  end.

(** The value that the decoder returns for the text of a value: the
    surrogate pairs of the strings and of the keys are joined, the keys
    are the strings that stand for them, a tuple is a list. *)
Fixpoint value (o : pyval) : pyval :=
  match o with
  | PyStr s => PyStr (join_pairs s)
  | PyList lst | PyTuple lst => PyList (List.map value lst)
  | PyDict dct =>
      PyDict (str_items
                (dict_of_pairs
                   (List.map (fun kv =>
                                (join_pairs (Canonical.key_name (fst kv)),
                                 value (snd kv)))
                             dct)))
  | _ => o
  end.

(** A key that is a Python string. *)
Definition str_key (key : pykey) : Prop :=
  match key with
  | KStr s => valid_str s
  | _ => False
  end.

(** The values whose text the decoder is shown to read back into a value
    with the same text: values made of [None], booleans, integers,
    Python strings, lists and dictionaries with keys that are Python
    strings, no two of which the decoder reads as the same key. *)
Fixpoint decodable (o : pyval) : Prop :=
  match o with
  | PyStr s => valid_str s
  | PyList lst => fold_right (fun value P => decodable value /\ P) True lst
  | PyDict dct =>
      NoDup (List.map (fun kv => join_pairs (Canonical.key_name (fst kv)))
                      dct)
      /\ fold_right
           (fun kv P => str_key (fst kv) /\ decodable (snd kv) /\ P)
           True dct
  | PyFloat _ | PyTuple _ | PyObject _ => False
  | _ => True
  end.

(** Fuel that is enough for the decoder on the text of a value. *)
Fixpoint fuel_needed (o : pyval) : nat :=
  match o with
  | PyList lst | PyTuple lst =>
      S (fold_right (fun value n => S (fuel_needed value + n)) O lst)
  | PyDict dct =>
      S (fold_right (fun kv n => S (fuel_needed (snd kv) + n)) O dct)
  | _ => 1
  end.

(** What may follow a value in a text: the end, a comma or a closing
    bracket or brace. *)
Definition delimited (rest : pystr) : Prop :=
  match rest with
  | [] => True
  | c :: _ => c = 44 \/ c = 93 \/ c = 125
  end.
End Normal.

(** *** Helpers of the statements and of the proofs *)

(** An emission either completes or stops on a [TypeError]. *)
Definition type_errors (a : Json.emit) : Prop :=
  snd a = None \/ exists msg, snd a = Some (TypeError msg).

(** An emission whose text has the property [P], and whose exception,
    if any, has the property [R]. *)
Definition holds (P : pystr -> Prop) (R : exn -> Prop) (a : Json.emit)
    : Prop :=
  P (fst a) /\ forall e, snd a = Some e -> R e.

(** The chunks of a value inside a dictionary. *)
Definition emission (limit : N) (units : nat) (o : pyval) : Json.emit :=
  match Json.scalar limit units o with
  | Some a => a
  | None => Json.enter limit units o
  end.

(** What [write_json] returns or raises after the encoder. *)
Definition outcome (stopped : option exn) : result bool :=
  match stopped with
  | Some e => Raise e
  | None => Return true
  end.

(** The license that the generator builds from the two dates that the
    provider returns. *)
Definition generated (start finish : pystr) : License.t :=
  License.init
    (LicensePayload.licenses_append LicensePayload.init
       (fold_left (LicenseGenerator.add_plugin start finish)
                  (enumerate addon_plugins)
                  (LicenseId.init start finish start))).

(** The world after one reading of the clock. *)
Definition ticked (w : World) : World := set_reads (S (reads w)) w.

(** The world after [text] has been written to the file [file]. *)
Definition written (file : N) (text : pystr) (w : World) : World :=
  set_disk (<[file := text]> (disk w)) w.

(** The world after the diagnostic of a failed write. *)
Definition diagnosed (filename e : pystr) (w : World) : World :=
  set_stderr (stderr w ++ (ustr "Failed to open file :( -> " ++ filename
                           ++ [10] ++ e) ++ [10]) w.

(** The check of one row of the table of [month_day]: the result is a
    month and a day of that month, [n] days after the start of the
    year. *)
Definition month_day_ok (leap : bool) (n : Z) : bool :=
  (
  let '(m, d) := Datetime.month_day n leap in
  let before :=
    nth (Z.to_nat m) Datetime.DAYS_BEFORE_MONTH 0
    + (if (2 <? m) && leap then 1 else 0) in
  let length := if (m =? 2) && leap then 29
                else nth (Z.to_nat m) Datetime.DAYS_IN_MONTH 0 in
  (1 <=? m) && (m <=? 12) && (1 <=? d) && (d <=? length)
  && (before + d =? n + 1))%Z.

(** The check that a year of four digits is printed alike with and
    without padding. *)
Definition year_agrees (i : nat) : bool :=
  let year := (1000 + Z.of_nat i)%Z in
  bool_decide (int_repr year = Datetime.pad4 year).

(** The format [YYYY-MM-DD HH:MM:SS]: 19 characters, digits around the
    separators. *)
Definition is_timestamp (s : pystr) : bool :=
  match s with
  | [y1; y2; y3; y4; d1; m1; m2; d2; a1; a2; sp; h1; h2; c1; i1; i2; c2;
     s1; s2] =>
      forallb JsonDecoder.is_digit
              [y1; y2; y3; y4; m1; m2; a1; a2; h1; h2; i1; i2; s1; s2]
      && (d1 =? 45) && (d2 =? 45) && (sp =? 32) && (c1 =? 58) && (c2 =? 58)
  | _ => false
  end.

(** Whether a text starts with the two characters of a Unicode escape. *)
Definition starts_u (text : pystr) : bool :=
  match text with
  | b :: u :: _ => (b =? 92) && (u =? 117)
  | _ => false
  end.

(** The first character of the text of a value. *)
Definition value_start (c : N) : Prop :=
  c = 34 \/ c = 123 \/ c = 91 \/ c = 110 \/ c = 116 \/ c = 102 \/ c = 45
  \/ 48 <= c <= 57.

(** What the decoder is shown to do on the text of one value. *)
Definition scans (limit : N) (o : pyval) : Prop :=
  forall fuel rest,
    (Normal.fuel_needed o <= fuel)%nat -> Normal.delimited rest ->
    JsonDecoder.scan_once limit fuel (Canonical.any o ++ rest)
    = Some (Normal.value o, rest).

(** A license of Python values that the decoder can read back: its
    strings are Python strings, and its header and its features are
    decodable values. *)
Definition python_license (license : License.t) : Prop :=
  Forall valid_str
         (License.signature license
          :: LicensePayload.name (License.payload license)
          :: LicensePayload.email (License.payload license)
          :: flat_map identification_strings
                      (LicensePayload.licenses (License.payload license)))
  /\ Normal.decodable (PyDict (str_items (License.header license)))
  /\ Forall (fun l => Normal.decodable (PyList (LicenseId.features l)))
            (LicensePayload.licenses (License.payload license)).

(** The printable ASCII characters. *)
Definition printable (c : N) : Prop := 32 <= c <= 126.

(** A character that stands for itself in a JSON text, outside and
    inside a string literal: printable, and neither a space nor a
    quote. *)
Definition sign (c : N) : Prop := 32 < c <= 126 /\ c <> 34.

(** A string without a high surrogate: the decoder finds no pair to
    join in it. *)
Definition unpaired (s : pystr) : bool :=
  forallb (fun c => negb (JsonDecoder.is_high_surrogate c)) s.

(** The values whose strings and keys are all unpaired. *)
Fixpoint plain (o : pyval) : bool :=
  match o with
  | PyStr s => unpaired s
  | PyList lst | PyTuple lst => forallb plain lst
  | PyDict dct =>
      forallb (fun kv => unpaired (Canonical.key_name (fst kv))
                         && plain (snd kv))
              dct
  | _ => true
  end.

(** *** Worlds and values for the examples *)

(** A file system with two files: [idapro.hexlic], which is file 1, and
    [copy.hexlic], which is file 2 and has a second name,
    [link.hexlic]; [./name] denotes what [name] denotes, and the other
    names denote files of their own. *)
Definition without_dot_slash (name : pystr) : pystr :=
  match name with
  | 46 :: 47 :: rest => rest
  | _ => name
  end.

Definition inode_of (name : pystr) : N :=
  let name := without_dot_slash name in
  if bool_decide (name = ustr "idapro.hexlic") then 1
  else if bool_decide (name = ustr "copy.hexlic") then 2
  else if bool_decide (name = ustr "link.hexlic") then 2
  else 3 + fold_left (fun n c => n * 1114112 + c) name 0.

(** A world with the defaults of the interpreter (at most 4300 digits,
    a recursion limit of 1000, some of it used by the callers), in which
    every file can be written and holds what it is given, and an older
    license file exists. *)
Definition world_at (clock : nat -> Datetime.datetime) : World :=
  mkWorld clock 0 false 4300 990 inode_of {[ 1 := ustr "stale" ]}
          (fun _ => None) (fun _ => None) [] [].

(** The clock stands at 2024-01-01 00:00:00. *)
Definition world_2024 : World :=
  world_at (fun _ => Datetime.mk 2024 1 1 0 0 0 0).


(** The same world on a device that is full. *)
Definition world_full : World :=
  mkWorld (clock world_2024) 0 false 4300 990 inode_of (disk world_2024)
          (fun _ => None)
          (fun _ => Some (O, ustr "[Errno 28] No space left on device"))
          [] [].

(** A clock in the year 9995, and a clock that passes midnight between
    two readings. *)
Definition world_9995 : World :=
  world_at (fun _ => Datetime.mk 9995 6 1 12 0 0 0).

Definition world_midnight : World :=
  world_at (fun n => match n with
                     | O => Datetime.mk 2024 1 1 23 59 59 999999
                     | S _ => Datetime.mk 2024 1 2 0 0 0 0
                     end).

(** The license that is generated on the first day of 2024. *)
Definition license_2024 : License.t :=
  generated (ustr "2024-01-01 00:00:00") (ustr "2033-12-29 00:00:00").

(** A license without add-ons, and the same license for a number of
    seats. *)
Definition license_plain : License.t :=
  License.init
    (LicensePayload.licenses_append LicensePayload.init
       (LicenseId.init (ustr "2024-01-01 00:00:00")
                       (ustr "2034-01-01 00:00:00")
                       (ustr "2024-01-01 00:00:00"))).

Definition license_for (seats : Z) : License.t :=
  License.init
    (LicensePayload.licenses_append LicensePayload.init
       (LicenseId.mk (ustr "48-2437-ACBD-29") (ustr "named") (ustr "IDA")
                     (ustr "IDAPRO") (ustr "ida-pro") seats
                     (ustr "2024-01-01 00:00:00")
                     (ustr "2034-01-01 00:00:00")
                     (ustr "2024-01-01 00:00:00") (ustr "0x0060") [] [])).

(** A license whose header holds, behind its version, a list in a list
    and so on, a thousand deep. *)
Definition license_nested : License.t :=
  License.mk
    [ (ustr "version", PyInt 1);
      (ustr "history", Nat.iter 1000 (fun value => PyList [value]) PyNone) ]
    LicensePayload.init License.default_signature.

(** A dictionary with a [set] inside a list. *)
Definition unserializable_example : pyval :=
  PyDict [(KStr (ustr "k"), PyList [PyInt 1; PyObject (ustr "set")])].

(** * Properties *)

(** ** The monad *)

Lemma bind_Return {St A B} (m : M St A) (k : A -> M St B) s a s' :
  m s = (Return a, s') -> bind m k s = k a s'.
Proof. intros H. unfold bind. rewrite H. reflexivity. Qed.

(** ** [LicenseGenerator.generate_license] *)

Section Generate.
Context {St : Type} (tp : TimeProvider St).
Variables (s s1 s2 : St) (start finish : pystr).
Hypothesis Hnow : current_time s = (Return start, s1).
Hypothesis Hfuture : future_time 10 s1 = (Return finish, s2).

(** The license that the generator returns when the provider answers
    [start] and [finish]. *)
Lemma generate_license_returns :
  LicenseGenerator.generate_license tp s
  = (Return
       (License.init
          (LicensePayload.licenses_append LicensePayload.init
             (fold_left (LicenseGenerator.add_plugin start finish)
                        (enumerate addon_plugins)
                        (LicenseId.init start finish start)))),
     s2).
Proof.
  unfold LicenseGenerator.generate_license.
  rewrite (bind_Return _ _ _ _ _ Hnow).
  rewrite (bind_Return _ _ _ _ _ Hfuture).
  reflexivity.
Qed.
End Generate.

Ltac generated Hnow Hfuture :=
  eexists; eexists; split;
  [ apply (generate_license_returns _ _ _ _ _ _ Hnow Hfuture) | ].

(** C1. With [start] the answer of [current_time()] and [finish] the
    answer of [future_time(10)], the generator returns a license with one
    identification whose [start_date] and [issued_on] are [start] and
    whose [end_date] is [finish], and every add-on carries the same two
    dates.  The case of the specification is [start = "2024-01-01
    00:00:00"] and [finish = "2034-01-01 00:00:00"]. *)
Theorem generate_license_dates {St} (tp : TimeProvider St) (s s1 s2 : St)
    (start finish : pystr) :
  current_time s = (Return start, s1) ->
  future_time 10 s1 = (Return finish, s2) ->
  exists license license_id,
    LicenseGenerator.generate_license tp s = (Return license, s2)
    /\ LicensePayload.licenses (License.payload license) = [license_id]
    /\ LicenseId.start_date license_id = start
    /\ LicenseId.issued_on license_id = start
    /\ LicenseId.end_date license_id = finish
    /\ Forall (fun addon => AddonPlugin.start_date addon = start
                            /\ AddonPlugin.end_date addon = finish)
              (LicenseId.add_ons license_id).
Proof.
  intros Hnow Hfuture. generated Hnow Hfuture.
  repeat split. cbv. repeat constructor.
Qed.

Lemma generate_license_dates_witness :
  exists license license_id,
    LicenseGenerator.generate_license
      (FixedTimeProvider (ustr "2024-01-01 00:00:00")
                         (ustr "2034-01-01 00:00:00")) tt
    = (Return license, tt)
    /\ LicensePayload.licenses (License.payload license) = [license_id]
    /\ LicenseId.start_date license_id = ustr "2024-01-01 00:00:00"
    /\ LicenseId.issued_on license_id = ustr "2024-01-01 00:00:00"
    /\ LicenseId.end_date license_id = ustr "2034-01-01 00:00:00"
    /\ Forall (fun addon =>
                 AddonPlugin.start_date addon = ustr "2024-01-01 00:00:00"
                 /\ AddonPlugin.end_date addon = ustr "2034-01-01 00:00:00")
              (LicenseId.add_ons license_id).
Proof.
  apply (generate_license_dates
           (FixedTimeProvider (ustr "2024-01-01 00:00:00")
                              (ustr "2034-01-01 00:00:00")) tt tt tt
           (ustr "2024-01-01 00:00:00") (ustr "2034-01-01 00:00:00"));
    reflexivity.
Defined.

(** C2. Whatever the provider answers, the identification of the
    generated license has exactly 11 add-ons; their codes are the catalog
    in its order and their ids are ["48-1337-DEAD-0"] to
    ["48-1337-DEAD-10"]. *)
Theorem generate_license_add_ons {St} (tp : TimeProvider St) (s s1 s2 : St)
    (start finish : pystr) :
  current_time s = (Return start, s1) ->
  future_time 10 s1 = (Return finish, s2) ->
  exists license license_id,
    LicenseGenerator.generate_license tp s = (Return license, s2)
    /\ LicensePayload.licenses (License.payload license) = [license_id]
    /\ List.length (LicenseId.add_ons license_id) = 11%nat
    /\ List.map AddonPlugin.code (LicenseId.add_ons license_id)
       = [ ustr "HEXX86"; ustr "HEXX64"; ustr "HEXARM"; ustr "HEXARM64";
           ustr "HEXMIPS"; ustr "HEXMIPS64"; ustr "HEXPPC"; ustr "HEXPPC64";
           ustr "HEXRV64"; ustr "HEXARC"; ustr "HEXARC64" ]
    /\ List.map AddonPlugin.id (LicenseId.add_ons license_id)
       = [ ustr "48-1337-DEAD-0"; ustr "48-1337-DEAD-1";
           ustr "48-1337-DEAD-2"; ustr "48-1337-DEAD-3";
           ustr "48-1337-DEAD-4"; ustr "48-1337-DEAD-5";
           ustr "48-1337-DEAD-6"; ustr "48-1337-DEAD-7";
           ustr "48-1337-DEAD-8"; ustr "48-1337-DEAD-9";
           ustr "48-1337-DEAD-10" ].
Proof.
  intros Hnow Hfuture. generated Hnow Hfuture.
  repeat split.
Qed.

Lemma generate_license_add_ons_witness :
  exists license license_id,
    LicenseGenerator.generate_license
      (FixedTimeProvider (ustr "2024-01-01 00:00:00")
                         (ustr "2034-01-01 00:00:00")) tt
    = (Return license, tt)
    /\ LicensePayload.licenses (License.payload license) = [license_id]
    /\ List.length (LicenseId.add_ons license_id) = 11%nat
    /\ List.map AddonPlugin.code (LicenseId.add_ons license_id)
       = addon_plugins
    /\ List.map AddonPlugin.id (LicenseId.add_ons license_id)
       = List.map (fun i => ustr "48-1337-DEAD-" ++ int_repr (Z.of_nat i))
                  (seq 0 11).
Proof.
  apply (generate_license_add_ons
           (FixedTimeProvider (ustr "2024-01-01 00:00:00")
                              (ustr "2034-01-01 00:00:00")) tt tt tt
           (ustr "2024-01-01 00:00:00") (ustr "2034-01-01 00:00:00"));
    reflexivity.
Defined.

(** C3. In the identification of the generated license every add-on,
    at every index, has the identification's [id] as [owner] and the
    identification's [start_date] and [end_date]; and [issued_on] equals
    [start_date]. *)
Theorem generate_license_invariant {St} (tp : TimeProvider St)
    (s s1 s2 : St) (start finish : pystr) :
  current_time s = (Return start, s1) ->
  future_time 10 s1 = (Return finish, s2) ->
  exists license license_id,
    LicenseGenerator.generate_license tp s = (Return license, s2)
    /\ LicensePayload.licenses (License.payload license) = [license_id]
    /\ LicenseId.issued_on license_id = LicenseId.start_date license_id
    /\ forall (i : nat) (addon : AddonPlugin.t),
         nth_error (LicenseId.add_ons license_id) i = Some addon ->
         AddonPlugin.owner addon = LicenseId.id license_id
         /\ AddonPlugin.start_date addon = LicenseId.start_date license_id
         /\ AddonPlugin.end_date addon = LicenseId.end_date license_id.
Proof.
  intros Hnow Hfuture. generated Hnow Hfuture.
  split; [reflexivity | split; [reflexivity | ]].
  intros i addon Hi. apply nth_error_In in Hi. revert addon Hi.
  apply List.Forall_forall. cbv. repeat constructor.
Qed.

Lemma generate_license_invariant_witness :
  exists license license_id,
    LicenseGenerator.generate_license
      (FixedTimeProvider (ustr "2024-01-01 00:00:00")
                         (ustr "2034-01-01 00:00:00")) tt
    = (Return license, tt)
    /\ LicensePayload.licenses (License.payload license) = [license_id]
    /\ LicenseId.issued_on license_id = LicenseId.start_date license_id
    /\ forall (i : nat) (addon : AddonPlugin.t),
         nth_error (LicenseId.add_ons license_id) i = Some addon ->
         AddonPlugin.owner addon = LicenseId.id license_id
         /\ AddonPlugin.start_date addon = LicenseId.start_date license_id
         /\ AddonPlugin.end_date addon = LicenseId.end_date license_id.
Proof.
  apply (generate_license_invariant
           (FixedTimeProvider (ustr "2024-01-01 00:00:00")
                              (ustr "2034-01-01 00:00:00")) tt tt tt
           (ustr "2024-01-01 00:00:00") (ustr "2034-01-01 00:00:00"));
    reflexivity.
Defined.

(** C9. The constants of the generated license: the identity fields of
    the identification, one seat, no features, the name and the email of
    the payload with exactly one identification, the header
    [{"version": 1}] and the fixed signature of 256 hexadecimal
    characters. *)
Theorem generate_license_constants {St} (tp : TimeProvider St)
    (s s1 s2 : St) (start finish : pystr) :
  current_time s = (Return start, s1) ->
  future_time 10 s1 = (Return finish, s2) ->
  exists license license_id,
    LicenseGenerator.generate_license tp s = (Return license, s2)
    /\ LicensePayload.licenses (License.payload license) = [license_id]
    /\ LicenseId.id license_id = ustr "48-2437-ACBD-29"
    /\ LicenseId.license_type license_id = ustr "named"
    /\ LicenseId.product license_id = ustr "IDA"
    /\ LicenseId.product_id license_id = ustr "IDAPRO"
    /\ LicenseId.edition_id license_id = ustr "ida-pro"
    /\ LicenseId.seats license_id = 1%Z
    /\ LicenseId.owner license_id = ustr "0x0060"
    /\ LicenseId.features license_id = []
    /\ LicensePayload.name (License.payload license) = ustr "0x0060"
    /\ LicensePayload.email (License.payload license) = ustr "ren@0x0060.dev"
    /\ License.header license = [(ustr "version", PyInt 1)]
    /\ License.signature license
       = ustr "3238353E900849B6547801BBF8AF31E7822CB4B74A6F54DE03F5E9DFF96AC5DA981B50A62EAAF021F2052CC44498107B36C2D3B34C86B7B48084313189274A1D5D1F45C1F512820C508EA22ABA43EC584E6FEFF6BA9969DD428268F40859AFFE8A2E5BB66CA9C71E78FCAC14E3168D26D11952A71C0F330251D9D74FFC67BD24"
    /\ List.length (License.signature license) = 256%nat
    /\ firstn 12 (License.signature license) = ustr "3238353E9008"
    /\ forallb (fun c => ((48 <=? c) && (c <=? 57))
                         || ((65 <=? c) && (c <=? 70)))
               (License.signature license) = true.
Proof.
  intros Hnow Hfuture. generated Hnow Hfuture.
  repeat split.
Qed.

Lemma generate_license_constants_witness :
  exists license license_id,
    LicenseGenerator.generate_license
      (FixedTimeProvider (ustr "2024-01-01 00:00:00")
                         (ustr "2034-01-01 00:00:00")) tt
    = (Return license, tt)
    /\ LicensePayload.licenses (License.payload license) = [license_id]
    /\ LicenseId.id license_id = ustr "48-2437-ACBD-29"
    /\ LicenseId.seats license_id = 1%Z
    /\ License.header license = [(ustr "version", PyInt 1)]
    /\ List.length (License.signature license) = 256%nat.
Proof.
  destruct (generate_license_constants
              (FixedTimeProvider (ustr "2024-01-01 00:00:00")
                                 (ustr "2034-01-01 00:00:00")) tt tt tt
              (ustr "2024-01-01 00:00:00") (ustr "2034-01-01 00:00:00")
              eq_refl eq_refl)
    as (license & license_id & H).
  exists license, license_id. intuition.
Defined.

(** ** Induction on [pyval] *)

Lemma pyval_ind (P : pyval -> Prop) :
  P PyNone ->
  (forall b, P (PyBool b)) ->
  (forall z, P (PyInt z)) ->
  (forall f, P (PyFloat f)) ->
  (forall s, P (PyStr s)) ->
  (forall l, Forall P l -> P (PyList l)) ->
  (forall l, Forall P l -> P (PyTuple l)) ->
  (forall d, Forall (fun kv => P (snd kv)) d -> P (PyDict d)) ->
  (forall t, P (PyObject t)) ->
  forall o, P o.
Proof.
  intros HNone HBool HInt HFloat HStr HList HTuple HDict HObject.
  fix IH 1. intros [ | b | z | f | s | l | l | d | t].
  - exact HNone.
  - apply HBool.
  - apply HInt.
  - apply HFloat.
  - apply HStr.
  - apply HList. induction l as [ | o l IHl]; constructor.
    + apply IH.
    + exact IHl.
  - apply HTuple. induction l as [ | o l IHl]; constructor.
    + apply IH.
    + exact IHl.
  - apply HDict. induction d as [ | [k o] d IHd]; constructor.
    + apply IH.
    + exact IHd.
  - apply HObject.
Qed.

(** ** The encoder *)

Section Encoder.
Import Json.

Lemma then_say (text : pystr) (b : emit) :
  say text >> b = (text ++ fst b, snd b).
Proof. reflexivity. Qed.

Lemma then_assoc (a b c : emit) : a >> b >> c = a >> (b >> c).
Proof.
  destruct a as [ta [ea | ]], b as [tb [eb | ]], c as [tc ec]; simpl;
    rewrite ?app_assoc; reflexivity.
Qed.

Lemma then_ok (a b : emit) :
  snd a = None -> a >> b = (fst a ++ fst b, snd b).
Proof.
  destruct a as [ta [ea | ]]; simpl; intros H; [discriminate | reflexivity].
Qed.

Lemma then_stopped (a b : emit) e :
  snd a = Some e -> a >> b = a.
Proof.
  destruct a as [ta [ea | ]]; simpl; intros H; [reflexivity | discriminate].
Qed.

Lemma then_None (a b : emit) :
  snd (a >> b) = None <-> snd a = None /\ snd b = None.
Proof.
  destruct a as [ta [ea | ]]; simpl; intuition congruence.
Qed.

Lemma then_snd (a b : emit) :
  snd (a >> b) = match snd a with Some e => Some e | None => snd b end.
Proof. destruct a as [ta [ea | ]]; reflexivity. Qed.

Lemma need_enough (units n : nat) (a : emit) :
  (n <= units)%nat -> need units n a = a.
Proof.
  intros H. unfold need. destruct (Nat.leb_spec n units); [reflexivity | lia].
Qed.

Lemma need_None (units n : nat) (a : emit) :
  snd (need units n a) = None -> snd a = None.
Proof. unfold need. destruct (n <=? units)%nat; [auto | discriminate]. Qed.

Lemma need_cases (units n : nat) (a : emit) :
  need units n a = a \/ need units n a = fail RecursionError.
Proof. unfold need. destruct (n <=? units)%nat; auto. Qed.

Lemma buffered_snd (buf : pystr) (a : emit) :
  snd (buffered buf a) = snd a.
Proof. destruct a as [text [e | ]]; reflexivity. Qed.

Lemma buffered_say (buf text : pystr) :
  buffered buf (say text) = say (buf ++ text).
Proof. reflexivity. Qed.

Lemma enter_O limit (o : pyval) : enter limit O o = fail RecursionError.
Proof. destruct o; reflexivity. Qed.

(** *** What the encoder does on the values of a container *)

Section Inside.
Variables (limit : N) (units : nat).

Lemma element_snd (buf : pystr) (value : pyval) :
  snd (element limit units (enter limit units) buf value)
  = snd (emission limit units value).
Proof.
  unfold element, emission.
  destruct (scalar limit units value) as [a | ].
  - apply buffered_snd.
  - rewrite then_snd. reflexivity.
Qed.

Lemma element_complete (buf : pystr) (value : pyval) (text : pystr) :
  emission limit units value = say text ->
  element limit units (enter limit units) buf value = say (buf ++ text).
Proof.
  unfold element, emission.
  destruct (scalar limit units value) as [a | ]; intros ->; reflexivity.
Qed.

Lemma elements_snd (lst : list pyval) :
  snd (elements limit units (enter limit units) lst) = None
  <-> Forall (fun value => snd (emission limit units value) = None) lst.
Proof.
  induction lst as [ | value lst IH]; cbn [elements].
  - split; [constructor | reflexivity].
  - rewrite then_None, IH. rewrite element_snd. split.
    + intros [Hv Hl]. constructor; assumption.
    + intros H. inversion H; subst. split; assumption.
Qed.

Lemma elements_complete (lst : list pyval) (text : pyval -> pystr) :
  Forall (fun value => emission limit units value = say (text value)) lst ->
  elements limit units (enter limit units) lst
  = say (flat_map (fun value => ustr "," ++ text value) lst).
Proof.
  induction 1 as [ | value lst Hv _ IH]; [reflexivity | ].
  cbn [elements flat_map].
  rewrite (element_complete _ _ _ Hv), IH, then_say. cbn [fst snd say].
  rewrite <- List.app_assoc. reflexivity.
Qed.

Lemma member_None (first : bool) (kv : pykey * pyval) :
  snd (member limit units (enter limit units) first kv) = None ->
  key_serializable (fst kv) = true
  /\ snd (emission limit units (snd kv)) = None.
Proof.
  unfold member, emission. destruct kv as [key value]. cbn [fst snd].
  destruct (key_text limit units key) as [text | e] eqn:Hkey;
    [ | discriminate].
  rewrite !then_assoc, !then_say. cbn [snd]. intros H. split; [ | exact H].
  destruct key; try reflexivity. cbn [key_text] in Hkey.
  destruct (1 <=? units)%nat; discriminate.
Qed.

Lemma members_None (dct : list (pykey * pyval)) :
  snd (members limit units (enter limit units) dct) = None ->
  Forall (fun kv => key_serializable (fst kv) = true
                    /\ snd (emission limit units (snd kv)) = None) dct.
Proof.
  induction dct as [ | kv dct IH]; cbn [members];
    [constructor | ].
  rewrite then_None. intros [Hkv Hdct]. constructor; [ | apply IH, Hdct].
  apply (member_None false), Hkv.
Qed.

(** The key of a dictionary within the limits is converted, unless it is
    of a type without a text. *)
Lemma key_text_within (key : pykey) :
  match key with
  | KInt z => digits_refused limit (int_digits z) = false
  | _ => True
  end ->
  (match key with KFloat _ => 2 | _ => 1 end <= units)%nat ->
  key_text limit units key
  = match key with
    | KOther type_name =>
        Raise (TypeError
                 (ustr "keys must be str, int, float, bool or None, not "
                  ++ type_name))
    | _ => Return (Canonical.key_name key)
    end.
Proof.
  intros Hint Hunits. destruct key as [s | z | f | [ | ] | | t];
    try reflexivity; cbn [key_text].
  - destruct (Nat.leb_spec 1 units); [ | lia].
    unfold intstr. rewrite Hint. reflexivity.
  - destruct (Nat.leb_spec 2 units); [ | lia]. destruct f as [ | [ | ] | d];
      reflexivity.
  - destruct (Nat.leb_spec 1 units); [reflexivity | lia].
Qed.

Lemma member_complete (first : bool) (kv : pykey * pyval) (text : pystr) :
  key_text limit units (fst kv) = Return (Canonical.key_name (fst kv)) ->
  emission limit units (snd kv) = say text ->
  member limit units (enter limit units) first kv
  = say ((if first then [] else ustr ",")
         ++ encode_basestring_ascii (Canonical.key_name (fst kv))
         ++ ustr ":" ++ text).
Proof.
  unfold member, emission. intros -> Hvalue.
  destruct (scalar limit units (snd kv)); rewrite Hvalue;
    destruct first; unfold say, then_; cbn [fst snd];
    rewrite <- ?List.app_assoc; reflexivity.
Qed.

Lemma members_complete (dct : list (pykey * pyval))
    (text : pyval -> pystr) :
  Forall (fun kv =>
            key_text limit units (fst kv)
            = Return (Canonical.key_name (fst kv))
            /\ emission limit units (snd kv) = say (text (snd kv))) dct ->
  members limit units (enter limit units) dct
  = say (flat_map
           (fun kv => ustr ","
                      ++ encode_basestring_ascii (Canonical.key_name (fst kv))
                      ++ ustr ":" ++ text (snd kv))
           dct).
Proof.
  induction 1 as [ | kv dct [Hk Hv] _ IH]; [reflexivity | ].
  cbn [members flat_map].
  rewrite (member_complete false _ _ Hk Hv), IH, then_say. cbn [fst snd say].
  rewrite <- !List.app_assoc. reflexivity.
Qed.
End Inside.

(** The bound on the units of a container bounds the units of what it
    holds. *)
Lemma units_of_list (lst : list pyval) (n : nat) :
  (fold_right (fun value n => Nat.max (units_needed value) n) 1 lst <= n)%nat
  -> (1 <= n)%nat /\ Forall (fun value => (units_needed value <= n)%nat) lst.
Proof.
  induction lst as [ | value lst IH]; cbn [fold_right]; intros H.
  - split; [exact H | constructor].
  - destruct IH as [H1 Hl]; [lia | ].
    split; [exact H1 | constructor; [lia | exact Hl]].
Qed.

Lemma units_of_dict (dct : list (pykey * pyval)) (n : nat) :
  (fold_right
     (fun kv n =>
        Nat.max (match fst kv with KFloat _ => 2 | _ => 1 end)
                (Nat.max (units_needed (snd kv)) n))
     1 dct <= n)%nat ->
  (1 <= n)%nat
  /\ Forall (fun kv =>
               (match fst kv with KFloat _ => 2 | _ => 1 end <= n)%nat
               /\ (units_needed (snd kv) <= n)%nat) dct.
Proof.
  induction dct as [ | kv dct IH]; cbn [fold_right]; intros H.
  - split; [exact H | constructor].
  - destruct IH as [H1 Hl]; [lia | ].
    split; [exact H1 | constructor; [lia | exact Hl]].
Qed.

Lemma units_needed_pos (o : pyval) : (1 <= units_needed o)%nat.
Proof. destruct o; cbn [units_needed]; lia. Qed.

(** *** The encoder completes on serializable values only *)

Lemma emission_None (limit : N) (o : pyval) :
  forall units,
    snd (emission limit units o) = None -> serializable o = true.
Proof.
  induction o as [ | b | z | f | s | l IH | l IH | d IH | t] using pyval_ind;
    intros units; try reflexivity; unfold emission; cbn [scalar].
  - destruct units as [ | inside]; [rewrite enter_O; discriminate | ].
    cbn [enter serializable]. destruct l as [ | value lst]; [reflexivity | ].
    unfold iterencode_list. intros H. apply need_None in H.
    rewrite !then_None, element_snd, elements_snd in H.
    destruct H as [[Hv Hl] _]. inversion IH as [ | ? ? IHv IHl]; subst.
    cbn [forallb]. rewrite (IHv _ Hv). cbn [andb].
    apply forallb_forall. intros x Hx.
    rewrite List.Forall_forall in Hl, IHl. exact (IHl x Hx _ (Hl x Hx)).
  - destruct units as [ | inside]; [rewrite enter_O; discriminate | ].
    cbn [enter serializable]. destruct l as [ | value lst]; [reflexivity | ].
    unfold iterencode_list. intros H. apply need_None in H.
    rewrite !then_None, element_snd, elements_snd in H.
    destruct H as [[Hv Hl] _]. inversion IH as [ | ? ? IHv IHl]; subst.
    cbn [forallb]. rewrite (IHv _ Hv). cbn [andb].
    apply forallb_forall. intros x Hx.
    rewrite List.Forall_forall in Hl, IHl. exact (IHl x Hx _ (Hl x Hx)).
  - destruct units as [ | inside]; [rewrite enter_O; discriminate | ].
    cbn [enter serializable]. destruct d as [ | kv dct]; [reflexivity | ].
    unfold iterencode_dict. intros H. apply need_None in H.
    rewrite !then_None in H. destruct H as [[[_ Hkv] Hd] _].
    apply member_None in Hkv. apply members_None in Hd.
    inversion IH as [ | ? ? IHv IHd]; subst.
    cbn [forallb]. destruct Hkv as [-> Hv]. rewrite (IHv _ Hv). cbn [andb].
    apply forallb_forall. intros x Hx.
    rewrite List.Forall_forall in Hd, IHd.
    destruct (Hd x Hx) as [-> Hxv]. exact (IHd x Hx _ Hxv).
  - destruct units as [ | inside]; [rewrite enter_O; discriminate | ].
    cbn [enter]. intros H. apply need_None in H. discriminate.
Qed.

(** [iterencode] is [emission] but for the units of an object that is
    refused. *)
Lemma iterencode_emission (limit : N) (units : nat) (o : pyval) :
  (1 <= units)%nat ->
  match o with PyObject _ => False | _ => True end ->
  iterencode limit units o = emission limit units o.
Proof.
  intros Hunits Ho. unfold iterencode, emission.
  rewrite need_enough by exact Hunits.
  destruct o; try reflexivity. contradiction.
Qed.

Lemma iterencode_None (limit : N) (units : nat) (o : pyval) :
  snd (iterencode limit units o) = None -> serializable o = true.
Proof.
  unfold iterencode. intros H. apply need_None in H.
  destruct o; try reflexivity;
    try (apply (emission_None limit _ units); exact H).
  apply need_None in H. discriminate.
Qed.

(** *** Within the limits, the encoder stops on a [TypeError] only *)

Lemma type_errors_then (a b : emit) :
  type_errors a -> type_errors b -> type_errors (a >> b).
Proof.
  intros [Ha | [msg Ha]] Hb.
  - rewrite (then_ok _ _ Ha). exact Hb.
  - rewrite (then_stopped _ _ _ Ha). right. eauto.
Qed.

Lemma type_errors_say text : type_errors (say text).
Proof. left. reflexivity. Qed.

Lemma type_errors_snd (a b : emit) :
  snd a = snd b -> type_errors a -> type_errors b.
Proof. unfold type_errors. intros ->. auto. Qed.

Lemma emission_type_errors (limit : N) (o : pyval) :
  forall units,
    ints_within limit o = true -> (units_needed o <= units)%nat ->
    type_errors (emission limit units o).
Proof.
  induction o as [ | b | z | f | s | l IH | l IH | d IH | t] using pyval_ind;
    intros units Hints Hunits; unfold emission; cbn [scalar];
    cbn [units_needed] in Hunits.
  - apply type_errors_say.
  - destruct b; apply type_errors_say.
  - rewrite need_enough by exact Hunits. unfold intstr.
    cbn [ints_within] in Hints. apply negb_true_iff in Hints.
    rewrite Hints. apply type_errors_say.
  - rewrite need_enough by exact Hunits. apply type_errors_say.
  - rewrite need_enough by exact Hunits. apply type_errors_say.
  - destruct units as [ | inside]; [lia | ]. cbn [enter].
    destruct l as [ | value lst]; [apply type_errors_say | ].
    apply le_S_n, units_of_list in Hunits. destruct Hunits as [H1 Hunits].
    unfold iterencode_list. rewrite need_enough by exact H1.
    cbn [ints_within] in Hints. rewrite forallb_forall in Hints.
    rewrite List.Forall_forall in IH, Hunits.
    assert (Hall : forall x, In x (value :: lst) ->
                   type_errors (emission limit inside x))
      by (intros x Hx; apply IH; auto).
    repeat apply type_errors_then; try apply type_errors_say.
    + eapply type_errors_snd; [symmetry; apply element_snd | ].
      apply Hall. left. reflexivity.
    + assert (Hlst : forall x, In x lst ->
                     type_errors (emission limit inside x))
        by (intros x Hx; apply Hall; right; exact Hx).
      clear -Hlst. induction lst as [ | x lst IHl]; cbn [elements];
        [apply type_errors_say | ].
      apply type_errors_then.
      * eapply type_errors_snd; [symmetry; apply element_snd | ].
        apply Hlst. left. reflexivity.
      * apply IHl. intros y Hy. apply Hlst. right. exact Hy.
  - destruct units as [ | inside]; [lia | ]. cbn [enter].
    destruct l as [ | value lst]; [apply type_errors_say | ].
    apply le_S_n, units_of_list in Hunits. destruct Hunits as [H1 Hunits].
    unfold iterencode_list. rewrite need_enough by exact H1.
    cbn [ints_within] in Hints. rewrite forallb_forall in Hints.
    rewrite List.Forall_forall in IH, Hunits.
    assert (Hall : forall x, In x (value :: lst) ->
                   type_errors (emission limit inside x))
      by (intros x Hx; apply IH; auto).
    repeat apply type_errors_then; try apply type_errors_say.
    + eapply type_errors_snd; [symmetry; apply element_snd | ].
      apply Hall. left. reflexivity.
    + assert (Hlst : forall x, In x lst ->
                     type_errors (emission limit inside x))
        by (intros x Hx; apply Hall; right; exact Hx).
      clear -Hlst. induction lst as [ | x lst IHl]; cbn [elements];
        [apply type_errors_say | ].
      apply type_errors_then.
      * eapply type_errors_snd; [symmetry; apply element_snd | ].
        apply Hlst. left. reflexivity.
      * apply IHl. intros y Hy. apply Hlst. right. exact Hy.
  - destruct units as [ | inside]; [lia | ]. cbn [enter].
    destruct d as [ | kv dct]; [apply type_errors_say | ].
    apply le_S_n, units_of_dict in Hunits. destruct Hunits as [H1 Hunits].
    unfold iterencode_dict. rewrite need_enough by exact H1.
    cbn [ints_within] in Hints. rewrite forallb_forall in Hints.
    rewrite List.Forall_forall in IH, Hunits.
    assert (Hall : forall first x, In x (kv :: dct) ->
                   type_errors (member limit inside (enter limit inside)
                                       first x)).
    { intros first x Hx. specialize (Hints x Hx).
      apply andb_true_iff in Hints. destruct Hints as [Hkey Hvalue].
      destruct (Hunits x Hx) as [Hku Hvu].
      pose proof (IH x Hx inside Hvalue Hvu) as Hv.
      unfold member.
      rewrite key_text_within;
        [ | destruct (fst x); try exact I; apply negb_true_iff, Hkey
          | exact Hku ].
      destruct (fst x); try (right; eexists; reflexivity);
        repeat apply type_errors_then; try apply type_errors_say; exact Hv. }
    repeat apply type_errors_then; try apply type_errors_say.
    + apply Hall. left. reflexivity.
    + assert (Hdct : forall x, In x dct ->
                     type_errors (member limit inside (enter limit inside)
                                         false x))
        by (intros x Hx; apply Hall; right; exact Hx).
      clear -Hdct. induction dct as [ | x dct IHd]; cbn [members];
        [apply type_errors_say | ].
      apply type_errors_then.
      * apply Hdct. left. reflexivity.
      * apply IHd. intros y Hy. apply Hdct. right. exact Hy.
  - destruct units as [ | inside]; [lia | ]. cbn [enter].
    rewrite need_enough by lia. right. eexists. reflexivity.
Qed.

Lemma iterencode_type_errors (limit : N) (units : nat) (o : pyval) :
  ints_within limit o = true -> (units_needed o <= units)%nat ->
  type_errors (iterencode limit units o).
Proof.
  intros Hints Hunits. pose proof (units_needed_pos o) as Hpos.
  destruct o;
    try (rewrite iterencode_emission by (exact I || lia);
         apply emission_type_errors; assumption).
  unfold iterencode. cbn [scalar]. cbn [units_needed] in Hunits.
  rewrite !need_enough by lia. right. eexists. reflexivity.
Qed.

(** A value that is not serializable, within the limits: the encoder
    stops on a [TypeError]. *)
Lemma iterencode_TypeError (limit : N) (units : nat) (o : pyval) :
  ints_within limit o = true -> (units_needed o <= units)%nat ->
  serializable o = false ->
  exists msg, snd (iterencode limit units o) = Some (TypeError msg).
Proof.
  intros Hints Hunits Hser.
  destruct (iterencode_type_errors _ _ _ Hints Hunits) as [Hok | Hstop];
    [ | exact Hstop].
  apply iterencode_None in Hok. congruence.
Qed.
End Encoder.

(** ** What holds of every text and of every exception of the encoder *)

Section EncoderProperty.
Import Json.
Variable P : pystr -> Prop.
Variable R : exn -> Prop.
Hypothesis P_nil : P [].
Hypothesis P_app : forall a b, P a -> P b -> P (a ++ b).
Hypothesis P_literal :
  forall s, In s ["null"; "true"; "false"; "[]"; "{}"; "["; "]"; "{"; "}";
                  ","; ":"]%string -> P (ustr s).
Hypothesis P_string : forall s, P (encode_basestring_ascii s).
Hypothesis P_int : forall z, P (int_repr z).
Hypothesis P_float : forall f, P (floatstr f).
Hypothesis R_encoder : forall e, encoder_error e -> R e.

Lemma holds_say (text : pystr) : P text -> holds P R (say text).
Proof. intros H. split; [exact H | discriminate]. Qed.

Lemma holds_fail (e : exn) : encoder_error e -> holds P R (fail e).
Proof.
  intros H. split; [exact P_nil | ].
  intros e' [= <-]. apply R_encoder, H.
Qed.

Lemma holds_then (a b : emit) :
  holds P R a -> holds P R b -> holds P R (a >> b).
Proof.
  destruct a as [ta [e | ]]; intros [Ha Ra] [Hb Rb]; [split; assumption | ].
  split; [apply P_app; assumption | exact Rb].
Qed.

Lemma holds_need (units n : nat) (a : emit) :
  holds P R a -> holds P R (need units n a).
Proof.
  intros H. destruct (need_cases units n a) as [-> | ->]; [exact H | ].
  apply holds_fail. exact I.
Qed.

Lemma holds_buffered (buf : pystr) (a : emit) :
  P buf -> holds P R a -> holds P R (buffered buf a).
Proof.
  destruct a as [text [e | ]]; intros Hbuf [Ha Ra].
  - split; [exact P_nil | ]. intros e' [= <-]. apply Ra. reflexivity.
  - split; [apply P_app; assumption | discriminate].
Qed.

Lemma holds_literal (s : string) :
  In s ["null"; "true"; "false"; "[]"; "{}"; "["; "]"; "{"; "}";
        ","; ":"]%string -> holds P R (say (ustr s)).
Proof. intros H. apply holds_say, P_literal, H. Qed.

Lemma holds_intstr (limit : N) (z : Z) : holds P R (intstr limit z).
Proof.
  unfold intstr. destruct (digits_refused limit (int_digits z)).
  - apply holds_fail. exact I.
  - apply holds_say, P_int.
Qed.

Lemma holds_scalar (limit : N) (units : nat) (o : pyval) (a : emit) :
  scalar limit units o = Some a -> holds P R a.
Proof.
  destruct o as [ | [ | ] | z | f | s | l | l | d | t]; cbn [scalar];
    intros [= <-];
    try (apply holds_literal; cbn; tauto);
    apply holds_need;
    [ apply holds_intstr
    | apply holds_say, P_float
    | apply holds_say, P_string ].
Qed.

Lemma holds_element (limit : N) (units : nat) (enter : pyval -> emit)
    (buf : string) (value : pyval) :
  In buf ["["; ","]%string -> holds P R (enter value) ->
  holds P R (element limit units enter (ustr buf) value).
Proof.
  intros Hbuf Hv.
  assert (Pbuf : P (ustr buf))
    by (apply P_literal; cbn in Hbuf |- *; intuition).
  unfold element. destruct (scalar limit units value) as [a | ] eqn:Hs.
  - apply holds_buffered; [exact Pbuf | ]. apply (holds_scalar _ _ _ _ Hs).
  - apply holds_then; [apply holds_say, Pbuf | exact Hv].
Qed.

Lemma holds_elements (limit : N) (units : nat) (enter : pyval -> emit)
    (lst : list pyval) :
  Forall (fun value => holds P R (enter value)) lst ->
  holds P R (elements limit units enter lst).
Proof.
  induction 1 as [ | value lst Hv _ IH]; cbn [elements];
    [apply holds_say, P_nil | ].
  apply holds_then; [ | exact IH].
  apply holds_element; [cbn; tauto | exact Hv].
Qed.

Lemma holds_member (limit : N) (units : nat) (enter : pyval -> emit)
    (first : bool) (kv : pykey * pyval) :
  holds P R (enter (snd kv)) -> holds P R (member limit units enter first kv).
Proof.
  intros Hv. unfold member.
  destruct (key_text limit units (fst kv)) as [text | e] eqn:Hkey.
  - repeat apply holds_then.
    + destruct first; [apply holds_say, P_nil | apply holds_literal].
      cbn; tauto.
    + apply holds_say, P_string.
    + apply holds_literal. cbn; tauto.
    + destruct (scalar limit units (snd kv)) as [a | ] eqn:Hs;
        [apply (holds_scalar _ _ _ _ Hs) | exact Hv].
  - apply holds_fail. destruct (fst kv) as [s | z | f | b | | t];
      cbn [key_text] in Hkey; try discriminate.
    + destruct (1 <=? units)%nat; [ | injection Hkey as <-; exact I].
      unfold intstr in Hkey.
      destruct (digits_refused limit (int_digits z));
        [injection Hkey as <-; exact I | discriminate].
    + destruct (2 <=? units)%nat; [discriminate | ].
      injection Hkey as <-; exact I.
    + destruct b; discriminate.
    + destruct (1 <=? units)%nat; injection Hkey as <-; exact I.
Qed.

Lemma holds_members (limit : N) (units : nat) (enter : pyval -> emit)
    (dct : list (pykey * pyval)) :
  Forall (fun kv => holds P R (enter (snd kv))) dct ->
  holds P R (members limit units enter dct).
Proof.
  induction 1 as [ | kv dct Hv _ IH]; cbn [members];
    [apply holds_say, P_nil | ].
  apply holds_then; [ | exact IH]. apply holds_member, Hv.
Qed.

Lemma holds_list (limit : N) (units : nat) (enter : pyval -> emit)
    (lst : list pyval) :
  Forall (fun value => holds P R (enter value)) lst ->
  holds P R (iterencode_list limit units enter lst).
Proof.
  intros H. destruct H as [ | value lst Hv Hl];
    [apply holds_literal; cbn; tauto | ].
  unfold iterencode_list. apply holds_need. repeat apply holds_then.
  - apply holds_element; [cbn; tauto | exact Hv].
  - apply holds_elements, Hl.
  - apply holds_literal. cbn; tauto.
Qed.

Lemma holds_dict (limit : N) (units : nat) (enter : pyval -> emit)
    (dct : list (pykey * pyval)) :
  Forall (fun kv => holds P R (enter (snd kv))) dct ->
  holds P R (iterencode_dict limit units enter dct).
Proof.
  intros H. destruct H as [ | kv dct Hv Hd];
    [apply holds_literal; cbn; tauto | ].
  unfold iterencode_dict. apply holds_need. repeat apply holds_then.
  - apply holds_literal. cbn; tauto.
  - apply holds_member, Hv.
  - apply holds_members, Hd.
  - apply holds_literal. cbn; tauto.
Qed.

Lemma holds_enter (limit : N) (o : pyval) :
  forall units, holds P R (enter limit units o).
Proof.
  induction o as [ | b | z | f | s | l IH | l IH | d IH | t] using pyval_ind;
    intros [ | inside];
    try (rewrite enter_O; apply holds_fail; exact I);
    cbn [enter]; try (apply holds_say, P_nil).
  - apply holds_list. revert IH. apply List.Forall_impl. auto.
  - apply holds_list. revert IH. apply List.Forall_impl. auto.
  - apply holds_dict. revert IH. apply List.Forall_impl. auto.
  - apply holds_need, holds_fail. exact I.
Qed.

(** Whatever holds P R of the literals, the strings and the numbers, and is
    kept by concatenation, holds P R of every text that the encoder yields,
    complete or not; and the encoder raises no other exception than
    [TypeError], [ValueError] and [RecursionError]. *)
Lemma iterencode_holds (limit : N) (units : nat) (o : pyval) :
  holds P R (iterencode limit units o).
Proof.
  unfold iterencode. apply holds_need.
  destruct (scalar limit units o) as [a | ] eqn:Hs;
    [apply (holds_scalar _ _ _ _ Hs) | ].
  destruct o; try apply holds_enter.
  apply holds_need, holds_fail. exact I.
Qed.
End EncoderProperty.

(** The encoder raises no [OSError]. *)
Lemma iterencode_error (limit : N) (units : nat) (o : pyval) (e : exn) :
  snd (Json.iterencode limit units o) = Some e -> encoder_error e.
Proof.
  apply (iterencode_holds (fun _ => True) encoder_error); auto.
Qed.

(** ** The characters of the numbers *)

Lemma uint_chars_digits (d : Decimal.uint) :
  Forall (fun c => 48 <= c <= 57) (uint_chars d).
Proof. induction d; cbn [uint_chars]; constructor; auto; lia. Qed.

Lemma uint_chars_signs (d : Decimal.uint) : Forall sign (uint_chars d).
Proof.
  eapply List.Forall_impl; [ | apply uint_chars_digits].
  unfold sign. cbn. intros; lia.
Qed.

Lemma signed_chars_signs (i : Decimal.int) : Forall sign (signed_chars i).
Proof.
  destruct i as [d | d]; cbn [signed_chars];
    [ | constructor; [unfold sign; lia | ]]; apply uint_chars_signs.
Qed.

Lemma int_repr_signs (z : Z) : Forall sign (int_repr z).
Proof. apply (signed_chars_signs (Z.to_int z)). Qed.

Lemma exponent_chars_signs (e : Decimal.int) : Forall sign (exponent_chars e).
Proof.
  assert (Hpad : forall d,
    Forall sign match uint_chars d with
                | [] => [48; 48]
                | [c] => [48; c]
                | c :: (_ :: _) as cs => c :: cs
                end).
  { intros d. pose proof (uint_chars_signs d) as H.
    destruct (uint_chars d) as [ | c [ | c2 cs]].
    - repeat constructor; unfold sign; lia.
    - constructor; [unfold sign; lia | exact H].
    - inversion H; subst. constructor; assumption. }
  destruct e as [d | d]; cbn [exponent_chars];
    (constructor; [unfold sign; lia | ]);
    specialize (Hpad d); destruct (uint_chars d) as [ | c [ | c2 cs]];
    exact Hpad.
Qed.

Lemma float_repr_signs (numeral : Decimal.decimal) :
  Forall sign (float_repr numeral).
Proof.
  destruct numeral as [i f | i f e]; cbn [float_repr];
    repeat first [ apply List.Forall_app; split
                 | apply signed_chars_signs
                 | apply uint_chars_signs
                 | apply exponent_chars_signs ];
    try (repeat constructor; unfold sign; lia).
  destruct f; repeat first [ apply List.Forall_app; split
                           | apply (uint_chars_signs (Decimal.D0 _))
                           | apply (uint_chars_signs (Decimal.D1 _))
                           | apply (uint_chars_signs (Decimal.D2 _))
                           | apply (uint_chars_signs (Decimal.D3 _))
                           | apply (uint_chars_signs (Decimal.D4 _))
                           | apply (uint_chars_signs (Decimal.D5 _))
                           | apply (uint_chars_signs (Decimal.D6 _))
                           | apply (uint_chars_signs (Decimal.D7 _))
                           | apply (uint_chars_signs (Decimal.D8 _))
                           | apply (uint_chars_signs (Decimal.D9 _)) ];
    repeat constructor; unfold sign; lia.
Qed.

Lemma number_signs (f : pyfloat) : Forall sign (Canonical.number f).
Proof.
  destruct f as [ | [ | ] | numeral]; cbn [Canonical.number];
    try apply float_repr_signs;
    cbn; repeat constructor; unfold sign; lia.
Qed.

Lemma floatstr_number (f : pyfloat) : Json.floatstr f = Canonical.number f.
Proof. destruct f as [ | [ | ] | numeral]; reflexivity. Qed.

Lemma signs_valid (text : pystr) : Forall sign text -> valid_str text.
Proof. apply List.Forall_impl. unfold sign. intros; lia. Qed.

(** ** The escapes of the encoder are the escapes of the canonical form *)

Ltac lia_div := zify; Z.to_euclidean_division_equations; lia.

Section Refinement.
Import Json.

Lemma land_shifted (a l : N) : l < 1024 -> N.land (N.shiftl a 10) l = 0.
Proof.
  intros Hl. apply N.bits_inj. intros i.
  rewrite N.land_spec, N.bits_0.
  destruct (N.ltb_spec i 10).
  - rewrite N.shiftl_spec_low by assumption. reflexivity.
  - rewrite <- (N.mod_small l (2 ^ 10)) by exact Hl.
    rewrite N.mod_pow2_bits_high by assumption. apply andb_false_r.
Qed.

Lemma lor_shifted (a l : N) :
  l < 1024 -> N.lor (N.shiftl a 10) l = a * 1024 + l.
Proof.
  intros Hl. rewrite <- N.lxor_lor, <- N.add_nocarry_lxor
    by (apply land_shifted; exact Hl).
  rewrite N.shiftl_mul_pow2. reflexivity.
Qed.

(** The two surrogates of a character above the basic plane. *)
Lemma surrogate_values (c : N) :
  65536 <= c < 1114112 ->
  N.lor 55296 (N.land (N.shiftr (c - 65536) 10) 1023)
  = 55296 + (c - 65536) / 1024
  /\ N.lor 56320 (N.land (c - 65536) 1023) = 56320 + (c - 65536) mod 1024.
Proof.
  intros Hc. split.
  - change 1023 with (N.ones 10). rewrite N.land_ones.
    rewrite N.shiftr_div_pow2. change (2 ^ 10) with 1024.
    change 55296 with (N.shiftl 54 10) at 1.
    rewrite lor_shifted by (apply N.mod_lt; discriminate).
    rewrite N.mod_small; [reflexivity | ]. lia_div.
  - change 1023 with (N.ones 10). rewrite N.land_ones.
    change (2 ^ 10) with 1024. change 56320 with (N.shiftl 55 10) at 1.
    rewrite lor_shifted by (apply N.mod_lt; discriminate). reflexivity.
Qed.

Lemma hexdigit_hexadecimal (d : N) :
  d < 16 -> hexdigit d = Canonical.hexadecimal d.
Proof.
  intros Hd. rewrite <- (N2Nat.id d).
  assert (Hn : (N.to_nat d < 16)%nat) by lia.
  revert Hn. generalize (N.to_nat d). intros n Hn.
  do 16 (destruct n as [ | n]; [reflexivity | ]). lia.
Qed.

Lemma hex4_u_escape (n : N) : [92; 117] ++ hex4 n = Canonical.u_escape n.
Proof.
  unfold hex4, Canonical.u_escape.
  rewrite !hexdigit_hexadecimal by (apply N.mod_lt; discriminate).
  rewrite !N.shiftr_div_pow2. reflexivity.
Qed.

Lemma escape_char_character (c : N) :
  c < 1114112 -> escape_char c = Canonical.character c.
Proof.
  intros Hc. unfold escape_char, Canonical.character.
  cbn [List.find Canonical.two_character_escapes fst].
  repeat match goal with
         | |- context [if ?x =? ?y then _ else _] =>
             destruct (N.eqb_spec x y); try lia; subst; try reflexivity
         end.
  destruct (N.leb_spec 32 c), (N.leb_spec c 126), (N.ltb_spec c 127);
    try lia; cbn [andb]; try reflexivity;
    (destruct (N.ltb_spec c 65536); [apply hex4_u_escape | ]);
    try lia; cbv zeta;
    (destruct (surrogate_values c) as [-> ->]; [lia | ]);
    rewrite <- !hex4_u_escape, <- !List.app_assoc; reflexivity.
Qed.

Lemma quoted_encode (s : pystr) :
  valid_str s -> encode_basestring_ascii s = Canonical.quoted s.
Proof.
  intros Hs. unfold encode_basestring_ascii, Canonical.quoted. do 2 f_equal.
  induction Hs as [ | c s Hc _ IH]; [reflexivity | ].
  cbn [flat_map]. rewrite IH, (escape_char_character _ Hc). reflexivity.
Qed.

Lemma python_chars (s : pystr) :
  forallb (fun c => c <? 1114112) s = true <-> valid_str s.
Proof.
  unfold valid_str. rewrite forallb_forall, List.Forall_forall.
  split; intros H c Hc; specialize (H c Hc); apply N.ltb_lt; exact H.
Qed.

(** The text of a key of a serializable value whose strings are Python
    strings is a Python string. *)
Lemma key_name_valid (key : pykey) :
  match key with
  | KStr s => forallb (fun c => c <? 1114112) s
  | _ => true
  end = true ->
  valid_str (Canonical.key_name key).
Proof.
  destruct key as [s | z | f | [ | ] | | t]; cbn [Canonical.key_name];
    intros H.
  - apply python_chars, H.
  - apply signs_valid, int_repr_signs.
  - apply signs_valid, number_signs.
  - cbn. repeat constructor.
  - cbn. repeat constructor.
  - cbn. repeat constructor.
  - constructor.
Qed.

Lemma join_cons (sep part : pystr) (parts : list pystr) :
  Canonical.join sep (part :: parts)
  = part ++ flat_map (fun p => sep ++ p) parts.
Proof.
  revert part. induction parts as [ | p parts IH]; intros part.
  - cbn. rewrite List.app_nil_r. reflexivity.
  - change (Canonical.join sep (part :: p :: parts))
      with (part ++ sep ++ Canonical.join sep (p :: parts)).
    rewrite IH. cbn [flat_map]. rewrite <- List.app_assoc. reflexivity.
Qed.

Lemma flat_map_map {A B C} (f : A -> B) (g : B -> list C) (l : list A) :
  flat_map g (List.map f l) = flat_map (fun x => g (f x)) l.
Proof. induction l; cbn; congruence. Qed.

Lemma flat_map_Forall_ext {A B} (f g : A -> list B) (l : list A) :
  Forall (fun x => f x = g x) l -> flat_map f l = flat_map g l.
Proof. induction 1; cbn; congruence. Qed.

(** *** The encoder yields the canonical text *)

Lemma emission_complete (limit : N) (o : pyval) :
  forall units,
    serializable o = true -> python_strings o = true ->
    ints_within limit o = true -> (units_needed o <= units)%nat ->
    emission limit units o = say (Canonical.any o).
Proof.
  induction o as [ | b | z | f | s | l IH | l IH | d IH | t] using pyval_ind;
    intros units Hser Hstr Hints Hunits; unfold emission; cbn [scalar];
    cbn [units_needed] in Hunits.
  - reflexivity.
  - destruct b; reflexivity.
  - rewrite need_enough by exact Hunits. unfold intstr.
    cbn [ints_within] in Hints. apply negb_true_iff in Hints.
    rewrite Hints. reflexivity.
  - rewrite need_enough by exact Hunits. rewrite floatstr_number. reflexivity.
  - rewrite need_enough by exact Hunits.
    rewrite quoted_encode by (apply python_chars, Hstr). reflexivity.
  - destruct units as [ | inside]; [lia | ]. cbn [enter].
    destruct l as [ | value lst]; [reflexivity | ].
    apply le_S_n, units_of_list in Hunits. destruct Hunits as [H1 Hunits].
    unfold iterencode_list. rewrite need_enough by exact H1.
    cbn [serializable python_strings ints_within] in Hser, Hstr, Hints.
    rewrite forallb_forall in Hser, Hstr, Hints.
    rewrite List.Forall_forall in IH, Hunits.
    assert (Hall : Forall (fun x => emission limit inside x
                                    = say (Canonical.any x)) (value :: lst))
      by (apply List.Forall_forall; intros x Hx; apply IH; auto).
    inversion Hall as [ | ? ? Hv Hl]; subst.
    rewrite (element_complete _ _ _ _ _ Hv).
    rewrite (elements_complete _ _ _ Canonical.any Hl).
    cbn [Canonical.any List.map]. unfold Canonical.array.
    rewrite join_cons, flat_map_map. unfold say, then_. cbn [fst snd].
    rewrite <- !List.app_assoc. reflexivity.
  - destruct units as [ | inside]; [lia | ]. cbn [enter].
    destruct l as [ | value lst]; [reflexivity | ].
    apply le_S_n, units_of_list in Hunits. destruct Hunits as [H1 Hunits].
    unfold iterencode_list. rewrite need_enough by exact H1.
    cbn [serializable python_strings ints_within] in Hser, Hstr, Hints.
    rewrite forallb_forall in Hser, Hstr, Hints.
    rewrite List.Forall_forall in IH, Hunits.
    assert (Hall : Forall (fun x => emission limit inside x
                                    = say (Canonical.any x)) (value :: lst))
      by (apply List.Forall_forall; intros x Hx; apply IH; auto).
    inversion Hall as [ | ? ? Hv Hl]; subst.
    rewrite (element_complete _ _ _ _ _ Hv).
    rewrite (elements_complete _ _ _ Canonical.any Hl).
    cbn [Canonical.any List.map]. unfold Canonical.array.
    rewrite join_cons, flat_map_map. unfold say, then_. cbn [fst snd].
    rewrite <- !List.app_assoc. reflexivity.
  - destruct units as [ | inside]; [lia | ]. cbn [enter].
    destruct d as [ | kv dct]; [reflexivity | ].
    apply le_S_n, units_of_dict in Hunits. destruct Hunits as [H1 Hunits].
    unfold iterencode_dict. rewrite need_enough by exact H1.
    cbn [serializable python_strings ints_within] in Hser, Hstr, Hints.
    rewrite forallb_forall in Hser, Hstr, Hints.
    rewrite List.Forall_forall in IH, Hunits.
    assert (Hall : Forall
              (fun x =>
                 (key_text limit inside (fst x)
                  = Return (Canonical.key_name (fst x))
                  /\ emission limit inside (snd x)
                     = say (Canonical.any (snd x)))
                 /\ valid_str (Canonical.key_name (fst x)))
              (kv :: dct)).
    { apply List.Forall_forall. intros x Hx.
      specialize (Hser x Hx). specialize (Hstr x Hx).
      specialize (Hints x Hx).
      apply andb_true_iff in Hser, Hstr, Hints.
      destruct Hser as [Hks Hvs], Hstr as [Hkp Hvp], Hints as [Hki Hvi].
      destruct (Hunits x Hx) as [Hku Hvu].
      split; [split | ].
      - rewrite key_text_within;
          [ | destruct (fst x); try exact I; apply negb_true_iff, Hki
            | exact Hku ].
        destruct (fst x); try reflexivity. discriminate.
      - apply IH; assumption.
      - apply key_name_valid, Hkp. }
    inversion Hall as [ | ? ? [Hv Hkv] Hd]; subst.
    rewrite (member_complete _ _ true _ _ (proj1 Hv) (proj2 Hv)).
    rewrite (members_complete _ _ _ Canonical.any)
      by (revert Hd; apply List.Forall_impl; tauto).
    cbn [Canonical.any List.map]. rewrite join_cons, flat_map_map.
    rewrite (quoted_encode _ Hkv).
    rewrite (flat_map_Forall_ext
               (fun kv0 => ustr "," ++ encode_basestring_ascii
                                         (Canonical.key_name (fst kv0))
                           ++ ustr ":" ++ Canonical.any (snd kv0))
               (fun x => ustr "," ++ Canonical.quoted
                                       (Canonical.key_name (fst x))
                         ++ ustr ":" ++ Canonical.any (snd x)))
      by (revert Hd; apply List.Forall_impl; intros x [_ Hx];
          rewrite (quoted_encode _ Hx); reflexivity).
    unfold say, then_. cbn [fst snd].
    rewrite <- !List.app_assoc. reflexivity.
  - discriminate.
Qed.

(** On a serializable value within the limits, whose strings are Python
    strings, the encoder yields the canonical text and completes. *)
Lemma iterencode_complete (limit : N) (units : nat) (o : pyval) :
  serializable o = true -> python_strings o = true ->
  ints_within limit o = true -> (units_needed o <= units)%nat ->
  iterencode limit units o = (Canonical.any o, None).
Proof.
  intros Hser Hstr Hints Hunits. pose proof (units_needed_pos o).
  rewrite iterencode_emission by (lia || (destruct o; discriminate || exact I)).
  apply emission_complete; assumption.
Qed.
End Refinement.

(** ** The canonical text of the dictionaries of [to_dict] *)

Section Entities.

Lemma any_object (dct : list (pykey * pyval))
    (members : list (string * pystr)) :
  Forall2 (fun kv m => fst kv = KStr (ustr (fst m))
                       /\ Canonical.any (snd kv) = snd m)
          dct members ->
  Canonical.any (PyDict dct) = Canonical.object members.
Proof.
  intros H. cbn [Canonical.any]. unfold Canonical.object. do 3 f_equal.
  induction H as [ | kv m dct members [Hk Hv] _ IH]; [reflexivity | ].
  cbn [List.map]. rewrite IH, Hk, Hv. reflexivity.
Qed.

Lemma any_list {A} (to_dict : A -> pyval) (text : A -> pystr) (l : list A) :
  (forall x, Canonical.any (to_dict x) = text x) ->
  Canonical.any (PyList (List.map to_dict l))
  = Canonical.array (List.map text l).
Proof.
  intros H. cbn [Canonical.any]. rewrite List.map_map.
  f_equal. apply List.map_ext. exact H.
Qed.

Lemma any_addon (a : AddonPlugin.t) :
  Canonical.any (AddonPlugin.to_dict a) = Canonical.addon a.
Proof. reflexivity. Qed.

Lemma any_identification (l : LicenseId.t) :
  Canonical.any (LicenseId.to_dict l) = Canonical.identification l.
Proof.
  apply any_object. repeat constructor. apply any_list, any_addon.
Qed.

Lemma any_payload (p : LicensePayload.t) :
  Canonical.any (LicensePayload.to_dict p) = Canonical.payload p.
Proof.
  apply any_object. repeat constructor. apply any_list, any_identification.
Qed.

(** The canonical form of a license is the text of its dictionary. *)
Lemma any_license (l : License.t) :
  Canonical.any (License.to_dict l) = Canonical.license l.
Proof.
  apply any_object. repeat constructor. apply any_payload.
Qed.
End Entities.

(** ** What holds of a dictionary of [to_dict] when it holds of the fields *)

Lemma forallb_of_flat_map {A B} (p : B -> bool) (f : A -> list B)
    (l : list A) :
  forallb p (flat_map f l) = forallb (fun a => forallb p (f a)) l.
Proof.
  induction l as [ | a l IH]; [reflexivity | ].
  cbn [flat_map forallb]. rewrite forallb_app, IH. reflexivity.
Qed.

Lemma forallb_of_map {A B} (p : B -> bool) (f : A -> B) (l : list A) :
  forallb p (List.map f l) = forallb (fun a => p (f a)) l.
Proof.
  induction l as [ | a l IH]; [reflexivity | ].
  cbn [List.map forallb]. rewrite IH. reflexivity.
Qed.

Lemma forallb_weaken {A} (p q : A -> bool) (l : list A) :
  (forall a, p a = true -> q a = true) ->
  forallb p l = true -> forallb q l = true.
Proof.
  intros Hpq H. rewrite forallb_forall in *. auto.
Qed.

Lemma ustr_ascii (s : string) : Forall (fun c => c < 256) (ustr s).
Proof.
  unfold ustr. induction s as [ | a s IH]; cbn; constructor;
    [apply N_ascii_bounded | exact IH].
Qed.

Section Fields.
Variables (q : pyval -> bool) (qk : pykey -> bool).
Variables (ps : pystr -> bool) (pz : Z -> bool).
Hypothesis q_str : forall s, q (PyStr s) = ps s.
Hypothesis q_int : forall z, q (PyInt z) = pz z.
Hypothesis q_list : forall l, q (PyList l) = forallb q l.
Hypothesis q_dict :
  forall d, q (PyDict d) = forallb (fun kv => qk (fst kv) && q (snd kv)) d.
Hypothesis qk_name : forall s : string, qk (KStr (ustr s)) = true.

Lemma addon_fields (a : AddonPlugin.t) :
  forallb ps (addon_strings a) = true -> q (AddonPlugin.to_dict a) = true.
Proof.
  unfold addon_strings, AddonPlugin.to_dict. rewrite q_dict.
  cbn [forallb fst snd]. rewrite !qk_name, !q_str. cbn [andb].
  intros H. rewrite !andb_true_iff in H.
  destruct H as (H1 & H2 & H3 & H4 & H5 & _).
  rewrite H1, H2, H3, H4, H5. reflexivity.
Qed.

Lemma identification_fields (l : LicenseId.t) :
  forallb ps (identification_strings l) = true ->
  pz (LicenseId.seats l) = true ->
  q (PyList (LicenseId.features l)) = true ->
  q (LicenseId.to_dict l) = true.
Proof.
  unfold identification_strings. rewrite forallb_app, forallb_of_flat_map.
  cbn [forallb]. intros H Hseats Hfeatures. rewrite !andb_true_iff in H.
  destruct H as ((H1 & H2 & H3 & H4 & H5 & H6 & H7 & H8 & H9 & _) & Haddons).
  apply (forallb_weaken _ _ _ addon_fields) in Haddons.
  unfold LicenseId.to_dict. rewrite q_dict. cbn [forallb fst snd].
  rewrite !qk_name, !q_str, q_int, q_list, forallb_of_map. cbn [andb].
  rewrite H1, H2, H3, H4, H5, H6, H7, H8, H9, Hseats, Haddons, Hfeatures.
  reflexivity.
Qed.

Lemma license_fields (license : License.t) :
  forallb ps
          (License.signature license
           :: LicensePayload.name (License.payload license)
           :: LicensePayload.email (License.payload license)
           :: flat_map identification_strings
                       (LicensePayload.licenses (License.payload license)))
  = true ->
  forallb (fun l => pz (LicenseId.seats l))
          (LicensePayload.licenses (License.payload license)) = true ->
  q (PyDict (str_items (License.header license))) = true ->
  forallb (fun l => q (PyList (LicenseId.features l)))
          (LicensePayload.licenses (License.payload license)) = true ->
  q (License.to_dict license) = true.
Proof.
  cbn [forallb]. rewrite forallb_of_flat_map.
  intros H Hseats Hheader Hfeatures.
  rewrite !andb_true_iff in H. destruct H as (Hsig & Hname & Hemail & Hids).
  assert (Hl : forallb (fun l => q (LicenseId.to_dict l))
                       (LicensePayload.licenses (License.payload license))
               = true).
  { rewrite forallb_forall in *. intros l Hl.
    apply identification_fields; auto. }
  unfold License.to_dict, LicensePayload.to_dict.
  rewrite q_dict. cbn [forallb fst snd].
  rewrite Hheader, !qk_name, q_dict, !q_str. cbn [forallb fst snd andb].
  rewrite !qk_name, !q_str, q_list, forallb_of_map. cbn [andb].
  rewrite Hsig, Hname, Hemail, Hl. reflexivity.
Qed.
End Fields.

Lemma Forall_forallb {A} (P : A -> Prop) (p : A -> bool) (l : list A) :
  (forall a, P a -> p a = true) -> Forall P l -> forallb p l = true.
Proof.
  intros Hp H. apply forallb_forall. rewrite List.Forall_forall in H. auto.
Qed.

(** The dictionary of a well-formed license is serializable, and its
    strings are Python strings. *)
Lemma well_formed_json (license : License.t) :
  well_formed license -> json_value (License.to_dict license).
Proof.
  intros (Hstrings & [Hhs Hhp] & Hfeatures). split.
  - apply (license_fields Json.serializable Json.key_serializable
             (fun _ => true) (fun _ => true)); try reflexivity.
    + apply forallb_forall. reflexivity.
    + apply forallb_forall. reflexivity.
    + exact Hhs.
    + revert Hfeatures. apply Forall_forallb. intros l [H _]. exact H.
  - apply (license_fields python_strings
             (fun k => match k with
                       | KStr s => forallb (fun c => c <? 1114112) s
                       | _ => true
                       end)
             (forallb (fun c => c <? 1114112)) (fun _ => true));
      try reflexivity.
    + intros s. apply python_chars.
      eapply List.Forall_impl; [ | apply ustr_ascii]. cbn. intros; lia.
    + revert Hstrings. apply Forall_forallb. intros s. apply python_chars.
    + apply forallb_forall. reflexivity.
    + exact Hhp.
    + revert Hfeatures. apply Forall_forallb. intros l [_ H]. exact H.
Qed.

(** The serialization of a well-formed license within the limits
    completes with the canonical form. *)
Lemma license_text (limit : N) (units : nat) (license : License.t) :
  well_formed license ->
  ints_within limit (License.to_dict license) = true ->
  (units_needed (License.to_dict license) <= units)%nat ->
  Json.iterencode limit units (License.to_dict license)
  = (Canonical.license license, None).
Proof.
  intros Hwf Hints Hunits. destruct (well_formed_json _ Hwf) as [Hser Hstr].
  rewrite <- any_license. apply iterencode_complete; assumption.
Qed.

(** ** [FileWriter.write_json] *)

Lemma path_error_raised (filename : pystr) (e : exn) :
  path_error filename = Some e -> forall msg, e <> OSError msg.
Proof.
  unfold path_error. destruct (negb (forallb fs_encodable filename)).
  - intros [= <-]. discriminate.
  - destruct (existsb (N.eqb 0) filename); [ | discriminate].
    intros [= <-]. discriminate.
Qed.

(** What [write_json] does, whatever the data, the name and the world:
    a name that is no path raises; a name that cannot be opened gives
    [False] and the diagnostic; otherwise the file holds what the encoder
    yields, and the call returns [True] or raises what has stopped the
    encoder, unless the device has no room for the text, which gives
    [False] and the diagnostic. *)
Lemma write_json_spec (data : pyval) (filename : pystr) (w : World) :
  FileWriter.write_json data filename w
  = match path_error filename with
    | Some e => (Raise e, w)
    | None =>
        match unwritable w filename with
        | Some msg => (Return false, diagnosed filename msg w)
        | None =>
            let file := inode w filename in
            let run := Json.iterencode (int_max_str_digits w)
                                       (recursion_units w) data in
            if fits w file (fst run)
            then (outcome (snd run), written file (fst run) w)
            else (Return false,
                  diagnosed filename (no_room w file)
                            (written file (kept w file (fst run)) w))
        end
    end.
Proof.
  unfold FileWriter.write_json, try_except_IOError, with_open_w, bind, open_w.
  destruct (path_error filename) as [e | ] eqn:Hpath.
  { pose proof (path_error_raised _ _ Hpath) as He.
    destruct e; try reflexivity. destruct (He msg eq_refl). }
  destruct (unwritable w filename) as [msg | ] eqn:Hopen; [reflexivity | ].
  cbv zeta. unfold Json.dump, bind, file_write, file_close, raise, ret.
  cbn [int_max_str_digits recursion_units set_disk disk capacity].
  pose proof (iterencode_error (int_max_str_digits w) (recursion_units w)
                data) as Herror.
  destruct (Json.iterencode (int_max_str_digits w) (recursion_units w) data)
    as [text stopped].
  cbn [fst snd] in *. unfold fits, kept, no_room.
  rewrite alter_insert_eq. cbn [app].
  assert (Hkeep : forall e, stopped = Some e ->
                  match e with OSError _ => False | _ => True end).
  { intros e He. specialize (Herror e He). destruct e; auto. }
  destruct stopped as [e | ]; cbn [set_disk capacity disk];
    rewrite lookup_insert_eq;
    (destruct (capacity w (inode w filename)) as [[n msg] | ];
     [ destruct (Nat.ltb_spec n (List.length text)),
                (Nat.leb_spec (List.length text) n); try lia | ]);
    unfold written, diagnosed, print_stderr, set_disk, set_stderr, outcome;
    cbn; rewrite ?insert_insert_eq; try reflexivity;
    specialize (Hkeep e eq_refl); destruct e; try reflexivity;
    contradiction.
Qed.

Lemma write_json_unwritable data filename w msg :
  path_error filename = None ->
  unwritable w filename = Some msg ->
  FileWriter.write_json data filename w
  = (Return false, diagnosed filename msg w).
Proof.
  intros Hpath Hopen. rewrite write_json_spec, Hpath, Hopen. reflexivity.
Qed.

Lemma write_json_opened data filename w :
  path_error filename = None ->
  unwritable w filename = None ->
  let run := Json.iterencode (int_max_str_digits w) (recursion_units w) data in
  fits w (inode w filename) (fst run) = true ->
  FileWriter.write_json data filename w
  = (outcome (snd run), written (inode w filename) (fst run) w).
Proof.
  intros Hpath Hopen run Hfits. rewrite write_json_spec, Hpath, Hopen.
  cbv zeta. fold run. rewrite Hfits. reflexivity.
Qed.

Lemma write_json_no_room data filename w :
  path_error filename = None ->
  unwritable w filename = None ->
  let run := Json.iterencode (int_max_str_digits w) (recursion_units w) data in
  fits w (inode w filename) (fst run) = false ->
  FileWriter.write_json data filename w
  = (Return false,
     diagnosed filename (no_room w (inode w filename))
               (written (inode w filename)
                        (kept w (inode w filename) (fst run)) w)).
Proof.
  intros Hpath Hopen run Hfits. rewrite write_json_spec, Hpath, Hopen.
  cbv zeta. fold run. rewrite Hfits. reflexivity.
Qed.

(** ** Compact and printable texts *)

Section CompactText.
Import Json Compact.

Lemma run_app (st : state) (a b : pystr) :
  run st (a ++ b)
  = match run st a with Some st' => run st' b | None => None end.
Proof.
  revert st. induction a as [ | c a IH]; intros st; [reflexivity | ].
  cbn [app run]. destruct (step st c); [apply IH | reflexivity].
Qed.

Lemma hexdigit_inside (d : N) : step Inside (hexdigit d) = Some Inside.
Proof.
  unfold hexdigit, step.
  destruct (N.ltb_spec d 10);
    repeat match goal with
           | |- context [?x =? ?y] => destruct (N.eqb_spec x y); try lia
           end; reflexivity.
Qed.

Lemma hex4_inside (n : N) : run Inside (hex4 n) = Some Inside.
Proof. unfold hex4. cbn [run]. rewrite !hexdigit_inside. reflexivity. Qed.

Lemma escape_char_inside (c : N) : run Inside (escape_char c) = Some Inside.
Proof.
  unfold escape_char.
  repeat match goal with
         | |- context [if ?x =? ?y then _ else _] =>
             destruct (N.eqb_spec x y); [reflexivity | ]
         end.
  destruct ((32 <=? c) && (c <=? 126)).
  - cbn. destruct (N.eqb_spec c 92); [lia | ].
    destruct (N.eqb_spec c 34); [lia | reflexivity].
  - assert (Hu : forall tail, run Inside ([92; 117] ++ tail)
                              = run Inside tail) by reflexivity.
    destruct (c <? 65536); cbv zeta.
    + rewrite Hu. apply hex4_inside.
    + rewrite Hu, run_app, hex4_inside, Hu. apply hex4_inside.
Qed.

Lemma escaped_inside (s : pystr) :
  run Inside (flat_map escape_char s) = Some Inside.
Proof.
  induction s as [ | c s IH]; [reflexivity | ].
  cbn [flat_map]. rewrite run_app, escape_char_inside. exact IH.
Qed.

Lemma string_balanced (s : pystr) :
  run Outside (encode_basestring_ascii s) = Some Outside.
Proof.
  unfold encode_basestring_ascii. cbn [app run step N.eqb Pos.eqb].
  rewrite run_app, escaped_inside. reflexivity.
Qed.

Lemma run_outside_signs (text : pystr) :
  Forall sign text -> run Outside text = Some Outside.
Proof.
  induction 1 as [ | c text [Hc Hq] _ IH]; [reflexivity | ].
  cbn [run step]. destruct (N.eqb_spec c 34); [contradiction | ].
  destruct (N.leb_spec c 32); [lia | exact IH].
Qed.

Lemma signs_printable (text : pystr) :
  Forall sign text -> Forall printable text.
Proof. apply List.Forall_impl. unfold sign, printable. intros; lia. Qed.

(** Every text that the encoder yields, complete or not, ends outside a
    string literal and has no space and no control character outside the
    literals. *)
Lemma iterencode_balanced (limit : N) (units : nat) (o : pyval) :
  run Outside (fst (iterencode limit units o)) = Some Outside.
Proof.
  apply (iterencode_holds (fun text => run Outside text = Some Outside)
                          (fun _ => True)).
  - reflexivity.
  - intros a b Ha Hb. rewrite run_app, Ha. exact Hb.
  - intros s Hs. cbn in Hs.
    repeat (destruct Hs as [<- | Hs]; [reflexivity | ]). contradiction.
  - apply string_balanced.
  - intros z. apply run_outside_signs, int_repr_signs.
  - intros f. rewrite floatstr_number. apply run_outside_signs, number_signs.
  - auto.
Qed.

Lemma hexdigit_printable (d : N) : d < 16 -> printable (hexdigit d).
Proof.
  unfold hexdigit, printable. destruct (N.ltb_spec d 10); lia.
Qed.

Lemma hex4_printable (n : N) : Forall printable (hex4 n).
Proof.
  unfold hex4. repeat constructor; apply hexdigit_printable;
    apply N.mod_lt; discriminate.
Qed.

Lemma escape_char_printable (c : N) : Forall printable (escape_char c).
Proof.
  unfold escape_char.
  repeat match goal with
         | |- context [if ?x =? ?y then _ else _] =>
             destruct (N.eqb_spec x y);
             [repeat constructor; unfold printable; lia | ]
         end.
  destruct (N.leb_spec 32 c), (N.leb_spec c 126); cbn [andb];
    try (repeat constructor; unfold printable; lia);
    destruct (c <? 65536); cbv zeta;
    repeat first [ apply List.Forall_app; split
                 | apply hex4_printable
                 | constructor; [unfold printable; lia | ]
                 | constructor ].
Qed.

Lemma string_printable (s : pystr) :
  Forall printable (encode_basestring_ascii s).
Proof.
  unfold encode_basestring_ascii.
  apply List.Forall_app. split; [repeat constructor; unfold printable; lia | ].
  apply List.Forall_app. split; [ | repeat constructor; unfold printable; lia].
  induction s as [ | c s IH]; cbn [flat_map]; [constructor | ].
  apply List.Forall_app. split; [apply escape_char_printable | exact IH].
Qed.

(** Every character that the encoder yields is a printable ASCII
    character. *)
Lemma iterencode_printable (limit : N) (units : nat) (o : pyval) :
  Forall printable (fst (iterencode limit units o)).
Proof.
  apply (iterencode_holds (Forall printable) (fun _ => True)).
  - constructor.
  - intros a b Ha Hb. apply List.Forall_app. split; assumption.
  - intros s Hs. cbn in Hs.
    repeat (destruct Hs as [<- | Hs];
            [cbn; repeat constructor; unfold printable; lia | ]).
    contradiction.
  - apply string_printable.
  - intros z. apply signs_printable, int_repr_signs.
  - intros f. rewrite floatstr_number. apply signs_printable, number_signs.
  - auto.
Qed.
End CompactText.

(** C4. Not every well-formed license is serialized.  The interpreter
    refuses to print an integer of more digits than its limit, 4300 by
    default, so a license for [10 ^ 4300] seats makes the encoder raise
    [ValueError] after the file has taken the text before the number; and
    a header that nests a thousand lists exceeds the recursion limit,
    1000 by default, so the encoder raises [RecursionError]. *)
Lemma serialization_refuses :
  (let license := license_for (10 ^ 4300) in
   well_formed license
   /\ Forall (fun l => (1 <= LicenseId.seats l)%Z)
             (LicensePayload.licenses (License.payload license))
   /\ exists text msg,
        Json.iterencode (int_max_str_digits world_2024)
                        (recursion_units world_2024)
                        (License.to_dict license)
        = (text, Some (ValueError msg))
        /\ fst (FileWriter.write_json (License.to_dict license)
                                      (ustr "idapro.hexlic") world_2024)
           = Raise (ValueError msg))
  /\ well_formed license_nested
  /\ fst (FileWriter.write_json (License.to_dict license_nested)
                                (ustr "idapro.hexlic") world_2024)
     = Raise RecursionError.
Proof.
  split; [ | split].
  - intros license. split; [ | split].
    + split; [ | split]; cbn; repeat constructor.
    + repeat constructor. vm_compute. discriminate.
    + destruct (Json.iterencode (int_max_str_digits world_2024)
                  (recursion_units world_2024) (License.to_dict license))
        as [text stopped] eqn:Hrun.
      assert (Hstopped : exists msg, stopped = Some (ValueError msg)).
      { apply (f_equal snd) in Hrun. cbn [snd] in Hrun. rewrite <- Hrun.
        eexists. vm_compute. reflexivity. }
      destruct Hstopped as [msg ->]. exists text, msg.
      split; [reflexivity | ].
      rewrite write_json_opened;
        [ | reflexivity | reflexivity | unfold fits; reflexivity].
      cbv zeta. rewrite Hrun. reflexivity.
  - split; [ | split].
    + cbn. repeat constructor.
    + split; vm_compute; reflexivity.
    + constructor.
  - rewrite write_json_opened;
      [ | reflexivity | reflexivity | unfold fits; reflexivity].
    cbv zeta. cbn [fst].
    replace (snd (Json.iterencode (int_max_str_digits world_2024)
                    (recursion_units world_2024)
                    (License.to_dict license_nested)))
      with (Some RecursionError) by (vm_compute; reflexivity).
    reflexivity.
Qed.

(** C4, amended. The serialization of a well-formed license within the
    limits of the interpreter (no integer of more digits than the
    interpreter prints, no deeper nesting than the recursion limit
    allows) does not fail, and its text is the canonical form: every
    entity is the object of its fields in the declared order.  The text
    is compact (no space and no control character outside the string
    literals), all its characters are printable ASCII, so it has no
    newline, and its last character is the closing brace; [write_json],
    given a name that can be opened on a device with room for the text,
    returns [True] and leaves exactly this text in the file. *)
Theorem serialization_canonical (license : License.t) (w : World) :
  well_formed license ->
  within_limits w (License.to_dict license) ->
  Json.iterencode (int_max_str_digits w) (recursion_units w)
                  (License.to_dict license)
  = (Canonical.license license, None)
  /\ Compact.compact (Canonical.license license) = true
  /\ Forall printable (Canonical.license license)
  /\ ~ In 10 (Canonical.license license)
  /\ List.last (Canonical.license license) 0 = 125
  /\ forall filename,
       path_error filename = None ->
       unwritable w filename = None ->
       fits w (inode w filename) (Canonical.license license) = true ->
       FileWriter.write_json (License.to_dict license) filename w
       = (Return true,
          written (inode w filename) (Canonical.license license) w).
Proof.
  intros Hwf [Hints Hunits].
  pose proof (license_text _ _ _ Hwf Hints Hunits) as Htext.
  split; [exact Htext | ].
  pose proof (iterencode_balanced (int_max_str_digits w) (recursion_units w)
                (License.to_dict license)) as Hrun.
  pose proof (iterencode_printable (int_max_str_digits w) (recursion_units w)
                (License.to_dict license)) as Hprint.
  rewrite Htext in Hrun, Hprint. cbn [fst] in Hrun, Hprint.
  split; [unfold Compact.compact; rewrite Hrun; reflexivity | ].
  split; [exact Hprint | ].
  split.
  { intros Hin. rewrite List.Forall_forall in Hprint.
    apply Hprint in Hin. unfold printable in Hin. lia. }
  split.
  { unfold Canonical.license, Canonical.object.
    rewrite List.app_assoc. apply last_last. }
  intros filename Hpath Hopen Hfits.
  rewrite write_json_opened; try assumption; cbv zeta; rewrite Htext;
    [reflexivity | exact Hfits].
Qed.

Lemma serialization_canonical_witness :
  well_formed license_plain
  /\ within_limits world_2024 (License.to_dict license_plain)
  /\ Json.iterencode 4300 990 (License.to_dict license_plain)
     = (Canonical.license license_plain, None)
  /\ Compact.compact (Canonical.license license_plain) = true
  /\ List.last (Canonical.license license_plain) 0 = 125
  /\ FileWriter.write_json (License.to_dict license_plain)
                           (ustr "./idapro.hexlic") world_2024
     = (Return true,
        written 1 (Canonical.license license_plain) world_2024).
Proof.
  assert (Hwf : well_formed license_plain)
    by (split; [ | split]; cbn; repeat constructor).
  assert (Hlimits : within_limits world_2024 (License.to_dict license_plain))
    by (split; [reflexivity | cbn; lia]).
  split; [exact Hwf | split; [exact Hlimits | ]].
  pose proof (serialization_canonical license_plain world_2024 Hwf Hlimits)
    as (Htext & Hcompact & _ & _ & Hlast & Hwrite).
  split; [exact Htext | ]. split; [exact Hcompact | ].
  split; [exact Hlast | ].
  apply (Hwrite (ustr "./idapro.hexlic")); reflexivity.
Defined.

(** ** The calendar *)

Ltac table_lookup :=
  repeat match goal with
         | |- context [nth ?i ?t ?d] =>
             let x := fresh "x" in
             set (x := nth i t d); vm_compute in x; subst x
         end;
  cbn.

Section Calendar.
Import Datetime.
Local Open Scope Z_scope.

Lemma days_before_month_bounds (year month : Z) :
  1 <= month <= 12 -> 0 <= days_before_month year month <= 335.
Proof.
  intros H. unfold days_before_month.
  assert (Hm : month = 1 \/ month = 2 \/ month = 3 \/ month = 4 \/ month = 5
               \/ month = 6 \/ month = 7 \/ month = 8 \/ month = 9
               \/ month = 10 \/ month = 11 \/ month = 12) by lia.
  destruct (is_leap year);
    repeat (destruct Hm as [-> | Hm]; [table_lookup; lia | ]); subst;
    table_lookup; lia.
Qed.

Lemma days_in_month_bounds (year month : Z) :
  1 <= month <= 12 -> 28 <= days_in_month year month <= 31.
Proof.
  intros H. unfold days_in_month.
  assert (Hm : month = 1 \/ month = 2 \/ month = 3 \/ month = 4 \/ month = 5
               \/ month = 6 \/ month = 7 \/ month = 8 \/ month = 9
               \/ month = 10 \/ month = 11 \/ month = 12) by lia.
  destruct (is_leap year);
    repeat (destruct Hm as [-> | Hm]; [table_lookup; lia | ]); subst;
    table_lookup; lia.
Qed.

Lemma toordinal_bounds (self : datetime) :
  valid self -> 1 <= toordinal self <= 3652425.
Proof.
  intros (Hy & Hm & Hd & _). unfold toordinal, ymd2ord, days_before_year.
  pose proof (days_before_month_bounds (year self) _ Hm).
  pose proof (days_in_month_bounds (year self) _ Hm).
  unfold MINYEAR, MAXYEAR in Hy. Z.to_euclidean_division_equations. lia.
Qed.

Lemma month_day_table (leap : bool) :
  forallb (fun i => month_day_ok leap (Z.of_nat i))
          (seq 0 (if leap then 366 else 365)) = true.
Proof. destruct leap; vm_compute; reflexivity. Qed.

Lemma month_day_spec (year n : Z) :
  0 <= n < (if is_leap year then 366 else 365) ->
  let '(m, d) := month_day n (is_leap year) in
  1 <= m <= 12 /\ 1 <= d <= days_in_month year m
  /\ days_before_month year m + d = n + 1.
Proof.
  intros Hn. pose proof (month_day_table (is_leap year)) as H.
  rewrite forallb_forall in H. specialize (H (Z.to_nat n)).
  rewrite Z2Nat.id in H by lia.
  unfold month_day_ok in H. unfold days_in_month, days_before_month.
  destruct (month_day n (is_leap year)) as [m d].
  rewrite !andb_true_iff in H.
  destruct H as ((((H1 & H2) & H3) & H4) & H5).
  { apply in_seq. destruct (is_leap year); lia. }
  lia.
Qed.

Lemma is_leap_cycle (a b c d : Z) :
  0 <= b <= 3 -> 0 <= c <= 24 -> 0 <= d <= 3 ->
  is_leap (a * 400 + 1 + b * 100 + c * 4 + d)
  = (d =? 3) && (negb (c =? 24) || (b =? 3)).
Proof.
  intros Hb Hc Hd. unfold is_leap.
  destruct (Z.eqb_spec d 3), (Z.eqb_spec c 24), (Z.eqb_spec b 3);
    repeat match goal with
           | |- context [?x mod ?y =? 0] => destruct (Z.eqb_spec (x mod y) 0)
           end; cbn; try reflexivity;
    exfalso; Z.to_euclidean_division_equations; lia.
Qed.

Lemma ord2ymd_spec (n : Z) :
  1 <= n <= MAXORDINAL ->
  let '(y, m, d) := ord2ymd n in
  MINYEAR <= y <= MAXYEAR /\ 1 <= m <= 12 /\ 1 <= d <= days_in_month y m
  /\ ymd2ord y m d = n.
Proof.
  unfold MAXORDINAL, MINYEAR, MAXYEAR. intros Hn. unfold ord2ymd.
  unfold DI400Y, DI100Y, DI4Y.
  set (n0 := n - 1).
  set (a := n0 / 146097). set (r1 := n0 mod 146097).
  set (b := r1 / 36524). set (r2 := r1 mod 36524).
  set (c := r2 / 1461). set (r3 := r2 mod 1461).
  set (d := r3 / 365). set (r4 := r3 mod 365).
  assert (Ha : n0 = 146097 * a + r1 /\ 0 <= r1 < 146097)
    by (subst a r1; split; [apply Z.div_mod | apply Z.mod_pos_bound]; lia).
  assert (Hb : r1 = 36524 * b + r2 /\ 0 <= r2 < 36524)
    by (subst b r2; split; [apply Z.div_mod | apply Z.mod_pos_bound]; lia).
  assert (Hc : r2 = 1461 * c + r3 /\ 0 <= r3 < 1461)
    by (subst c r3; split; [apply Z.div_mod | apply Z.mod_pos_bound]; lia).
  assert (Hd : r3 = 365 * d + r4 /\ 0 <= r4 < 365)
    by (subst d r4; split; [apply Z.div_mod | apply Z.mod_pos_bound]; lia).
  assert (Hn0 : 0 <= n0 <= 3652058 /\ n = n0 + 1) by (subst n0; lia).
  clearbody a r1 b r2 c r3 d r4 n0.
  assert (Hr : 0 <= a <= 24 /\ 0 <= b <= 4 /\ 0 <= c <= 24 /\ 0 <= d <= 4)
    by lia.
  destruct (Z.eqb_spec d 4) as [Hd4 | Hd4];
    [ | destruct (Z.eqb_spec b 4) as [Hb4 | Hb4]]; cbn [orb].
  - (* the last day of a leap year that ends a 4-year cycle *)
    assert (Hc23 : c <= 23 /\ b <= 3 /\ r4 = 0) by lia.
    assert (Hleap : is_leap (a * 400 + 1 + b * 100 + c * 4 + d - 1) = true).
    { replace (a * 400 + 1 + b * 100 + c * 4 + d - 1)
        with (a * 400 + 1 + b * 100 + c * 4 + 3) by lia.
      rewrite is_leap_cycle by lia.
      destruct (Z.eqb_spec c 24); [lia | reflexivity]. }
    unfold ymd2ord, days_in_month, days_before_month. rewrite Hleap.
    table_lookup. unfold days_before_year.
    Z.to_euclidean_division_equations. lia.
  - (* the last day of a 400-year cycle *)
    assert (Hc0 : c = 0 /\ d = 0 /\ r4 = 0) by lia.
    assert (Hleap : is_leap (a * 400 + 1 + b * 100 + c * 4 + d - 1) = true).
    { replace (a * 400 + 1 + b * 100 + c * 4 + d - 1)
        with (a * 400 + 1 + 3 * 100 + 24 * 4 + 3) by lia.
      rewrite is_leap_cycle by lia. reflexivity. }
    unfold ymd2ord, days_in_month, days_before_month. rewrite Hleap.
    table_lookup. unfold days_before_year.
    Z.to_euclidean_division_equations. lia.
  - rewrite <- (is_leap_cycle a b c d) by lia.
    set (year := a * 400 + 1 + b * 100 + c * 4 + d).
    pose proof (month_day_spec year r4) as Hmd.
    destruct (month_day r4 (is_leap year)) as [m dd].
    destruct Hmd as (Hm & Hdd & Hsum); [destruct (is_leap year); lia | ].
    repeat split; try tauto; try (subst year; lia).
    unfold ymd2ord. rewrite <- Z.add_assoc, Hsum.
    subst year. unfold days_before_year.
    Z.to_euclidean_division_equations. lia.
Qed.
End Calendar.

Section Clock.
Import Datetime.
Local Open Scope Z_scope.

Lemma timedelta_new_normal (d s us : Z) :
  Z.abs d <= 999999999 -> 0 <= s < 86400 -> 0 <= us < 1000000 ->
  timedelta_new d s us = Return (mkdelta d s us).
Proof.
  intros Hd Hs Hus. unfold timedelta_new.
  rewrite (Z.div_small us), (Z.mod_small us), Z.add_0_r by lia.
  rewrite (Z.div_small s), (Z.mod_small s), Z.add_0_r by lia.
  destruct (Z.ltb_spec 999999999 (Z.abs d)); [lia | reflexivity].
Qed.

(** [self + timedelta(days=d)] moves the date by [d] days and keeps the
    time of the day. *)
Lemma add_days (self : datetime) (d : Z) :
  valid self ->
  0 < toordinal self + d <= MAXORDINAL ->
  exists future,
    add self (mkdelta d 0 0) = Return future
    /\ valid future
    /\ toordinal future = toordinal self + d
    /\ hour future = hour self
    /\ minute future = minute self
    /\ second future = second self
    /\ microsecond future = microsecond self.
Proof.
  intros Hvalid Hrange. pose proof (toordinal_bounds _ Hvalid) as Hord.
  destruct Hvalid as (Hy & Hm & Hd & Hh & Hmi & Hs & Hus).
  unfold MAXORDINAL in Hrange. unfold add.
  rewrite timedelta_new_normal by lia.
  unfold timedelta_add. cbn [days seconds microseconds].
  rewrite !Z.add_0_r. rewrite timedelta_new_normal by lia.
  cbn [days seconds microseconds]. unfold MAXORDINAL.
  destruct (Z.ltb_spec 0 (toordinal self + d)); [ | lia].
  destruct (Z.leb_spec (toordinal self + d) 3652059); [ | lia].
  cbn [andb].
  pose proof (ord2ymd_spec (toordinal self + d)) as Hspec.
  destruct (ord2ymd (toordinal self + d)) as [[y m] dd].
  destruct Hspec as (Hy' & Hm' & Hd' & Hord'); [unfold MAXORDINAL; lia | ].
  eexists. split; [reflexivity | ].
  unfold valid, toordinal. cbn [year month day hour minute second microsecond].
  repeat split; try tauto; try lia;
    Z.to_euclidean_division_equations; lia.
Qed.

Lemma current_time_returns (w : World) :
  DefaultTimeProvider.current_time w
  = (Return (strftime (pads_year w) (clock w (reads w))), ticked w).
Proof. reflexivity. Qed.

Lemma future_time_returns (w : World) (years : Z) :
  valid (clock w (reads w)) ->
  0 < toordinal (clock w (reads w)) + 365 * years <= MAXORDINAL ->
  exists future,
    DefaultTimeProvider.future_time years w
    = (Return (strftime (pads_year w) future), ticked w)
    /\ valid future
    /\ toordinal future = toordinal (clock w (reads w)) + 365 * years
    /\ hour future = hour (clock w (reads w))
    /\ minute future = minute (clock w (reads w))
    /\ second future = second (clock w (reads w))
    /\ microsecond future = microsecond (clock w (reads w)).
Proof.
  intros Hvalid Hrange. pose proof (toordinal_bounds _ Hvalid) as Hord.
  destruct (add_days _ _ Hvalid Hrange) as (future & Hadd & Hfuture).
  exists future. split; [ | exact Hfuture].
  unfold DefaultTimeProvider.future_time, bind, datetime_now.
  unfold MAXORDINAL in Hrange.
  rewrite timedelta_new_normal by lia. rewrite Hadd. reflexivity.
Qed.

(** Outside the dates that [datetime] can hold the addition raises. *)
Lemma add_days_overflow (self : datetime) (d : Z) :
  valid self ->
  ~ (0 < toordinal self + d <= MAXORDINAL) ->
  add self (mkdelta d 0 0) = Raise OverflowError.
Proof.
  intros Hvalid Hrange. pose proof (toordinal_bounds _ Hvalid) as Hord.
  destruct Hvalid as (Hy & Hm & Hd & Hh & Hmi & Hs & Hus).
  unfold MAXORDINAL in Hrange. unfold add.
  rewrite timedelta_new_normal by lia.
  unfold timedelta_add. cbn [days seconds microseconds].
  rewrite !Z.add_0_r.
  destruct (Z.le_gt_cases (Z.abs (toordinal self + d)) 999999999)
    as [Hsmall | Hbig].
  - rewrite timedelta_new_normal by lia.
    cbn [days seconds microseconds]. unfold MAXORDINAL.
    destruct (Z.ltb_spec 0 (toordinal self + d));
      destruct (Z.leb_spec (toordinal self + d) 3652059);
      try reflexivity; lia.
  - unfold timedelta_new.
    rewrite (Z.div_small (microsecond self)),
            (Z.mod_small (microsecond self)), Z.add_0_r by lia.
    rewrite (Z.div_small (hour self * 3600 + minute self * 60 + second self)),
            Z.add_0_r by lia.
    destruct (Z.ltb_spec 999999999 (Z.abs (toordinal self + d)));
      [reflexivity | lia].
Qed.

Lemma future_time_raises (w : World) (years : Z) :
  valid (clock w (reads w)) ->
  ~ (0 < toordinal (clock w (reads w)) + 365 * years <= MAXORDINAL) ->
  DefaultTimeProvider.future_time years w = (Raise OverflowError, ticked w).
Proof.
  intros Hvalid Hrange.
  unfold DefaultTimeProvider.future_time, bind, datetime_now.
  destruct (Z.le_gt_cases (Z.abs (365 * years)) 999999999)
    as [Hsmall | Hbig].
  - rewrite timedelta_new_normal by lia.
    rewrite (add_days_overflow _ _ Hvalid Hrange). reflexivity.
  - unfold timedelta_new. cbn [Z.div Z.modulo Z.div_eucl Z.add].
    rewrite Z.add_0_r.
    destruct (Z.ltb_spec 999999999 (Z.abs (365 * years)));
      [reflexivity | lia].
Qed.

Lemma is_digit_digit (n : Z) :
  JsonDecoder.is_digit (digit (n mod 10)) = true.
Proof.
  unfold JsonDecoder.is_digit, digit.
  pose proof (Z.mod_pos_bound n 10 eq_refl).
  apply andb_true_iff. split; apply N.leb_le; lia.
Qed.

Lemma year_agrees_table :
  forallb year_agrees (seq 0 (Z.to_nat 9000)) = true.
Proof. vm_compute. reflexivity. Qed.

Lemma format_year_four_digits (zero_padded : bool) (year : Z) :
  zero_padded = true \/ 1000 <= year <= 9999 ->
  format_year zero_padded year = pad4 year.
Proof.
  unfold format_year. destruct zero_padded; [reflexivity | ].
  intros [H | H]; [discriminate | ].
  pose proof year_agrees_table as Htable.
  rewrite forallb_forall in Htable.
  specialize (Htable (Z.to_nat (year - 1000))). unfold year_agrees in Htable.
  replace (1000 + Z.of_nat (Z.to_nat (year - 1000))) with year in Htable
    by lia.
  apply (bool_decide_eq_true_1 _), Htable, in_seq. lia.
Qed.

Lemma strftime_format (zero_padded : bool) (self : datetime) :
  zero_padded = true \/ 1000 <= year self <= 9999 ->
  is_timestamp (strftime zero_padded self) = true.
Proof.
  intros H. unfold strftime. rewrite (format_year_four_digits _ _ H).
  unfold pad4, pad2. cbn [app ustr list_ascii_of_string List.map].
  unfold is_timestamp. cbn [forallb]. rewrite !is_digit_digit. reflexivity.
Qed.
End Clock.

(** C7, as the code has it.  On a clock that reads a valid [datetime],
    [current_time()] returns the text of the reading.  When the date
    [365 * years] days later is a date that [datetime] can hold (ordinal
    1 to 3652059, year 1 to 9999), [future_time(years)] returns, on the
    same reading, the text of the moment exactly [365 * years] days
    later: same time of the day, ordinal advanced by [365 * years].
    Otherwise it raises [OverflowError].  A text is in the format
    [YYYY-MM-DD HH:MM:SS] when its year has four digits or the platform
    pads the year. *)
Theorem future_time_advances (w : World) (years : Z) :
  Datetime.valid (clock w (reads w)) ->
  let now := clock w (reads w) in
  let ordinal := (Datetime.toordinal now + 365 * years)%Z in
  let text := Datetime.strftime (pads_year w) in
  let four_digits moment :=
    pads_year w = true \/ (1000 <= Datetime.year moment <= 9999)%Z in
  DefaultTimeProvider.current_time w = (Return (text now), ticked w)
  /\ (four_digits now -> is_timestamp (text now) = true)
  /\ if ((0 <? ordinal) && (ordinal <=? Datetime.MAXORDINAL))%Z
     then
       exists future,
         DefaultTimeProvider.future_time years w
         = (Return (text future), ticked w)
         /\ Datetime.valid future
         /\ Datetime.toordinal future = ordinal
         /\ Datetime.hour future = Datetime.hour now
         /\ Datetime.minute future = Datetime.minute now
         /\ Datetime.second future = Datetime.second now
         /\ (four_digits future -> is_timestamp (text future) = true)
     else
       DefaultTimeProvider.future_time years w
       = (Raise OverflowError, ticked w).
Proof.
  intros Hvalid now ordinal text four_digits.
  split; [reflexivity | split; [apply strftime_format | ]].
  destruct (Z.ltb_spec 0 ordinal);
    destruct (Z.leb_spec ordinal Datetime.MAXORDINAL); cbn [andb];
    try (apply future_time_raises; [exact Hvalid | fold now ordinal; lia]).
  destruct (future_time_returns w years Hvalid)
    as (future & Hret & Hv & Hord & Hh & Hm & Hs & _);
    [fold now ordinal; lia | ].
  exists future. repeat split; try assumption; try apply Hv.
  apply strftime_format.
Qed.

Lemma future_time_advances_witness :
  exists future,
    DefaultTimeProvider.current_time world_2024
    = (Return (ustr "2024-01-01 00:00:00"), ticked world_2024)
    /\ DefaultTimeProvider.future_time 10 world_2024
       = (Return (Datetime.strftime false future), ticked world_2024)
    /\ Datetime.strftime false future = ustr "2033-12-29 00:00:00"
    /\ is_timestamp (Datetime.strftime false future) = true
    /\ Datetime.toordinal future
       = (Datetime.toordinal (Datetime.mk 2024 1 1 0 0 0 0) + 3650)%Z.
Proof.
  assert (Hvalid : Datetime.valid (clock world_2024 (reads world_2024)))
    by (cbv; intuition discriminate).
  destruct (future_time_advances world_2024 10 Hvalid)
    as (Hnow & _ & future & Hfuture & _ & Hord & _).
  assert (Htext : DefaultTimeProvider.future_time 10 world_2024
                  = (Return (ustr "2033-12-29 00:00:00"), ticked world_2024))
    by reflexivity.
  assert (Heq : Datetime.strftime false future = ustr "2033-12-29 00:00:00").
  { rewrite Htext in Hfuture.
    exact (f_equal (fun r => match fst r with
                             | Return t => t
                             | Raise _ => []
                             end) (eq_sym Hfuture)). }
  exists future. split; [exact Hnow | ]. split; [exact Hfuture | ].
  split; [exact Heq | ]. split; [rewrite Heq; reflexivity | exact Hord].
Defined.

(** C7, as it is stated, fails: 999999 years after the first day of
    2024 is past the year 9999, and [future_time(999999)], the default
    argument of the method, raises [OverflowError]. *)
Lemma future_time_overflows :
  ~ exists text w',
      DefaultTimeProvider.future_time DefaultTimeProvider.years_default
                                      world_2024
      = (Return text, w').
Proof. intros (text & w' & H). vm_compute in H. discriminate. Qed.

(** ** The license that [main] generates *)

(** The text of a moment is ASCII. *)
Lemma strftime_ascii (zero_padded : bool) (self : Datetime.datetime) :
  Forall (fun c => c < 128) (Datetime.strftime zero_padded self).
Proof.
  assert (Hdigit : forall n, Datetime.digit (n mod 10)%Z < 128).
  { intros n. pose proof (Z.mod_pos_bound n 10 eq_refl).
    unfold Datetime.digit. lia. }
  assert (Hpad : forall n, Forall (fun c => c < 128) (Datetime.pad2 n)).
  { intros n. unfold Datetime.pad2. repeat constructor; apply Hdigit. }
  unfold Datetime.strftime. repeat (apply List.Forall_app; split);
    try apply Hpad; try (repeat constructor; fail).
  unfold Datetime.format_year. destruct zero_padded.
  - unfold Datetime.pad4. repeat constructor; apply Hdigit.
  - unfold int_repr. destruct (Z.to_int (Datetime.year self)) as [d | d];
      [ | constructor; [reflexivity | ]];
      apply (List.Forall_impl _ (P := fun c => 48 <= c <= 57));
      try apply uint_chars_digits; intros c Hc; lia.
Qed.

Lemma ascii_valid_str (s : pystr) :
  Forall (fun c => c < 128) s -> valid_str s.
Proof. apply List.Forall_impl. intros c Hc. lia. Qed.




(** ** [main] *)

Lemma main_generates (w : World) :
  Datetime.valid (clock w (S (reads w))) ->
  (Datetime.toordinal (clock w (S (reads w))) + 3650
   <= Datetime.MAXORDINAL)%Z ->
  exists start finish,
    LicenseGenerator.generate_license DefaultTimeProvider_TimeProvider w
    = (Return (generated start finish), ticked (ticked w))
    /\ Forall (fun c => c < 128) start /\ Forall (fun c => c < 128) finish.
Proof.
  intros Hvalid Hrange.
  destruct (future_time_returns (ticked w) 10) as (future & Hfuture & _);
    [exact Hvalid | | ].
  { pose proof (toordinal_bounds _ Hvalid).
    cbn [ticked set_reads clock reads]. lia. }
  eexists. eexists. split; [ | split].
  - apply (generate_license_returns DefaultTimeProvider_TimeProvider
             w (ticked w) (ticked (ticked w)) _ _
             (current_time_returns w) Hfuture).
  - apply strftime_ascii.
  - apply strftime_ascii.
Qed.

(** What [write_json] does with data that the encoder completes on. *)
Lemma write_json_complete (data : pyval) (filename text : pystr)
    (w : World) :
  path_error filename = None ->
  Json.iterencode (int_max_str_digits w) (recursion_units w) data
  = (text, None) ->
  FileWriter.write_json data filename w
  = match unwritable w filename with
    | Some msg => (Return false, diagnosed filename msg w)
    | None =>
        if fits w (inode w filename) text
        then (Return true, written (inode w filename) text w)
        else (Return false,
              diagnosed filename (no_room w (inode w filename))
                        (written (inode w filename)
                                 (kept w (inode w filename) text) w))
    end.
Proof.
  intros Hpath Hrun. rewrite write_json_spec, Hpath.
  destruct (unwritable w filename); [reflexivity | ].
  cbv zeta. rewrite Hrun. reflexivity.
Qed.

(** What [main] does after the license has been generated. *)
Lemma main_writes (w : World) (license : License.t) :
  LicenseGenerator.generate_license DefaultTimeProvider_TimeProvider w
  = (Return license, ticked (ticked w)) ->
  main w
  = match FileWriter.write_json (License.to_dict license)
                                (ustr "idapro.hexlic") (ticked (ticked w)) with
    | (Return true, w') =>
        (Return 0%Z,
         set_stdout (stdout w'
                     ++ ustr "License file generated: idapro.hexlic :D"
                     ++ [10]) w')
    | (Return false, w') => (Return 1%Z, w')
    | (Raise e, w') => (Raise e, w')
    end.
Proof.
  intros Hgen. unfold main.
  change (LicenseGenerator.init None) with DefaultTimeProvider_TimeProvider.
  rewrite (bind_Return _ _ _ _ _ Hgen). unfold bind.
  destruct (FileWriter.write_json (License.to_dict license)
              (ustr "idapro.hexlic") (ticked (ticked w)))
    as [[[ | ] | e] w']; reflexivity.
Qed.



(** ** Two runs of the serialization *)

(** What [write_json] leaves as it was: all of the world but the file
    that the name denotes and the standard error. *)
Lemma write_json_keeps (data : pyval) (filename : pystr) (w : World) :
  let w' := snd (FileWriter.write_json data filename w) in
  clock w' = clock w /\ reads w' = reads w /\ pads_year w' = pads_year w
  /\ int_max_str_digits w' = int_max_str_digits w
  /\ recursion_units w' = recursion_units w
  /\ inode w' = inode w /\ unwritable w' = unwritable w
  /\ capacity w' = capacity w /\ stdout w' = stdout w
  /\ (forall file, file <> inode w filename ->
      disk w' !! file = disk w !! file).
Proof.
  cbv zeta. rewrite write_json_spec.
  destruct (path_error filename) as [e | ].
  { cbn [snd]. repeat split; reflexivity. }
  destruct (unwritable w filename) as [msg | ].
  { cbn [snd]. repeat split; reflexivity. }
  cbv zeta.
  destruct (fits w (inode w filename) _); cbn [snd];
    repeat split; try reflexivity; intros file Hfile;
    unfold diagnosed, written, set_stderr, set_disk; cbn [disk];
    apply lookup_insert_ne; congruence.
Qed.

(** A second run after the first one, under the same name, has the same
    outcome and leaves the file system as the first one left it. *)
Lemma write_json_again (data : pyval) (filename : pystr) (w : World) :
  let run := FileWriter.write_json data filename w in
  let again := FileWriter.write_json data filename (snd run) in
  fst again = fst run /\ disk (snd again) = disk (snd run).
Proof.
  cbv zeta. rewrite (write_json_spec data filename w).
  destruct (path_error filename) as [e | ] eqn:Hpath.
  { cbn [fst snd]. rewrite write_json_spec, Hpath. auto. }
  destruct (unwritable w filename) as [msg | ] eqn:Hopen.
  { cbn [fst snd]. rewrite write_json_spec, Hpath.
    change (unwritable (diagnosed filename msg w)) with (unwritable w).
    rewrite Hopen. auto. }
  cbv zeta.
  set (text := fst (Json.iterencode (int_max_str_digits w)
                                    (recursion_units w) data)).
  set (stopped := snd (Json.iterencode (int_max_str_digits w)
                                       (recursion_units w) data)).
  destruct (fits w (inode w filename) text) eqn:Hfits; cbn [fst snd];
    rewrite write_json_spec, Hpath;
    unfold diagnosed, written, set_stderr, set_disk;
    cbn [unwritable inode int_max_str_digits recursion_units];
    rewrite Hopen; cbv zeta; fold text; fold stopped;
    match goal with
    | |- context [fits ?w' _ _] =>
        change (fits w' (inode w filename) text)
          with (fits w (inode w filename) text)
    end;
    rewrite Hfits; cbn [fst snd disk]; rewrite insert_insert_eq;
    split; reflexivity.
Qed.

(** C6. Two runs of the serialization of a license have the same outcome
    and leave the same text.  In sequence, in the world that the first
    run has left and under the same name, the second run returns or
    raises what the first one did and leaves the file system as it was,
    whatever the license, the name and the world.  In two worlds that
    differ in their clocks, their files and their streams, and under two
    names, the runs agree when the interpreter has the same limits in
    both, the two names can be opened and the devices have room: then
    both files hold the text that the encoder yields for the dictionary
    of the license, which for a well-formed license within the limits is
    the canonical form, a function of the fields of the license
    alone. *)
Theorem serialization_deterministic (license : License.t)
    (filename1 filename2 : pystr) (w1 w2 : World) :
  let run1 := FileWriter.write_json (License.to_dict license) filename1 w1 in
  let run2 := FileWriter.write_json (License.to_dict license) filename2 w2 in
  let again :=
    FileWriter.write_json (License.to_dict license) filename1 (snd run1) in
  let text :=
    fst (Json.iterencode (int_max_str_digits w1) (recursion_units w1)
                         (License.to_dict license)) in
  (fst again = fst run1 /\ disk (snd again) = disk (snd run1))
  /\ (int_max_str_digits w1 = int_max_str_digits w2 ->
      recursion_units w1 = recursion_units w2 ->
      path_error filename1 = None -> path_error filename2 = None ->
      unwritable w1 filename1 = None -> unwritable w2 filename2 = None ->
      fits w1 (inode w1 filename1) text = true ->
      fits w2 (inode w2 filename2) text = true ->
      fst run1 = fst run2
      /\ disk (snd run1) !! inode w1 filename1 = Some text
      /\ disk (snd run2) !! inode w2 filename2 = Some text
      /\ (well_formed license ->
          within_limits w1 (License.to_dict license) ->
          fst run1 = Return true /\ text = Canonical.license license)).
Proof.
  cbv zeta. split; [apply write_json_again | ].
  intros Hlimit Hunits Hpath1 Hpath2 Hopen1 Hopen2 Hfits1 Hfits2.
  rewrite (write_json_opened _ _ _ Hpath1 Hopen1 Hfits1).
  rewrite (write_json_opened _ _ _ Hpath2 Hopen2)
    by (cbv zeta; rewrite <- Hlimit, <- Hunits; exact Hfits2).
  rewrite <- Hlimit, <- Hunits. cbn [fst snd written set_disk disk].
  rewrite !lookup_insert_eq. repeat split.
  - rewrite (license_text _ _ _ H (proj1 H0) (proj2 H0)). reflexivity.
  - rewrite (license_text _ _ _ H (proj1 H0) (proj2 H0)). reflexivity.
Qed.

Lemma serialization_deterministic_witness :
  let run1 := FileWriter.write_json (License.to_dict license_plain)
                (ustr "idapro.hexlic") world_2024 in
  let run2 := FileWriter.write_json (License.to_dict license_plain)
                (ustr "./copy.hexlic") world_9995 in
  fst run1 = fst run2
  /\ fst run1 = Return true
  /\ disk (snd run2) !! 2 = disk (snd run1) !! 1
  /\ disk (snd run1) !! 1 = Some (Canonical.license license_plain).
Proof.
  intros run1 run2.
  pose proof (serialization_deterministic license_plain
                (ustr "idapro.hexlic") (ustr "./copy.hexlic")
                world_2024 world_9995) as [_ H].
  cbv zeta in H.
  destruct (H eq_refl eq_refl eq_refl eq_refl eq_refl eq_refl eq_refl eq_refl)
    as (Hsame & Hfile1 & Hfile2 & Hcanonical).
  destruct Hcanonical as [Htrue Htext].
  { split; [ | split]; cbn; repeat constructor. }
  { split; [reflexivity | cbn; lia]. }
  split; [exact Hsame | ]. split; [exact Htrue | ].
  split; [ | rewrite <- Htext; exact Hfile1].
  etransitivity; [exact Hfile2 | symmetry; exact Hfile1].
Defined.

(** C10. [write_json] turns an [OSError] into [False] and nothing else.
    With data that is not JSON serializable, a name that cannot be
    opened, or a device without room for what the encoder yields, still
    gives [False]; otherwise the exception that stops the encoder, which
    is a [TypeError] when the data is within the limits of the
    interpreter, reaches the caller, the standard error stays as it was,
    and the file, created or truncated by [open], holds what the encoder
    yielded before the exception.  A name that is no path makes [open]
    raise before anything is written. *)
Theorem write_json_raises_type_error (data : pyval) (filename : pystr)
    (w : World) :
  Json.serializable data = false ->
  exists w',
    let file := inode w filename in
    let run :=
      Json.iterencode (int_max_str_digits w) (recursion_units w) data in
    match path_error filename with
    | Some e => FileWriter.write_json data filename w = (Raise e, w)
    | None =>
        match unwritable w filename with
        | Some e => FileWriter.write_json data filename w = (Return false, w')
        | None =>
            if fits w file (fst run)
            then
              (exists e,
                 FileWriter.write_json data filename w = (Raise e, w')
                 /\ encoder_error e
                 /\ (within_limits w data -> exists msg, e = TypeError msg))
              /\ stderr w' = stderr w
              /\ disk w' !! file = Some (fst run)
            else
              FileWriter.write_json data filename w = (Return false, w')
        end
    end.
Proof.
  intros Hdata. rewrite write_json_spec. cbv zeta.
  destruct (path_error filename) as [e | ]; [exists w; reflexivity | ].
  destruct (unwritable w filename) as [e | ]; [eexists; reflexivity | ].
  destruct (fits w (inode w filename) _); [ | eexists; reflexivity].
  exists (written (inode w filename)
                  (fst (Json.iterencode (int_max_str_digits w)
                                        (recursion_units w) data)) w).
  split; [ | split; [reflexivity | ]].
  - destruct (snd (Json.iterencode (int_max_str_digits w)
                                   (recursion_units w) data))
      as [e | ] eqn:Hstop.
    + exists e. split; [reflexivity | ].
      split; [apply (iterencode_error _ _ _ _ Hstop) | ].
      intros [Hints Hunits].
      destruct (iterencode_TypeError _ _ _ Hints Hunits Hdata) as [msg Hmsg].
      exists msg. congruence.
    + apply iterencode_None in Hstop. congruence.
  - cbn [written set_disk disk]. apply lookup_insert_eq.
Qed.

Lemma write_json_raises_type_error_witness :
  exists w',
    FileWriter.write_json (PyDict [(KStr (ustr "key"), PyObject (ustr "set"))])
                          (ustr "idapro.hexlic") world_2024
    = (Raise (TypeError (ustr "Object of type set is not JSON serializable")),
       w')
    /\ disk world_2024 !! 1 = Some (ustr "stale")
    /\ disk w' !! 1
       = Some (ustr "{" ++ [34] ++ ustr "key" ++ [34] ++ ustr ":").
Proof.
  destruct (write_json_raises_type_error
              (PyDict [(KStr (ustr "key"), PyObject (ustr "set"))])
              (ustr "idapro.hexlic") world_2024 eq_refl)
    as (w' & H).
  cbv zeta in H.
  change (path_error (ustr "idapro.hexlic")) with (@None exn) in H.
  change (unwritable world_2024 (ustr "idapro.hexlic")) with (@None pystr)
    in H.
  change (fits world_2024 (inode world_2024 (ustr "idapro.hexlic")) _)
    with true in H.
  cbv iota in H. destruct H as ((e & Hraise & _ & Hmsg) & _ & Hdisk).
  exists w'. split; [ | split; [reflexivity | exact Hdisk]].
  destruct Hmsg as [msg ->]; [split; [reflexivity | cbn; lia] | ].
  pose proof Hraise as Hrun. vm_compute in Hrun.
  injection Hrun as Hrun _. rewrite Hraise, <- Hrun. reflexivity.
Defined.

(** ** The decoder on the escapes of the encoder *)

Section Escapes.
Import Json JsonDecoder.

Lemma hexval_hexdigit (d : N) : d < 16 -> hexval (hexdigit d) = Some d.
Proof.
  intros Hd. unfold hexval, hexdigit.
  destruct (N.ltb_spec d 10).
  - destruct (N.leb_spec 48 (48 + d)), (N.leb_spec (48 + d) 57); try lia.
    cbn [andb]. f_equal. lia.
  - destruct (N.leb_spec 48 (87 + d)), (N.leb_spec (87 + d) 57); try lia.
    cbn [andb].
    destruct (N.leb_spec 97 (87 + d)), (N.leb_spec (87 + d) 102); try lia.
    cbn [andb]. f_equal. lia.
Qed.

Lemma decode_hex4 (n : N) (tail : pystr) :
  n < 65536 ->
  exists h1 h2 h3 h4,
    hex4 n ++ tail = h1 :: h2 :: h3 :: h4 :: tail
    /\ decode_uXXXX h1 h2 h3 h4 = Some n.
Proof.
  intros Hn. unfold hex4. do 4 eexists. split; [reflexivity | ].
  unfold decode_uXXXX.
  rewrite !hexval_hexdigit by (apply N.mod_lt; discriminate).
  f_equal. rewrite !N.shiftr_div_pow2.
  change (2 ^ 12) with 4096. change (2 ^ 8) with 256. change (2 ^ 4) with 16.
  lia_div.
Qed.

(** The two surrogates that the encoder writes for a character above
    the basic plane, and what the decoder makes of them. *)
Lemma surrogates_of (c : N) :
  65536 <= c < 1114112 ->
  let n := c - 65536 in
  let s1 := N.lor 55296 (N.land (N.shiftr n 10) 1023) in
  let s2 := N.lor 56320 (N.land n 1023) in
  s1 < 65536 /\ s2 < 65536
  /\ is_high_surrogate s1 = true /\ is_low_surrogate s2 = true
  /\ join_surrogates s1 s2 = c.
Proof.
  intros Hc n s1 s2.
  assert (Hs1 : s1 = 55296 + n / 1024).
  { subst s1. change 1023 with (N.ones 10). rewrite N.land_ones.
    rewrite N.shiftr_div_pow2. change (2 ^ 10) with 1024.
    change 55296 with (N.shiftl 54 10) at 1.
    rewrite lor_shifted by (apply N.mod_lt; discriminate).
    rewrite N.mod_small; [reflexivity | ].
    subst n. lia_div. }
  assert (Hs2 : s2 = 56320 + n mod 1024).
  { subst s2. change 1023 with (N.ones 10). rewrite N.land_ones.
    change (2 ^ 10) with 1024. change 56320 with (N.shiftl 55 10) at 1.
    rewrite lor_shifted by (apply N.mod_lt; discriminate). reflexivity. }
  assert (Hn : n / 1024 < 1024 /\ n mod 1024 < 1024).
  { subst n. lia_div. }
  unfold is_high_surrogate, is_low_surrogate, join_surrogates.
  rewrite Hs1, Hs2.
  replace (55296 + n / 1024 - 55296) with (n / 1024)
    by lia_div.
  replace (56320 + n mod 1024 - 56320) with (n mod 1024)
    by lia_div.
  rewrite lor_shifted by apply Hn.
  repeat split; try (subst n; lia_div);
    apply andb_true_iff; split; apply N.leb_le; lia_div.
Qed.

(** A high and a low surrogate are written like the character that the
    decoder joins them into. *)
Lemma escape_joined (c c2 : N) :
  is_high_surrogate c = true -> is_low_surrogate c2 = true ->
  escape_char (join_surrogates c c2) = escape_char c ++ escape_char c2.
Proof.
  unfold is_high_surrogate, is_low_surrogate.
  rewrite !andb_true_iff, !N.leb_le. intros Hc Hc2.
  assert (Hj : join_surrogates c c2
               = 65536 + ((c - 55296) * 1024 + (c2 - 56320))).
  { unfold join_surrogates. rewrite lor_shifted by lia. reflexivity. }
  assert (Hbmp : forall u, 55296 <= u <= 57343 ->
                 escape_char u = [92; 117] ++ hex4 u).
  { intros u Hu. unfold escape_char.
    repeat match goal with
           | |- context [if ?x =? ?y then _ else _] =>
               destruct (N.eqb_spec x y); [lia | ]
           end.
    destruct (N.leb_spec 32 u), (N.leb_spec u 126); try lia. cbn [andb].
    destruct (N.ltb_spec u 65536); [reflexivity | lia]. }
  rewrite (Hbmp c), (Hbmp c2) by lia.
  unfold escape_char.
  repeat match goal with
         | |- context [if ?x =? ?y then _ else _] =>
             destruct (N.eqb_spec x y); [lia | ]
         end.
  destruct (N.leb_spec 32 (join_surrogates c c2)),
           (N.leb_spec (join_surrogates c c2) 126); try lia. cbn [andb].
  destruct (N.ltb_spec (join_surrogates c c2) 65536); [lia | ].
  cbv zeta.
  destruct (surrogates_of (join_surrogates c c2)) as (_ & _ & _ & _ & Hback);
    [lia | ].
  assert (Hs1 : N.lor 55296
                  (N.land (N.shiftr (join_surrogates c c2 - 65536) 10) 1023)
                = c).
  { change 1023 with (N.ones 10). rewrite N.land_ones.
    rewrite N.shiftr_div_pow2. change (2 ^ 10) with 1024.
    change 55296 with (N.shiftl 54 10) at 1.
    rewrite lor_shifted by (apply N.mod_lt; discriminate).
    rewrite Hj. lia_div. }
  assert (Hs2 : N.lor 56320 (N.land (join_surrogates c c2 - 65536) 1023)
                = c2).
  { change 1023 with (N.ones 10). rewrite N.land_ones.
    change (2 ^ 10) with 1024. change 56320 with (N.shiftl 55 10) at 1.
    rewrite lor_shifted by (apply N.mod_lt; discriminate).
    rewrite Hj. lia_div. }
  rewrite Hs1, Hs2. rewrite <- List.app_assoc. reflexivity.
Qed.
End Escapes.

Section ScanString.
Import Json JsonDecoder Normal.

Lemma escape_char_cases (c : N) :
  c < 1114112 ->
  (exists x, escape_char c = [92; x] /\ x <> 117
             /\ BACKSLASH x = Some c /\ c < 128)
  \/ (escape_char c = [c] /\ c <> 34 /\ c <> 92 /\ 32 <= c < 128)
  \/ (escape_char c = [92; 117] ++ hex4 c /\ c < 65536)
  \/ (exists s1 s2,
        escape_char c = [92; 117] ++ hex4 s1 ++ [92; 117] ++ hex4 s2
        /\ s1 < 65536 /\ s2 < 65536
        /\ is_high_surrogate s1 = true /\ is_low_surrogate s2 = true
        /\ join_surrogates s1 s2 = c /\ 65536 <= c).
Proof.
  intros Hc. unfold escape_char.
  repeat match goal with
         | |- context [if ?x =? ?y then _ else _] =>
             destruct (N.eqb_spec x y);
             [subst; left; eexists; repeat split; try reflexivity; lia | ]
         end.
  destruct (N.leb_spec 32 c), (N.leb_spec c 126); cbn [andb];
    try (right; left; repeat split; lia);
    (destruct (N.ltb_spec c 65536);
     [right; right; left; split; [reflexivity | assumption] | ]);
    right; right; right; cbv zeta;
    destruct (surrogates_of c) as (Hs1 & Hs2 & Hs3 & Hs4 & Hs5); try lia;
    do 2 eexists; repeat split; eauto.
Qed.

Lemma scanstring_u (h1 h2 h3 h4 : N) (r2 : pystr) :
  scanstring (92 :: 117 :: h1 :: h2 :: h3 :: h4 :: r2)
  = match decode_uXXXX h1 h2 h3 h4 with
    | None => None
    | Some uni =>
        match r2 with
        | b :: u :: g1 :: g2 :: g3 :: g4 :: r3 =>
            if is_high_surrogate uni && (b =? 92) && (u =? 117) then
              match decode_uXXXX g1 g2 g3 g4 with
              | None => None
              | Some uni2 =>
                  if is_low_surrogate uni2 then
                    cons_char (join_surrogates uni uni2) (scanstring r3)
                  else cons_char uni (scanstring r2)
              end
            else cons_char uni (scanstring r2)
        | b :: u :: _ =>
            if is_high_surrogate uni && (b =? 92) && (u =? 117) then None
            else cons_char uni (scanstring r2)
        | _ => cons_char uni (scanstring r2)
        end
    end.
Proof. reflexivity. Qed.

Lemma scan_short (x c : N) (tail : pystr) :
  x <> 117 -> BACKSLASH x = Some c ->
  scanstring (92 :: x :: tail) = cons_char c (scanstring tail).
Proof.
  intros Hx Hc. cbn [scanstring]. change (92 =? 34) with false.
  change (92 =? 92) with true. cbn match.
  destruct (N.eqb_spec x 117); [contradiction | ]. rewrite Hc. reflexivity.
Qed.

Lemma scan_plain (c : N) (tail : pystr) :
  c <> 34 -> c <> 92 -> 32 <= c ->
  scanstring (c :: tail) = cons_char c (scanstring tail).
Proof.
  intros H34 H92 H32. cbn [scanstring].
  destruct (N.eqb_spec c 34); [contradiction | ].
  destruct (N.eqb_spec c 92); [contradiction | ].
  destruct (N.ltb_spec c 32); [lia | reflexivity].
Qed.

(** A Unicode escape that is not the first half of a pair. *)
Lemma scan_u_alone (u : N) (tail : pystr) :
  u < 65536 ->
  is_high_surrogate u = false \/ starts_u tail = false ->
  scanstring ([92; 117] ++ hex4 u ++ tail) = cons_char u (scanstring tail).
Proof.
  intros Hu Halone.
  destruct (decode_hex4 u tail Hu) as (h1 & h2 & h3 & h4 & Heq & Hdec).
  cbn [app]. rewrite Heq, scanstring_u, Hdec.
  assert (Hcond : forall b v,
    starts_u tail = false \/ starts_u tail = (b =? 92) && (v =? 117) ->
    is_high_surrogate u = false \/ starts_u tail = false ->
    starts_u tail = ((b =? 92) && (v =? 117)) ->
    is_high_surrogate u && (b =? 92) && (v =? 117) = false).
  { intros b v _ [-> | H] Hs; [reflexivity | ].
    rewrite <- andb_assoc, <- Hs, H. apply andb_false_r. }
  destruct tail as [ | b [ | v tail]]; try reflexivity.
  rewrite (Hcond b v) by (auto; reflexivity).
  destruct tail as [ | g1 [ | g2 [ | g3 [ | g4 r3]]]]; reflexivity.
Qed.

(** A high surrogate before another Unicode escape. *)
Lemma scan_u_pair (u u2 : N) (tail : pystr) :
  u < 65536 -> u2 < 65536 -> is_high_surrogate u = true ->
  scanstring ([92; 117] ++ hex4 u ++ [92; 117] ++ hex4 u2 ++ tail)
  = if is_low_surrogate u2
    then cons_char (join_surrogates u u2) (scanstring tail)
    else cons_char u (scanstring ([92; 117] ++ hex4 u2 ++ tail)).
Proof.
  intros Hu Hu2 Hhigh.
  destruct (decode_hex4 u2 tail Hu2) as (g1 & g2 & g3 & g4 & Heq2 & Hdec2).
  destruct (decode_hex4 u ([92; 117] ++ hex4 u2 ++ tail) Hu)
    as (h1 & h2 & h3 & h4 & Heq & Hdec).
  cbn [app] in *. rewrite Heq, Heq2, scanstring_u, Hdec, Hhigh, Hdec2.
  reflexivity.
Qed.
End ScanString.

Section ScanEscaped.
Import Json JsonDecoder Normal.

Lemma join_pairs_keep (c : N) (r : pystr) :
  is_high_surrogate c = false
  \/ match r with c2 :: _ => is_low_surrogate c2 = false | [] => True end ->
  join_pairs (c :: r) = c :: join_pairs r.
Proof.
  destruct r as [ | c2 r]; [reflexivity | ].
  cbn [join_pairs]. intros [-> | ->]; rewrite ?andb_false_r; reflexivity.
Qed.

Lemma not_high (c : N) :
  c < 55296 \/ 56320 <= c -> is_high_surrogate c = false.
Proof.
  intros H. unfold is_high_surrogate.
  destruct (N.leb_spec 55296 c), (N.leb_spec c 56319); try reflexivity; lia.
Qed.

Lemma not_low (c : N) :
  c < 56320 \/ 57344 <= c -> is_low_surrogate c = false.
Proof.
  intros H. unfold is_low_surrogate.
  destruct (N.leb_spec 56320 c), (N.leb_spec c 57343); try reflexivity; lia.
Qed.

Lemma high_not_low (c : N) :
  is_high_surrogate c = true -> is_low_surrogate c = false.
Proof.
  unfold is_high_surrogate. rewrite andb_true_iff, !N.leb_le.
  intros H. apply not_low. lia.
Qed.

Lemma starts_u_plain (c : N) (tail : pystr) :
  c <> 92 -> starts_u (c :: tail) = false.
Proof.
  intros Hc. destruct tail as [ | v tail]; [reflexivity | ].
  cbn [starts_u]. destruct (N.eqb_spec c 92); [contradiction | reflexivity].
Qed.

Lemma starts_u_short (x : N) (tail : pystr) :
  x <> 117 -> starts_u (92 :: x :: tail) = false.
Proof.
  intros Hx. cbn [starts_u].
  destruct (N.eqb_spec x 117); [contradiction | apply andb_false_r].
Qed.

(** The decoder reads an encoded string back, with the surrogate pairs
    joined. *)
Lemma scanstring_escaped_bounded (n : nat) (s rest : pystr) :
  (List.length s <= n)%nat -> valid_str s ->
  scanstring (flat_map escape_char s ++ 34 :: rest)
  = Some (join_pairs s, rest).
Proof.
  revert s. induction n as [ | n IH]; intros s Hlen Hvalid.
  { destruct s; [reflexivity | cbn in Hlen; lia]. }
  destruct s as [ | c r]; [reflexivity | ].
  inversion Hvalid as [ | ? ? Hc Hr]; subst.
  assert (IHr : scanstring (flat_map escape_char r ++ 34 :: rest)
                = Some (join_pairs r, rest))
    by (apply IH; [cbn in Hlen; lia | exact Hr]).
  cbn [flat_map].
  destruct (escape_char_cases c Hc)
    as [(x & He & Hx & Hb & Hlt)
       | [(He & H34 & H92 & H32)
         | [(He & Hlt) | (s1 & s2 & He & Hs1 & Hs2 & Hh & Hl & Hj & Hge)]]];
    rewrite He, <- ?List.app_assoc.
  - cbn [app]. rewrite (scan_short _ _ _ Hx Hb), IHr.
    rewrite join_pairs_keep by (left; apply not_high; lia). reflexivity.
  - cbn [app]. rewrite scan_plain, IHr by lia.
    rewrite join_pairs_keep by (left; apply not_high; lia). reflexivity.
  - destruct (is_high_surrogate c) eqn:Hhigh.
    2:{ rewrite scan_u_alone, IHr by auto.
        rewrite join_pairs_keep by auto. reflexivity. }
    destruct r as [ | c2 r'].
    { rewrite scan_u_alone
        by (auto; right; apply starts_u_plain; discriminate).
      reflexivity. }
    inversion Hr as [ | ? ? Hc2 Hr']; subst.
    cbn [flat_map] in IHr |- *.
    destruct (escape_char_cases c2 Hc2)
      as [(x & He2 & Hx & Hb & Hlt2)
         | [(He2 & H34 & H92 & H32)
           | [(He2 & Hlt2)
             | (s1 & s2 & He2 & Hs1 & Hs2 & Hh & Hl & Hj & Hge)]]];
      rewrite He2, <- ?List.app_assoc in IHr |- *.
    + rewrite scan_u_alone
        by (auto; right; apply starts_u_short; exact Hx).
      rewrite IHr.
      rewrite (join_pairs_keep c (c2 :: r'))
        by (right; apply not_low; lia).
      reflexivity.
    + rewrite scan_u_alone
        by (auto; right; apply starts_u_plain; exact H92).
      rewrite IHr.
      rewrite (join_pairs_keep c (c2 :: r'))
        by (right; apply not_low; lia).
      reflexivity.
    + rewrite scan_u_pair by assumption.
      destruct (is_low_surrogate c2) eqn:Hlow.
      * rewrite IH by (try exact Hr'; cbn in Hlen; lia).
        cbn [join_pairs cons_char]. rewrite Hhigh, Hlow. reflexivity.
      * rewrite IHr.
        rewrite (join_pairs_keep c (c2 :: r')) by (right; exact Hlow).
        reflexivity.
    + rewrite scan_u_pair by assumption.
      rewrite (high_not_low _ Hh), IHr.
      rewrite (join_pairs_keep c (c2 :: r'))
        by (right; apply not_low; lia).
      reflexivity.
  - rewrite scan_u_pair by assumption. rewrite Hl, IHr, Hj.
    rewrite join_pairs_keep by (left; apply not_high; lia). reflexivity.
Qed.

Lemma scanstring_escaped (s rest : pystr) :
  valid_str s ->
  scanstring (flat_map escape_char s ++ 34 :: rest)
  = Some (join_pairs s, rest).
Proof. apply (scanstring_escaped_bounded (List.length s)). lia. Qed.

(** Joining the pairs does not change the encoded text. *)
Lemma escaped_join_pairs_bounded (n : nat) (s : pystr) :
  (List.length s <= n)%nat ->
  flat_map escape_char (join_pairs s) = flat_map escape_char s.
Proof.
  revert s. induction n as [ | n IH]; intros s Hlen.
  { destruct s; [reflexivity | cbn in Hlen; lia]. }
  destruct s as [ | c [ | c2 r]]; try reflexivity.
  change (join_pairs (c :: c2 :: r))
    with (if is_high_surrogate c && is_low_surrogate c2
          then join_surrogates c c2 :: join_pairs r
          else c :: join_pairs (c2 :: r)).
  destruct (is_high_surrogate c) eqn:Hhigh,
           (is_low_surrogate c2) eqn:Hlow; cbn [andb];
    try (change (flat_map escape_char (c :: join_pairs (c2 :: r)))
           with (escape_char c ++ flat_map escape_char (join_pairs (c2 :: r)));
         rewrite IH by (cbn in Hlen |- *; lia); reflexivity).
  cbn [flat_map].
  rewrite (escape_joined _ _ Hhigh Hlow), <- List.app_assoc.
  rewrite IH by (cbn in Hlen; lia). reflexivity.
Qed.

Lemma encode_join_pairs (s : pystr) :
  encode_basestring_ascii (join_pairs s) = encode_basestring_ascii s.
Proof.
  unfold encode_basestring_ascii.
  rewrite (escaped_join_pairs_bounded (List.length s)) by lia. reflexivity.
Qed.
End ScanEscaped.

(** ** The decoder on the integers of the encoder *)

Section ScanNumber.
Import Json JsonDecoder Normal.

Lemma chars_uint_chars (d : Decimal.uint) : chars_uint (uint_chars d) = d.
Proof. induction d; cbn; congruence. Qed.

Lemma is_digit_uint_chars (d : Decimal.uint) :
  Forall (fun c => is_digit c = true) (uint_chars d).
Proof. induction d; cbn [uint_chars]; constructor; auto. Qed.

Lemma delimited_not_digit (rest : pystr) :
  delimited rest ->
  match rest with c :: _ => is_digit c = false | [] => True end.
Proof.
  destruct rest as [ | c rest]; [trivial | ].
  intros [-> | [-> | ->]]; reflexivity.
Qed.

Lemma span_digits_app (ds rest : pystr) :
  Forall (fun c => is_digit c = true) ds ->
  match rest with c :: _ => is_digit c = false | [] => True end ->
  span_digits (ds ++ rest) = (ds, rest).
Proof.
  intros Hds Hrest. induction Hds as [ | c ds Hc _ IH].
  - destruct rest as [ | c rest]; [reflexivity | ].
    cbn [app span_digits]. rewrite Hrest. reflexivity.
  - cbn [app span_digits]. rewrite Hc, IH. reflexivity.
Qed.

(** The decimal digits of a positive number do not start with a zero. *)
Lemma to_uint_head (p : positive) :
  exists c ds, uint_chars (Pos.to_uint p) = c :: ds
               /\ 49 <= c <= 57.
Proof.
  pose proof (DecimalPos.Unsigned.to_of (Pos.to_uint p)) as Hnorm.
  rewrite DecimalPos.Unsigned.of_to in Hnorm. cbn [N.to_uint] in Hnorm.
  pose proof (DecimalPos.Unsigned.to_uint_nonzero p) as Hnz.
  pose proof (DecimalPos.Unsigned.to_uint_nonnil p) as Hnn.
  destruct (Pos.to_uint p) as [ | d | d | d | d | d | d | d | d | d | d ].
  all: try congruence.
  all: try (cbn [uint_chars]; do 2 eexists; split; [reflexivity | lia]).
  destruct Hnz. unfold Decimal.unorm in Hnorm.
  cbn [Decimal.nzhead] in Hnorm.
  destruct (Decimal.nzhead d) eqn:Hd; try exact Hnorm;
    destruct (DecimalFacts.nzhead_nonzero d d); congruence.
Qed.

Lemma delimited_no_fraction (rest : pystr) :
  delimited rest -> has_frac rest || has_exp rest = false.
Proof.
  destruct rest as [ | c rest]; [reflexivity | ].
  intros [-> | [-> | ->]]; destruct rest; reflexivity.
Qed.

Lemma match_integer_digits (c : N) (ds rest : pystr) :
  49 <= c <= 57 ->
  Forall (fun c => is_digit c = true) ds ->
  delimited rest ->
  match_integer (c :: ds ++ rest) = Some (c :: ds, rest).
Proof.
  intros Hc Hds Hrest. unfold match_integer.
  destruct (N.eqb_spec c 48); [lia | ].
  assert (Hd : is_digit c = true)
    by (unfold is_digit; apply andb_true_iff; split; apply N.leb_le; lia).
  rewrite Hd, (span_digits_app _ _ Hds (delimited_not_digit _ Hrest)).
  reflexivity.
Qed.

Lemma scan_number_repr (limit : N) (z : Z) (rest : pystr) :
  digits_refused limit (int_digits z) = false ->
  delimited rest ->
  scan_number limit (int_repr z ++ rest) = Some (PyInt z, rest).
Proof.
  intros Hlimit Hrest. pose proof (DecimalZ.of_to z) as Hz.
  pose proof (delimited_no_fraction _ Hrest) as Hfrac.
  unfold int_repr, int_digits in *. unfold Z.to_int in *.
  destruct z as [ | p | p].
  - unfold scan_number.
    change (match_integer _) with (Some ([48], rest)).
    cbn match. rewrite Hfrac. reflexivity.
  - destruct (to_uint_head p) as (c & ds & Hc & Hrange).
    pose proof (is_digit_uint_chars (Pos.to_uint p)) as Hds.
    pose proof (chars_uint_chars (Pos.to_uint p)) as Hback.
    rewrite Hc in *. inversion Hds as [ | ? ? Hdc Hdds]; subst.
    cbn [app]. unfold scan_number.
    destruct (N.eqb_spec c 45); [lia | ].
    rewrite (match_integer_digits _ _ _ Hrange Hdds Hrest).
    rewrite Hfrac, Hlimit, Hback, Hz. reflexivity.
  - destruct (to_uint_head p) as (c & ds & Hc & Hrange).
    pose proof (is_digit_uint_chars (Pos.to_uint p)) as Hds.
    pose proof (chars_uint_chars (Pos.to_uint p)) as Hback.
    rewrite Hc in *. inversion Hds as [ | ? ? Hdc Hdds]; subst.
    cbn [app]. unfold scan_number. change (45 =? 45) with true.
    cbn [tl]. rewrite (match_integer_digits _ _ _ Hrange Hdds Hrest).
    rewrite Hfrac, Hlimit, Hback, Hz. reflexivity.
Qed.
End ScanNumber.

(** ** The decoder on the canonical text of a value *)

(** Decide the comparisons of two given characters. *)
Ltac chars :=
  repeat match goal with
         | |- context [?a =? ?b] =>
             let v := eval vm_compute in (a =? b) in
             lazymatch v with
             | true => change (a =? b) with true
             | false => change (a =? b) with false
             end
         end;
  cbn match.

Section ScanValue.
Import Json JsonDecoder Normal.

Local Abbreviation text o := (Canonical.any o).

Lemma decodable_list (lst : list pyval) :
  decodable (PyList lst) <-> Forall decodable lst.
Proof.
  cbn [decodable]. induction lst as [ | o lst IH]; cbn [fold_right].
  - split; [constructor | trivial].
  - rewrite IH. split.
    + intros [? ?]. constructor; assumption.
    + intros H. inversion H; subst. split; assumption.
Qed.

Lemma decodable_dict (dct : list (pykey * pyval)) :
  decodable (PyDict dct)
  <-> NoDup (List.map (fun kv => join_pairs (Canonical.key_name (fst kv)))
                      dct)
      /\ Forall (fun kv => str_key (fst kv) /\ decodable (snd kv)) dct.
Proof.
  cbn [decodable].
  assert (H : fold_right (fun kv P => str_key (fst kv)
                                      /\ decodable (snd kv) /\ P) True dct
              <-> Forall (fun kv => str_key (fst kv)
                                    /\ decodable (snd kv)) dct).
  { induction dct as [ | kv dct IH]; cbn [fold_right].
    - split; [constructor | trivial].
    - rewrite IH. split.
      + intros (? & ? & ?). constructor; [split | ]; assumption.
      + intros H. inversion H; subst. tauto. }
  rewrite H. reflexivity.
Qed.

Lemma str_key_name (key : pykey) :
  str_key key ->
  key = KStr (Canonical.key_name key) /\ valid_str (Canonical.key_name key).
Proof. destruct key; cbn; intros H; try contradiction. auto. Qed.

(** A decodable value has a JSON form. *)
Lemma decodable_json (o : pyval) : decodable o -> json_value o.
Proof.
  unfold json_value.
  induction o as [ | b | z | f | s | l IH | l IH | d IH | t] using pyval_ind;
    intros Hdec; try (split; reflexivity); try contradiction.
  - split; [reflexivity | apply python_chars, Hdec].
  - apply decodable_list in Hdec. cbn [serializable python_strings].
    split; apply forallb_forall; intros o Ho;
      rewrite List.Forall_forall in IH, Hdec; apply IH; auto.
  - apply decodable_dict in Hdec. destruct Hdec as [_ H].
    cbn [serializable python_strings].
    split; apply forallb_forall; intros kv Hkv;
      rewrite List.Forall_forall in IH, H;
      destruct (H kv Hkv) as [Hk Hv];
      destruct (str_key_name _ Hk) as [Hkey Hvalid]; rewrite Hkey;
      apply andb_true_iff; (split; [ | apply IH; assumption]);
      [reflexivity | apply python_chars, Hvalid].
Qed.

Lemma int_repr_head (z : Z) :
  exists c t, int_repr z = c :: t /\ (c = 45 \/ 48 <= c <= 57).
Proof.
  unfold int_repr, Z.to_int. destruct z as [ | p | p].
  - do 2 eexists. split; [reflexivity | right; lia].
  - destruct (to_uint_head p) as (c & ds & -> & Hc).
    do 2 eexists. split; [reflexivity | right; lia].
  - do 2 eexists. split; [reflexivity | left; reflexivity].
Qed.

Lemma text_head (o : pyval) :
  decodable o -> exists c t, text o = c :: t /\ value_start c.
Proof.
  unfold value_start.
  destruct o as [ | [ | ] | z | f | s | l | l | d | t]; intros H;
    try contradiction;
    try (do 2 eexists; split; [reflexivity | tauto]).
  destruct (int_repr_head z) as (c & t & Hc & Hr).
  exists c, t. split; [exact Hc | tauto].
Qed.

Lemma skip_ws_start (c : N) (t : pystr) :
  value_start c \/ c = 44 \/ c = 93 \/ c = 125 \/ c = 58 ->
  skip_ws (c :: t) = c :: t.
Proof.
  intros H. cbn [skip_ws]. unfold is_ws.
  repeat match goal with
         | |- context [?x =? ?y] => destruct (N.eqb_spec x y)
         end; try reflexivity; unfold value_start in H; lia.
Qed.

Lemma skip_ws_text (o : pyval) (rest : pystr) :
  decodable o -> skip_ws (text o ++ rest) = text o ++ rest.
Proof.
  intros H. destruct (text_head o H) as (c & t & -> & Hc).
  apply skip_ws_start. tauto.
Qed.

Lemma skip_ws_delimited (rest : pystr) :
  delimited rest -> skip_ws rest = rest.
Proof.
  destruct rest as [ | c rest]; [reflexivity | ].
  intros H. apply skip_ws_start. cbn in H. tauto.
Qed.

Lemma scan_once_string (limit : N) (fuel : nat) (s rest : pystr) :
  valid_str s ->
  scan_once limit (S fuel) (Canonical.quoted s ++ rest)
  = Some (PyStr (join_pairs s), rest).
Proof.
  intros Hs. rewrite <- (quoted_encode _ Hs). unfold encode_basestring_ascii.
  rewrite <- !List.app_assoc. cbn [app scan_once].
  change (34 =? 34) with true. cbn match.
  rewrite scanstring_escaped by exact Hs. reflexivity.
Qed.

Lemma scan_once_number (limit : N) (fuel : nat) (z : Z) (rest : pystr) :
  digits_refused limit (int_digits z) = false ->
  delimited rest ->
  scan_once limit (S fuel) (int_repr z ++ rest) = Some (PyInt z, rest).
Proof.
  intros Hlimit Hrest. rewrite <- (scan_number_repr limit z rest Hlimit Hrest).
  destruct (int_repr_head z) as (c & t & -> & Hc).
  cbn [app scan_once].
  repeat match goal with
         | |- context [if ?x =? ?y then _ else _] =>
             destruct (N.eqb_spec x y); [lia | ]
         end.
  reflexivity.
Qed.

Lemma array_loop_encoded (limit : N) (lst : list pyval) :
  Forall (fun o => scans limit o /\ decodable o) lst ->
  forall value0 fuel rest,
    scans limit value0 ->
    (fold_right (fun o n => S (fuel_needed o + n)) O (value0 :: lst)
     <= fuel)%nat ->
    delimited rest ->
    array_loop limit fuel
      (text value0 ++ flat_map (fun o => ustr "," ++ text o) lst
       ++ ustr "]" ++ rest)
    = Some (List.map value (value0 :: lst), rest).
Proof.
  induction 1 as [ | o lst [Ho Hdec] _ IH];
    intros value0 fuel rest H0 Hfuel Hrest;
    cbn [fold_right] in Hfuel;
    (destruct fuel as [ | fuel]; [lia | ]); cbn [array_loop flat_map].
  - rewrite H0 by (cbn; auto; lia). cbn [app skip_ws].
    change (is_ws 93) with false. change (93 =? 93) with true.
    reflexivity.
  - rewrite <- !List.app_assoc. rewrite H0 by (cbn; auto; lia).
    change (ustr ",") with [44] at 1. cbn [app skip_ws].
    change (is_ws 44) with false. change (44 =? 93) with false.
    change (44 =? 44) with true. cbn match.
    rewrite skip_ws_text by exact Hdec.
    rewrite IH by (try assumption; cbn [fold_right]; lia). reflexivity.
Qed.

Lemma object_loop_encoded (limit : N) (dct : list (pykey * pyval)) :
  Forall (fun kv => valid_str (Canonical.key_name (fst kv))
                    /\ scans limit (snd kv) /\ decodable (snd kv)) dct ->
  forall key0 value0 fuel rest,
    valid_str key0 -> scans limit value0 -> decodable value0 ->
    (fold_right (fun kv n => S (fuel_needed (snd kv) + n)) O
                ((KStr key0, value0) :: dct) <= fuel)%nat ->
    delimited rest ->
    object_loop limit fuel
      (flat_map escape_char key0 ++ 34 :: 58 :: text value0
       ++ flat_map (fun kv => 44 :: 34
                              :: flat_map escape_char
                                          (Canonical.key_name (fst kv))
                              ++ 34 :: 58 :: text (snd kv)) dct
       ++ 125 :: rest)
    = Some (List.map (fun kv => (join_pairs (Canonical.key_name (fst kv)),
                                 value (snd kv)))
                     ((KStr key0, value0) :: dct), rest).
Proof.
  induction 1 as [ | [key1 value1] dct (Hk1 & Hv1 & Hdec1) _ IH];
    intros key0 value0 fuel rest Hk0 Hv0 Hdec0 Hfuel Hrest;
    cbn [fold_right fst snd] in *;
    (destruct fuel as [ | fuel]; [lia | ]); cbn [object_loop flat_map];
    rewrite scanstring_escaped by exact Hk0;
    rewrite (skip_ws_start 58) by tauto; chars;
    rewrite skip_ws_text by exact Hdec0.
  - rewrite Hv0 by (cbn; auto; lia).
    cbn [app]. rewrite (skip_ws_start 125) by tauto. chars. reflexivity.
  - rewrite <- !List.app_assoc. rewrite Hv0 by (cbn; auto; lia).
    cbn [app fst snd]. rewrite (skip_ws_start 44) by tauto. chars.
    rewrite (skip_ws_start 34) by (unfold value_start; tauto). chars.
    rewrite <- !List.app_assoc. cbn [app].
    specialize (IH (Canonical.key_name key1) value1 fuel rest Hk1 Hv1 Hdec1).
    cbn [List.map fst snd Canonical.key_name] in IH |- *.
    rewrite IH by (try assumption; cbn [fold_right fst snd]; lia).
    reflexivity.
Qed.

Lemma list_text (value0 : pyval) (lst : list pyval) (rest : pystr) :
  text (PyList (value0 :: lst)) ++ rest
  = 91 :: text value0 ++ flat_map (fun o => ustr "," ++ text o) lst
    ++ ustr "]" ++ rest.
Proof.
  cbn [Canonical.any List.map]. unfold Canonical.array.
  rewrite join_cons, flat_map_map, <- !List.app_assoc. reflexivity.
Qed.

Lemma dict_text (key0 : pystr) (value0 : pyval)
    (dct : list (pykey * pyval)) (rest : pystr) :
  valid_str key0 ->
  Forall (fun kv => valid_str (Canonical.key_name (fst kv))) dct ->
  text (PyDict ((KStr key0, value0) :: dct)) ++ rest
  = 123 :: 34 :: flat_map escape_char key0 ++ 34 :: 58 :: text value0
    ++ flat_map (fun kv => 44 :: 34
                           :: flat_map escape_char
                                       (Canonical.key_name (fst kv))
                           ++ 34 :: 58 :: text (snd kv)) dct
    ++ 125 :: rest.
Proof.
  intros Hk0 Hkeys. cbn [Canonical.any List.map fst snd Canonical.key_name].
  rewrite join_cons, flat_map_map, <- (quoted_encode _ Hk0).
  rewrite (flat_map_Forall_ext
             (fun kv => ustr "," ++ Canonical.quoted
                                      (Canonical.key_name (fst kv))
                        ++ ustr ":" ++ text (snd kv))
             (fun kv => 44 :: 34
                        :: flat_map escape_char (Canonical.key_name (fst kv))
                        ++ 34 :: 58 :: text (snd kv)))
    by (revert Hkeys; apply List.Forall_impl; intros kv Hkv;
        rewrite <- (quoted_encode _ Hkv); unfold encode_basestring_ascii;
        rewrite <- ?List.app_assoc; reflexivity).
  unfold encode_basestring_ascii. rewrite <- ?List.app_assoc. reflexivity.
Qed.

(** The decoder reads the text of a decodable value back, whatever
    follows the value, when it converts the integers of the value. *)
Lemma scan_once_encoded (limit : N) (o : pyval) :
  decodable o -> ints_within limit o = true -> scans limit o.
Proof.
  induction o as [ | [ | ] | z | f | s | l IH | l IH | d IH | t]
    using pyval_ind;
    intros Hdec Hints fuel rest Hfuel Hrest;
    (destruct fuel as [ | fuel]; [cbn in Hfuel; lia | ]);
    try reflexivity; try contradiction.
  - apply scan_once_number; [ | exact Hrest].
    apply negb_true_iff, Hints.
  - apply scan_once_string, Hdec.
  - apply decodable_list in Hdec.
    destruct l as [ | value0 lst]; [reflexivity | ].
    inversion IH as [ | ? ? IH0 IHl]; subst.
    inversion Hdec as [ | ? ? Hdec0 Hdecl]; subst.
    cbn [ints_within forallb] in Hints. apply andb_true_iff in Hints.
    destruct Hints as [Hints0 Hintsl]. rewrite forallb_forall in Hintsl.
    assert (Hloop := array_loop_encoded limit lst).
    specialize (Hloop ltac:(
      apply List.Forall_forall; intros o Ho;
      rewrite List.Forall_forall in IHl, Hdecl; auto)).
    specialize (Hloop value0 fuel rest (IH0 Hdec0 Hints0)).
    cbn [fuel_needed] in Hfuel.
    specialize (Hloop ltac:(cbn [fold_right] in *; lia) Hrest).
    rewrite list_text. cbn [scan_once]. chars.
    rewrite skip_ws_text by exact Hdec0.
    destruct (text_head value0 Hdec0) as (c & t & Hc & Hstart).
    rewrite Hc in *. cbn [app] in *.
    destruct (N.eqb_spec c 93); [unfold value_start in Hstart; lia | ].
    rewrite Hloop. reflexivity.
  - apply decodable_dict in Hdec. destruct Hdec as [Hnodup Hdec].
    destruct d as [ | [key0 value0] dct]; [reflexivity | ].
    inversion IH as [ | ? ? IH0 IHl]; subst.
    inversion Hdec as [ | ? ? [Hk0 Hdec0] Hdecl]; subst.
    cbn [fst snd] in *.
    destruct key0 as [key0 | | | | | ]; try contradiction.
    pose proof (Hk0 : valid_str key0) as Hvalid0.
    cbn [ints_within forallb fst snd] in Hints.
    apply andb_true_iff in Hints.
    destruct Hints as [Hints0 Hintsl]. rewrite forallb_forall in Hintsl.
    rewrite dict_text;
      [ | exact Hvalid0
        | revert Hdecl; apply List.Forall_impl; intros kv [Hk _];
          apply (str_key_name _ Hk) ].
    assert (Hloop := object_loop_encoded limit dct).
    specialize (Hloop ltac:(
      apply List.Forall_forall; intros kv Hkv;
      rewrite List.Forall_forall in IHl, Hdecl;
      destruct (Hdecl kv Hkv) as [Hk Hv];
      specialize (Hintsl kv Hkv); apply andb_true_iff in Hintsl;
      split; [apply (str_key_name _ Hk) | split; [ | exact Hv]];
      apply IHl; tauto)).
    specialize (Hloop _ value0 fuel rest Hvalid0 (IH0 Hdec0 Hints0) Hdec0).
    cbn [fuel_needed] in Hfuel.
    specialize (Hloop ltac:(cbn [fold_right fst snd] in *; lia) Hrest).
    cbn [scan_once]. chars.
    rewrite (skip_ws_start 34) by (unfold value_start; tauto). chars.
    rewrite Hloop. reflexivity.
Qed.

Lemma dict_set_fresh (d : list (pystr * pyval)) (key : pystr) (v : pyval) :
  ~ In key (List.map fst d) -> dict_set d key v = d ++ [(key, v)].
Proof.
  induction d as [ | [k v'] d IH]; intros Hin; [reflexivity | ].
  cbn [dict_set app]. cbn [List.map fst In] in Hin.
  rewrite bool_decide_eq_false_2 by tauto. rewrite IH by tauto.
  reflexivity.
Qed.

Lemma dict_of_pairs_distinct (pairs : list (pystr * pyval)) :
  NoDup (List.map fst pairs) -> dict_of_pairs pairs = pairs.
Proof.
  unfold dict_of_pairs.
  assert (H : forall acc,
    NoDup (List.map fst (acc ++ pairs)) ->
    fold_left (fun d kv => dict_set d (fst kv) (snd kv)) pairs acc
    = acc ++ pairs).
  { induction pairs as [ | [k v] pairs IH]; intros acc Hnd.
    - cbn. rewrite List.app_nil_r. reflexivity.
    - cbn [fold_left fst snd]. rewrite dict_set_fresh.
      + rewrite IH; rewrite <- List.app_assoc; [reflexivity | exact Hnd].
      + rewrite List.map_app in Hnd. cbn [List.map fst] in Hnd.
        apply NoDup_ListNoDup, List.NoDup_remove_2 in Hnd.
        intros Hin. apply Hnd.
        apply List.in_or_app. left. exact Hin. }
  intros Hnd. apply (H []). exact Hnd.
Qed.

(** The dictionary that the decoder builds from the members of a
    decodable dictionary. *)
Lemma value_dict (dct : list (pykey * pyval)) :
  decodable (PyDict dct) ->
  value (PyDict dct)
  = PyDict (List.map (fun kv => (KStr (join_pairs
                                         (Canonical.key_name (fst kv))),
                                 value (snd kv)))
                     dct).
Proof.
  intros Hdec. apply decodable_dict in Hdec. destruct Hdec as [Hnodup _].
  cbn [value]. rewrite dict_of_pairs_distinct
    by (rewrite List.map_map; exact Hnodup).
  unfold str_items. rewrite List.map_map. reflexivity.
Qed.

Lemma elements_ext (limit : N) (units : nat) (enter : pyval -> emit)
    (l l' : list pyval) :
  Forall2 (fun a b => scalar limit units a = scalar limit units b
                      /\ enter a = enter b) l l' ->
  elements limit units enter l = elements limit units enter l'.
Proof.
  induction 1 as [ | a b l l' [Hs He] _ IH]; [reflexivity | ].
  cbn [elements]. unfold element. rewrite Hs, He, IH. reflexivity.
Qed.

Lemma members_ext (limit : N) (units : nat) (enter : pyval -> emit)
    (d d' : list (pykey * pyval)) :
  Forall2 (fun a b => forall first, member limit units enter first a
                                    = member limit units enter first b)
          d d' ->
  members limit units enter d = members limit units enter d'.
Proof.
  induction 1 as [ | a b d d' Hab _ IH]; [reflexivity | ].
  cbn [members]. rewrite Hab, IH. reflexivity.
Qed.

Lemma Forall2_map_r {A B} (R : A -> B -> Prop) (f : A -> B) (l : list A) :
  Forall (fun a => R a (f a)) l -> Forall2 R l (List.map f l).
Proof. induction 1; cbn; constructor; assumption. Qed.

(** The encoder does on the value that the decoder returns what it does
    on the value that was encoded. *)
Lemma enter_value (limit : N) (o : pyval) :
  decodable o ->
  forall units,
    scalar limit units (value o) = scalar limit units o
    /\ enter limit units (value o) = enter limit units o.
Proof.
  induction o as [ | b | z | f | s | l IH | l IH | d IH | t] using pyval_ind;
    intros Hdec units; try (split; reflexivity); try contradiction.
  - cbn [value scalar]. rewrite encode_join_pairs.
    split; [reflexivity | destruct units; reflexivity].
  - apply decodable_list in Hdec. split; [reflexivity | ].
    destruct units as [ | inside]; [reflexivity | ]. cbn [value enter].
    assert (H : Forall2 (fun a b =>
                           scalar limit inside a = scalar limit inside b
                           /\ enter limit inside a = enter limit inside b)
                        (List.map value l) l).
    { apply Forall2_flip, Forall2_map_r. apply List.Forall_forall.
      intros o Ho. rewrite List.Forall_forall in IH, Hdec.
      destruct (IH o Ho (Hdec o Ho) inside) as [-> ->]. auto. }
    destruct H as [ | a b l1 l2 [Hs He] Hl]; [reflexivity | ].
    unfold iterencode_list, element.
    rewrite Hs, He, (elements_ext _ _ _ _ _ Hl). reflexivity.
  - split; [rewrite (value_dict _ Hdec); reflexivity | ].
    rewrite (value_dict _ Hdec).
    apply decodable_dict in Hdec. destruct Hdec as [_ Hdec].
    destruct units as [ | inside]; [reflexivity | ]. cbn [enter].
    assert (H : Forall2
                  (fun a b => forall first,
                     member limit inside (enter limit inside) first a
                     = member limit inside (enter limit inside) first b)
                  (List.map (fun kv =>
                               (KStr (join_pairs
                                        (Canonical.key_name (fst kv))),
                                value (snd kv)))
                            d) d).
    { apply Forall2_flip, Forall2_map_r. apply List.Forall_forall.
      intros kv Hkv first. rewrite List.Forall_forall in IH, Hdec.
      destruct (Hdec kv Hkv) as [Hk Hv].
      destruct (IH kv Hkv Hv inside) as [Hs He].
      destruct kv as [key v]. cbn [fst snd] in *.
      destruct key as [key | | | | | ]; try contradiction.
      unfold member. cbn [fst snd key_text Canonical.key_name].
      rewrite encode_join_pairs, Hs, He. reflexivity. }
    destruct H as [ | a b l1 l2 Hab Hl]; [reflexivity | ].
    unfold iterencode_dict.
    rewrite Hab, (members_ext _ _ _ _ _ Hl). reflexivity.
Qed.

Lemma iterencode_value (limit : N) (units : nat) (o : pyval) :
  decodable o ->
  iterencode limit units (value o) = iterencode limit units o.
Proof.
  intros Hdec. destruct (enter_value limit o Hdec units) as [Hs He].
  unfold iterencode. rewrite Hs, He.
  destruct o; try reflexivity; contradiction.
Qed.

Lemma length_items {A} (item : A -> pystr) (need : A -> nat)
    (l : list A) :
  Forall (fun x => (need x <= List.length (item x))%nat) l ->
  (fold_right (fun x n => S (need x + n)) O l
   <= List.length (flat_map (fun x => ustr "," ++ item x) l))%nat.
Proof.
  induction 1 as [ | x l Hx Hl IH]; [cbn; lia | ].
  cbn [fold_right flat_map]. rewrite !List.length_app.
  change (List.length (ustr ",")) with 1%nat. lia.
Qed.

(** The length of the text is fuel enough. *)
Lemma fuel_needed_length (o : pyval) :
  decodable o -> (fuel_needed o <= List.length (text o))%nat.
Proof.
  induction o as [ | [ | ] | z | f | s | l IH | l IH | d IH | t]
    using pyval_ind;
    intros Hdec; try (cbn; lia); try contradiction.
  - destruct (int_repr_head z) as (c & r & Hc & _).
    cbn [Canonical.any fuel_needed]. rewrite Hc. cbn. lia.
  - apply decodable_list in Hdec.
    destruct l as [ | value0 lst]; [cbn; lia | ].
    inversion IH as [ | ? ? IH0 IHl]; subst.
    inversion Hdec as [ | ? ? Hdec0 Hdecl]; subst.
    pose proof (length_items Canonical.any fuel_needed lst) as Hrest.
    specialize (Hrest ltac:(
      apply List.Forall_forall; intros o Ho;
      rewrite List.Forall_forall in IHl, Hdecl; auto)).
    specialize (IH0 Hdec0).
    rewrite <- (List.app_nil_r (text (PyList (value0 :: lst)))), list_text.
    cbn [fuel_needed fold_right List.length].
    rewrite !List.length_app. change (List.length (ustr "]")) with 1%nat.
    lia.
  - apply decodable_dict in Hdec. destruct Hdec as [_ Hdec].
    destruct d as [ | kv0 dct]; [cbn; lia | ].
    inversion IH as [ | ? ? IH0 IHl]; subst.
    inversion Hdec as [ | ? ? [_ Hdec0] Hdecl]; subst.
    pose proof (length_items
                  (fun kv => Canonical.quoted (Canonical.key_name (fst kv))
                             ++ ustr ":" ++ text (snd kv))
                  (fun kv => fuel_needed (snd kv)) dct) as Hrest.
    specialize (Hrest ltac:(
      apply List.Forall_forall; intros kv Hkv;
      rewrite List.Forall_forall in IHl, Hdecl;
      rewrite !List.length_app;
      specialize (IHl kv Hkv (proj2 (Hdecl kv Hkv))); lia)).
    specialize (IH0 Hdec0).
    cbn [Canonical.any List.map]. rewrite join_cons, flat_map_map.
    cbn [fuel_needed fold_right].
    rewrite !List.length_app. change (List.length (ustr "{")) with 1%nat.
    change (List.length (ustr "}")) with 1%nat. lia.
Qed.

(** [loads] reads the text of a decodable value back into a value that
    the encoder treats as the value that was encoded. *)
Lemma loads_encoded (limit : N) (o : pyval) :
  decodable o -> ints_within limit o = true ->
  loads limit (text o) = Some (value o).
Proof.
  intros Hdec Hints. unfold loads.
  rewrite <- (List.app_nil_r (text o)) at 2.
  rewrite skip_ws_text by exact Hdec.
  rewrite (scan_once_encoded limit o Hdec Hints)
    by (try apply fuel_needed_length; try exact I; exact Hdec).
  reflexivity.
Qed.

(** The entries of the dictionary of a dataclass, one by one: the key is
    a literal, the value a string of the record, an integer or a
    container. *)
Ltac literal_str := apply python_chars; vm_compute; reflexivity.

Ltac distinct_keys := apply (bool_decide_unpack _); vm_compute; exact I.

Ltac dict_entries :=
  apply decodable_dict; split; [distinct_keys | ];
  repeat (apply List.Forall_cons;
          [split; [cbn [fst str_key]; literal_str | cbn [snd]] | ]);
  try apply List.Forall_nil.

Lemma addon_decodable (a : AddonPlugin.t) :
  Forall valid_str (addon_strings a) -> decodable (AddonPlugin.to_dict a).
Proof.
  intros H. unfold addon_strings in H.
  repeat (let Hs := fresh "Hs" in
          inversion H as [ | ? ? Hs H']; subst; clear H; rename H' into H).
  unfold AddonPlugin.to_dict. dict_entries; assumption.
Qed.

Lemma identification_decodable (l : LicenseId.t) :
  Forall valid_str (identification_strings l) ->
  decodable (PyList (LicenseId.features l)) ->
  decodable (LicenseId.to_dict l).
Proof.
  intros H Hfeatures. unfold identification_strings in H.
  apply List.Forall_app in H. destruct H as [H Haddons].
  repeat (let Hs := fresh "Hs" in
          inversion H as [ | ? ? Hs H']; subst; clear H; rename H' into H).
  unfold LicenseId.to_dict. dict_entries; try assumption; try exact I.
  apply decodable_list. apply List.Forall_map.
  apply List.Forall_forall. intros a Ha. apply addon_decodable.
  apply List.Forall_forall. intros s Hin.
  rewrite List.Forall_forall in Haddons. apply Haddons.
  apply in_flat_map. exists a. split; assumption.
Qed.

Lemma payload_decodable (p : LicensePayload.t) :
  valid_str (LicensePayload.name p) ->
  valid_str (LicensePayload.email p) ->
  Forall valid_str
         (flat_map identification_strings (LicensePayload.licenses p)) ->
  Forall (fun l => decodable (PyList (LicenseId.features l)))
         (LicensePayload.licenses p) ->
  decodable (LicensePayload.to_dict p).
Proof.
  intros Hname Hemail Hids Hfeatures.
  unfold LicensePayload.to_dict. dict_entries; try assumption.
  apply decodable_list. apply List.Forall_map.
  apply List.Forall_forall. intros l Hl.
  apply identification_decodable.
  - apply List.Forall_forall. intros s Hs.
    rewrite List.Forall_forall in Hids. apply Hids.
    apply in_flat_map. exists l. split; assumption.
  - rewrite List.Forall_forall in Hfeatures. apply Hfeatures, Hl.
Qed.

Lemma license_decodable (license : License.t) :
  python_license license -> decodable (License.to_dict license).
Proof.
  intros (Hstrings & Hheader & Hfeatures).
  inversion Hstrings as [ | ? ? Hsig H1]; subst.
  inversion H1 as [ | ? ? Hname H2]; subst.
  inversion H2 as [ | ? ? Hemail Hids]; subst. clear Hstrings H1 H2.
  unfold License.to_dict. dict_entries; try assumption.
  apply payload_decodable; assumption.
Qed.

(** A decodable value within the limits is read back from its text
    into a tree with the same text. *)
Lemma value_round_trip (limit : N) (units : nat) (o : pyval) :
  decodable o ->
  ints_within limit o = true -> (units_needed o <= units)%nat ->
  iterencode limit units o = (text o, None)
  /\ loads limit (text o) = Some (value o)
  /\ iterencode limit units (value o) = (text o, None).
Proof.
  intros Hdec Hints Hunits. destruct (decodable_json _ Hdec) as [Hser Hstr].
  pose proof (iterencode_complete _ _ _ Hser Hstr Hints Hunits) as Htext.
  split; [exact Htext | ].
  split; [apply loads_encoded; assumption | ].
  rewrite iterencode_value by exact Hdec. exact Htext.
Qed.

Lemma generated_python_license (start finish : pystr) :
  valid_str start -> valid_str finish ->
  python_license (generated start finish).
Proof.
  intros Hstart Hfinish. split; [ | split].
  - match goal with
    | |- Forall valid_str ?strings =>
        let computed := eval vm_compute in strings in
        change (Forall valid_str computed)
    end.
    repeat (apply List.Forall_cons;
            [first [assumption | literal_str] | ]).
    apply List.Forall_nil.
  - change (decodable (PyDict [(KStr (ustr "version"), PyInt 1)])).
    dict_entries. exact I.
  - apply List.Forall_cons; [exact I | apply List.Forall_nil].
Qed.
End ScanValue.

(** C8. The text of a generated license, decoded by [json.loads] and
    encoded again in the order of the decoded tree, is the same text,
    whatever the limit of the interpreter on the digits of an integer,
    with the seven units of recursion that the encoder needs for a
    generated license.  The provider answers Python strings
    ([valid_str]). *)
Theorem generated_license_round_trip {St} (tp : TimeProvider St)
    (s s1 s2 : St) (start finish : pystr) (limit : N) (units : nat) :
  valid_str start -> valid_str finish ->
  current_time s = (Return start, s1) ->
  future_time 10 s1 = (Return finish, s2) ->
  (7 <= units)%nat ->
  exists license text tree,
    LicenseGenerator.generate_license tp s = (Return license, s2)
    /\ Json.iterencode limit units (License.to_dict license) = (text, None)
    /\ JsonDecoder.loads limit text = Some tree
    /\ Json.iterencode limit units tree = (text, None).
Proof.
  intros Hstart Hfinish Hnow Hfuture Hunits.
  exists (generated start finish). do 2 eexists.
  split; [apply (generate_license_returns _ _ _ _ _ _ Hnow Hfuture) | ].
  apply value_round_trip.
  - apply license_decodable, generated_python_license; assumption.
  - reflexivity.
  - exact Hunits.
Qed.

Lemma generated_license_round_trip_witness :
  exists license text tree,
    LicenseGenerator.generate_license
      (FixedTimeProvider (ustr "2024-01-01 00:00:00")
                         (ustr "2034-01-01 00:00:00")) tt
    = (Return license, tt)
    /\ Json.iterencode 4300 7 (License.to_dict license) = (text, None)
    /\ JsonDecoder.loads 4300 text = Some tree
    /\ Json.iterencode 4300 7 tree = (text, None).
Proof.
  apply (generated_license_round_trip
           (FixedTimeProvider (ustr "2024-01-01 00:00:00")
                              (ustr "2034-01-01 00:00:00")) tt tt tt
           (ustr "2024-01-01 00:00:00") (ustr "2034-01-01 00:00:00"));
    try reflexivity; apply python_chars; reflexivity.
Defined.

(** * Further properties of the code *)

(** ** The loop over the catalog *)

Section Loop.
Variables start finish : pystr.

(** The loop appends one add-on per item and leaves the other fields of
    the identification as they are. *)
Lemma add_plugin_fold (items : list (nat * pystr)) (l0 : LicenseId.t) :
  fold_left (LicenseGenerator.add_plugin start finish) items l0
  = LicenseId.mk
      (LicenseId.id l0) (LicenseId.license_type l0) (LicenseId.product l0)
      (LicenseId.product_id l0) (LicenseId.edition_id l0)
      (LicenseId.seats l0) (LicenseId.start_date l0) (LicenseId.end_date l0)
      (LicenseId.issued_on l0) (LicenseId.owner l0)
      (LicenseId.add_ons l0
       ++ List.map (fun ip =>
                      AddonPlugin.init
                        (ustr "48-1337-DEAD-" ++ int_repr (Z.of_nat (fst ip)))
                        (snd ip) (LicenseId.id l0) start finish)
                   items)
      (LicenseId.features l0).
Proof.
  revert l0. induction items as [ | [i plugin] items IH]; intros l0.
  - destruct l0. cbn. rewrite List.app_nil_r. reflexivity.
  - cbn [fold_left]. rewrite IH. destruct l0. cbn.
    rewrite <- List.app_assoc. reflexivity.
Qed.
End Loop.

Lemma enumerate_fst {A} (l : list A) :
  List.map fst (enumerate l) = seq 0 (List.length l).
Proof.
  unfold enumerate. generalize 0%nat.
  induction l as [ | x l IH]; intros k; [reflexivity | ].
  cbn. rewrite IH. reflexivity.
Qed.

Lemma enumerate_snd {A} (l : list A) : List.map snd (enumerate l) = l.
Proof.
  unfold enumerate. generalize 0%nat.
  induction l as [ | x l IH]; intros k; [reflexivity | ].
  cbn. rewrite IH. reflexivity.
Qed.

Lemma uint_chars_inj (d d' : Decimal.uint) :
  uint_chars d = uint_chars d' -> d = d'.
Proof.
  revert d'. induction d; intros d' H; destruct d'; cbn in H;
    try discriminate; try reflexivity;
    f_equal; apply IHd; congruence.
Qed.

(** Two integers with the same decimal text are equal. *)
Lemma int_repr_inj (z z' : Z) : int_repr z = int_repr z' -> z = z'.
Proof.
  unfold int_repr. intros H. apply DecimalZ.to_int_inj.
  destruct (Z.to_int z) as [d | d], (Z.to_int z') as [d' | d'].
  - f_equal. apply uint_chars_inj, H.
  - pose proof (uint_chars_digits d) as Hd. rewrite H in Hd.
    inversion Hd; subst. lia.
  - pose proof (uint_chars_digits d') as Hd. rewrite <- H in Hd.
    inversion Hd; subst. lia.
  - f_equal. apply uint_chars_inj. congruence.
Qed.

(** X1. The [for] loop of [generate_license], run over any catalog from
    any identification: [enumerate] numbers the codes from 0 in their
    order, and the loop appends, behind the add-ons that the
    identification already has, one add-on per code, in the order of the
    catalog, with the number of the code in its [id], the [id] of the
    identification as [owner] and the two dates.  No other field of the
    identification changes. *)
Theorem add_plugin_loop (start finish : pystr) (plugins : list pystr)
    (license_id : LicenseId.t) :
  let items := enumerate plugins in
  List.map fst items = seq 0 (List.length plugins)
  /\ List.map snd items = plugins
  /\ fold_left (LicenseGenerator.add_plugin start finish) items license_id
     = LicenseId.mk
         (LicenseId.id license_id) (LicenseId.license_type license_id)
         (LicenseId.product license_id) (LicenseId.product_id license_id)
         (LicenseId.edition_id license_id) (LicenseId.seats license_id)
         (LicenseId.start_date license_id) (LicenseId.end_date license_id)
         (LicenseId.issued_on license_id) (LicenseId.owner license_id)
         (LicenseId.add_ons license_id
          ++ List.map (fun ip =>
                         AddonPlugin.init
                           (ustr "48-1337-DEAD-"
                            ++ int_repr (Z.of_nat (fst ip)))
                           (snd ip) (LicenseId.id license_id) start finish)
                      items)
         (LicenseId.features license_id).
Proof.
  cbv zeta. split; [apply enumerate_fst | ].
  split; [apply enumerate_snd | apply add_plugin_fold].
Qed.

(** X2. Whatever the catalog, even with a code that occurs twice, the
    add-ons that the loop builds from an identification without add-ons
    have pairwise distinct ids. *)
Theorem add_on_ids_distinct (start finish : pystr) (plugins : list pystr)
    (license_id : LicenseId.t) :
  LicenseId.add_ons license_id = [] ->
  NoDup (List.map AddonPlugin.id
           (LicenseId.add_ons
              (fold_left (LicenseGenerator.add_plugin start finish)
                         (enumerate plugins) license_id))).
Proof.
  intros Hempty. rewrite add_plugin_fold. cbn [LicenseId.add_ons].
  rewrite Hempty. cbn [app]. rewrite List.map_map. cbn [AddonPlugin.id].
  rewrite <- (List.map_map fst
                (fun i => ustr "48-1337-DEAD-" ++ int_repr (Z.of_nat i))).
  rewrite enumerate_fst. apply NoDup_fmap_2; [ | apply NoDup_seq].
  intros i j H. apply List.app_inv_head, int_repr_inj in H. lia.
Qed.

Lemma add_on_ids_distinct_witness :
  NoDup (List.map AddonPlugin.id
           (LicenseId.add_ons
              (fold_left (LicenseGenerator.add_plugin
                            (ustr "2024-01-01 00:00:00")
                            (ustr "2033-12-29 00:00:00"))
                         (enumerate [ustr "HEXX86"; ustr "HEXX86"])
                         (LicenseId.init (ustr "2024-01-01 00:00:00")
                                         (ustr "2033-12-29 00:00:00")
                                         (ustr "2024-01-01 00:00:00"))))).
Proof. apply add_on_ids_distinct. reflexivity. Defined.

(** X3. [generate_license] raises what the provider raises and builds
    no license then: when [current_time()] raises, the exception leaves
    [generate_license] in the state of that call, so [future_time] is
    not called; when [future_time(10)] raises after [current_time()] has
    returned, its exception leaves [generate_license]; when both return,
    a license is returned. *)
Theorem generate_license_propagates {St} (tp : TimeProvider St) (s : St) :
  match current_time s with
  | (Raise e, s1) => LicenseGenerator.generate_license tp s = (Raise e, s1)
  | (Return start, s1) =>
      match future_time 10 s1 with
      | (Raise e, s2) =>
          LicenseGenerator.generate_license tp s = (Raise e, s2)
      | (Return finish, s2) =>
          exists license,
            LicenseGenerator.generate_license tp s = (Return license, s2)
      end
  end.
Proof.
  unfold LicenseGenerator.generate_license, bind.
  destruct (current_time s) as [[start | e] s1]; [ | reflexivity].
  destruct (future_time 10 s1) as [[finish | e] s2]; [ | reflexivity].
  eexists. reflexivity.
Qed.

(** ** The order of the calendar *)

Section CalendarOrder.
Import Datetime.
Local Open Scope Z_scope.

Lemma days_before_year_next (y : Z) :
  days_before_year (y + 1)
  = days_before_year y + (if is_leap y then 366 else 365).
Proof.
  unfold days_before_year, is_leap.
  repeat match goal with
         | |- context [?x mod ?y =? 0] => destruct (Z.eqb_spec (x mod y) 0)
         end; cbn [andb orb negb];
    Z.to_euclidean_division_equations; lia.
Qed.

Lemma days_before_year_mono (y y' : Z) :
  y <= y' -> days_before_year y <= days_before_year y'.
Proof.
  intros H. unfold days_before_year.
  Z.to_euclidean_division_equations. lia.
Qed.

Lemma month_cases (m : Z) :
  1 <= m <= 12 ->
  m = 1 \/ m = 2 \/ m = 3 \/ m = 4 \/ m = 5 \/ m = 6 \/ m = 7 \/ m = 8
  \/ m = 9 \/ m = 10 \/ m = 11 \/ m = 12.
Proof. lia. Qed.

(** The day of the year of a date is a day of that year. *)
Lemma day_of_year_bounds (y m d : Z) :
  1 <= m <= 12 -> 1 <= d <= days_in_month y m ->
  1 <= days_before_month y m + d <= (if is_leap y then 366 else 365).
Proof.
  intros Hm. apply month_cases in Hm.
  unfold days_before_month, days_in_month.
  destruct (is_leap y);
    repeat (destruct Hm as [-> | Hm]; [table_lookup; lia | ]); subst;
    table_lookup; lia.
Qed.

(** Two dates of a year on the same day of the year are the same date. *)
Lemma day_of_year_inj (y m d m' d' : Z) :
  1 <= m <= 12 -> 1 <= d <= days_in_month y m ->
  1 <= m' <= 12 -> 1 <= d' <= days_in_month y m' ->
  days_before_month y m + d = days_before_month y m' + d' ->
  m = m' /\ d = d'.
Proof.
  intros Hm Hd Hm' Hd' H. apply month_cases in Hm, Hm'.
  revert Hd Hd' H. unfold days_before_month, days_in_month.
  destruct (is_leap y);
    repeat (destruct Hm as [-> | Hm];
            [repeat (destruct Hm' as [-> | Hm']; [table_lookup; lia | ]);
             subst; table_lookup; lia | ]);
    subst;
    repeat (destruct Hm' as [-> | Hm']; [table_lookup; lia | ]);
    subst; table_lookup; lia.
Qed.

(** The ordinal of a [datetime] is at most the one of 9999-12-31. *)
Lemma toordinal_max (self : datetime) :
  valid self -> 1 <= toordinal self <= MAXORDINAL.
Proof.
  intros (Hy & Hm & Hd & _). unfold toordinal, ymd2ord.
  pose proof (day_of_year_bounds _ _ _ Hm Hd) as Hday.
  pose proof (days_before_year_next (year self)) as Hnext.
  unfold MINYEAR, MAXYEAR in Hy.
  pose proof (days_before_year_mono 1 (year self) ltac:(lia)) as Hlow.
  pose proof (days_before_year_mono (year self + 1) 10000 ltac:(lia)) as Hup.
  change (days_before_year 1) with 0 in Hlow.
  change (days_before_year 10000) with 3652059 in Hup.
  unfold MAXORDINAL. destruct (is_leap (year self)); lia.
Qed.

(** Two dates with the same ordinal are the same date. *)
Lemma toordinal_inj (a b : datetime) :
  valid a -> valid b -> toordinal a = toordinal b ->
  year a = year b /\ month a = month b /\ day a = day b.
Proof.
  intros (Hya & Hma & Hda & _) (Hyb & Hmb & Hdb & _) H.
  unfold toordinal, ymd2ord in H.
  pose proof (day_of_year_bounds _ _ _ Hma Hda) as Hdaya.
  pose proof (day_of_year_bounds _ _ _ Hmb Hdb) as Hdayb.
  pose proof (days_before_year_next (year a)) as Hnexta.
  pose proof (days_before_year_next (year b)) as Hnextb.
  assert (Hy : year a = year b).
  { destruct (Z.lt_trichotomy (year a) (year b)) as [Hlt | [Heq | Hgt]];
      [ | exact Heq | ].
    - pose proof (days_before_year_mono (year a + 1) (year b) ltac:(lia)).
      destruct (is_leap (year a)); lia.
    - pose proof (days_before_year_mono (year b + 1) (year a) ltac:(lia)).
      destruct (is_leap (year b)); lia. }
  split; [exact Hy | ].
  rewrite Hy in *. apply (day_of_year_inj (year b)); try assumption. lia.
Qed.

Lemma datetime_eq (a b : datetime) :
  valid a -> valid b -> toordinal a = toordinal b ->
  hour a = hour b -> minute a = minute b -> second a = second b ->
  microsecond a = microsecond b -> a = b.
Proof.
  intros Ha Hb Hord Hh Hm Hs Hus.
  destruct (toordinal_inj _ _ Ha Hb Hord) as (Hy & Hmo & Hd).
  destruct a, b. cbn in *. congruence.
Qed.

(** [self + timedelta(days=0)] is [self]. *)
Lemma add_zero (self : datetime) :
  valid self -> add self (mkdelta 0 0 0) = Return self.
Proof.
  intros Hvalid. pose proof (toordinal_max _ Hvalid) as Hord.
  destruct (add_days self 0 Hvalid)
    as (future & Hadd & Hv & Ho & Hh & Hm & Hs & Hus); [lia | ].
  rewrite Hadd. f_equal. apply datetime_eq; try assumption. lia.
Qed.

(** The same month and day ten years later are 3651 to 3653 days
    away: one to three leap days lie between. *)
Lemma ten_years_days (y m d : Z) :
  3651 <= ymd2ord (y + 10) m d - ymd2ord y m d <= 3653.
Proof.
  unfold ymd2ord, days_before_month, days_before_year, is_leap.
  set (t := nth (Z.to_nat m) DAYS_BEFORE_MONTH 0). clearbody t.
  destruct (2 <? m);
    repeat match goal with
           | |- context [?x mod ?y =? 0] => destruct (Z.eqb_spec (x mod y) 0)
           end; cbn [andb orb negb];
    Z.to_euclidean_division_equations; lia.
Qed.
End CalendarOrder.

(** ** The texts of the moments *)

Section Timestamp.
Import Datetime.
Local Open Scope Z_scope.

Lemma digit_inj (x y : Z) :
  0 <= x < 10 -> 0 <= y < 10 -> digit x = digit y -> x = y.
Proof. unfold digit. lia. Qed.

Lemma pad2_inj (n m : Z) :
  0 <= n < 100 -> 0 <= m < 100 -> pad2 n = pad2 m -> n = m.
Proof.
  intros Hn Hm H. unfold pad2 in H. injection H as H1 H0.
  apply digit_inj in H1, H0; try (apply Z.mod_pos_bound; lia).
  Z.to_euclidean_division_equations. lia.
Qed.

Lemma pad4_inj (n m : Z) :
  0 <= n < 10000 -> 0 <= m < 10000 -> pad4 n = pad4 m -> n = m.
Proof.
  intros Hn Hm H. unfold pad4 in H. injection H as H3 H2 H1 H0.
  apply digit_inj in H3, H2, H1, H0; try (apply Z.mod_pos_bound; lia).
  Z.to_euclidean_division_equations. lia.
Qed.

(** Digits before a hyphen are read off a text in one way only. *)
Lemma digits_split (l l' r r' : pystr) :
  Forall (fun c => (48 <= c <= 57)%N) l ->
  Forall (fun c => (48 <= c <= 57)%N) l' ->
  l ++ 45%N :: r = l' ++ 45%N :: r' -> l = l' /\ r = r'.
Proof.
  intros Hl. revert l'.
  induction Hl as [ | c l Hc Hl IH]; intros l' Hl' H.
  - destruct Hl' as [ | c' l' Hc' Hl']; cbn in H.
    + split; congruence.
    + injection H as H _. lia.
  - destruct Hl' as [ | c' l' Hc' Hl']; cbn in H.
    + injection H as H _. lia.
    + injection H as -> H. destruct (IH _ Hl' H) as [-> ->]. auto.
Qed.

Lemma int_repr_digits (z : Z) :
  0 <= z -> Forall (fun c => (48 <= c <= 57)%N) (int_repr z).
Proof.
  intros Hz. unfold int_repr.
  destruct z as [ | p | p]; [ | | lia]; cbn [Z.to_int];
    apply uint_chars_digits.
Qed.

Lemma format_year_inj (zero_padded : bool) (y y' : Z) (r r' : pystr) :
  1 <= y <= 9999 -> 1 <= y' <= 9999 ->
  format_year zero_padded y ++ 45%N :: r
  = format_year zero_padded y' ++ 45%N :: r' ->
  y = y' /\ r = r'.
Proof.
  intros Hy Hy' H. unfold format_year in H. destruct zero_padded.
  - assert (Hp : pad4 y = pad4 y' /\ r = r').
    { unfold pad4 in *. cbn [app] in H. injection H as -> -> -> -> ->.
      auto. }
    destruct Hp as [Hp ->]. apply pad4_inj in Hp; [auto | lia | lia].
  - apply digits_split in H; try (apply int_repr_digits; lia).
    destruct H as [H ->]. apply int_repr_inj in H. auto.
Qed.

(** The text of a moment tells its date and its time to the second. *)
Lemma strftime_inj (zero_padded : bool) (a b : datetime) :
  valid a -> valid b ->
  strftime zero_padded a = strftime zero_padded b ->
  year a = year b /\ month a = month b /\ day a = day b
  /\ hour a = hour b /\ minute a = minute b /\ second a = second b.
Proof.
  intros (Hya & Hma & Hda & Hha & Hmia & Hsa & _)
         (Hyb & Hmb & Hdb & Hhb & Hmib & Hsb & _) H.
  pose proof (days_in_month_bounds (year a) _ Hma).
  pose proof (days_in_month_bounds (year b) _ Hmb).
  unfold MINYEAR, MAXYEAR in *. unfold strftime in H.
  change (ustr "-") with [45%N] in H. cbn [app] in H.
  apply format_year_inj in H; [ | lia | lia]. destruct H as [Hy H].
  assert (Hparts : pad2 (month a) = pad2 (month b)
                   /\ pad2 (day a) = pad2 (day b)
                   /\ pad2 (hour a) = pad2 (hour b)
                   /\ pad2 (minute a) = pad2 (minute b)
                   /\ pad2 (second a) = pad2 (second b)).
  { unfold pad2 in *. cbn [app ustr list_ascii_of_string List.map] in H.
    injection H as -> -> -> -> -> -> -> -> -> ->. repeat split. }
  destruct Hparts as (Hmo & Hd & Hh & Hmi & Hs).
  apply pad2_inj in Hmo, Hd, Hh, Hmi, Hs; lia.
Qed.

End Timestamp.

(** ** [DefaultTimeProvider] on the whole calendar *)

(** X4. On a clock that reads a valid [datetime], [future_time(0)]
    returns what [current_time()] returns on the same reading, and
    leaves the clock as [current_time()] leaves it. *)
Theorem future_time_zero (w : World) :
  Datetime.valid (clock w (reads w)) ->
  DefaultTimeProvider.future_time 0 w = DefaultTimeProvider.current_time w.
Proof.
  intros Hvalid.
  unfold DefaultTimeProvider.future_time, DefaultTimeProvider.current_time,
    bind, datetime_now.
  change (Datetime.timedelta_new (365 * 0) 0 0)
    with (Return (A := Datetime.timedelta) (Datetime.mkdelta 0 0 0)).
  cbv beta iota. rewrite (add_zero _ Hvalid). reflexivity.
Qed.

Lemma future_time_zero_witness :
  DefaultTimeProvider.future_time 0 world_2024
  = DefaultTimeProvider.current_time world_2024.
Proof.
  apply future_time_zero. cbv. intuition discriminate.
Defined.

(** X5. No [datetime] has a date 10006 times 365 days or more away:
    on every clock that reads a valid [datetime], [future_time(years)]
    raises [OverflowError] after one reading of the clock when [years]
    is 10006 or more, or -10006 or less.  The default of the parameter,
    999999, is such a number: [future_time()] never returns. *)
Theorem future_time_out_of_reach (w : World) (years : Z) :
  Datetime.valid (clock w (reads w)) ->
  (10006 <= Z.abs years)%Z ->
  DefaultTimeProvider.future_time years w = (Raise OverflowError, ticked w).
Proof.
  intros Hvalid Hyears. apply future_time_raises; [exact Hvalid | ].
  pose proof (toordinal_max _ Hvalid) as Hord.
  unfold Datetime.MAXORDINAL in *. lia.
Qed.

Lemma future_time_out_of_reach_witness :
  DefaultTimeProvider.future_time DefaultTimeProvider.years_default world_2024
  = (Raise OverflowError, ticked world_2024).
Proof.
  apply future_time_out_of_reach.
  - cbv. intuition discriminate.
  - vm_compute. discriminate.
Defined.

(** X6. [future_time(10)] falls short of ten calendar years: on a clock
    that reads a valid [datetime] of a year up to 9989 it returns the
    text of a moment that is one to three days before the same month and
    day ten years after the reading. *)
Theorem future_time_short_of_ten_years (w : World) :
  let now := clock w (reads w) in
  Datetime.valid now ->
  (Datetime.year now + 10 <= Datetime.MAXYEAR)%Z ->
  exists future,
    DefaultTimeProvider.future_time 10 w
    = (Return (Datetime.strftime (pads_year w) future), ticked w)
    /\ (1 <= Datetime.ymd2ord (Datetime.year now + 10) (Datetime.month now)
               (Datetime.day now)
             - Datetime.toordinal future <= 3)%Z.
Proof.
  intros now Hvalid Hyear.
  pose proof (ten_years_days (Datetime.year now) (Datetime.month now)
                (Datetime.day now)) as Hten.
  fold (Datetime.toordinal now) in Hten.
  pose proof (toordinal_max _ Hvalid) as Hord.
  assert (Hrange : (Datetime.toordinal now + 365 * 10
                    <= Datetime.MAXORDINAL)%Z).
  { destruct Hvalid as (_ & Hm & Hd & _).
    pose proof (days_before_month_bounds (Datetime.year now + 10) _ Hm).
    pose proof (days_in_month_bounds (Datetime.year now) _ Hm).
    pose proof (days_before_year_mono (Datetime.year now + 10) 9999 Hyear)
      as Hup.
    change (Datetime.days_before_year 9999) with 3651694%Z in Hup.
    unfold Datetime.ymd2ord in Hten. unfold Datetime.MAXORDINAL. lia. }
  destruct (future_time_returns w 10 Hvalid) as (future & Hret & _ & Hf & _);
    [fold now; lia | ].
  exists future. split; [exact Hret | ]. fold now in Hf. lia.
Qed.

Lemma future_time_short_of_ten_years_witness :
  exists future,
    DefaultTimeProvider.future_time 10 world_2024
    = (Return (Datetime.strftime false future), ticked world_2024)
    /\ (1 <= Datetime.ymd2ord 2034 1 1 - Datetime.toordinal future <= 3)%Z.
Proof.
  apply (future_time_short_of_ten_years world_2024).
  - cbv. intuition discriminate.
  - vm_compute. discriminate.
Defined.

(** X7. The text of [current_time()] tells the reading to the second
    and no further: on one platform, two clocks that read valid
    [datetime]s get the same text exactly when the two readings agree in
    year, month, day, hour, minute and second. *)
Theorem current_time_identifies_second (w1 w2 : World) :
  pads_year w1 = pads_year w2 ->
  Datetime.valid (clock w1 (reads w1)) ->
  Datetime.valid (clock w2 (reads w2)) ->
  let a := clock w1 (reads w1) in
  let b := clock w2 (reads w2) in
  fst (DefaultTimeProvider.current_time w1)
  = fst (DefaultTimeProvider.current_time w2)
  <-> Datetime.year a = Datetime.year b
      /\ Datetime.month a = Datetime.month b
      /\ Datetime.day a = Datetime.day b
      /\ Datetime.hour a = Datetime.hour b
      /\ Datetime.minute a = Datetime.minute b
      /\ Datetime.second a = Datetime.second b.
Proof.
  intros Hpads Ha Hb a b. rewrite !current_time_returns. cbn [fst].
  rewrite Hpads. fold a b. split.
  - intros H. apply (strftime_inj (pads_year w2)); try assumption.
    congruence.
  - intros (Hy & Hm & Hd & Hh & Hmi & Hs). unfold Datetime.strftime.
    rewrite Hy, Hm, Hd, Hh, Hmi, Hs. reflexivity.
Qed.

Lemma current_time_identifies_second_witness :
  fst (DefaultTimeProvider.current_time world_midnight)
  = fst (DefaultTimeProvider.current_time world_2024)
  <-> (2024 = 2024 /\ 1 = 1 /\ 1 = 1 /\ 23 = 0 /\ 59 = 0 /\ 59 = 0)%Z.
Proof.
  apply (current_time_identifies_second world_midnight world_2024);
    [reflexivity | cbv; intuition discriminate | cbv; intuition discriminate].
Defined.

(** ** The generator on the system clock *)

(** X8. A generator made without a provider reads the system clock
    twice: [start_date] is the text of the first reading, [end_date] the
    text of the moment 3650 days after the second reading, at the time
    of the day of the second reading.  The second reading is a valid
    [datetime] that leaves room for the 3650 days. *)
Theorem generate_license_reads_twice (w : World) :
  Datetime.valid (clock w (S (reads w))) ->
  (Datetime.toordinal (clock w (S (reads w))) + 3650
   <= Datetime.MAXORDINAL)%Z ->
  exists license license_id future,
    LicenseGenerator.generate_license (LicenseGenerator.init None) w
    = (Return license, ticked (ticked w))
    /\ LicensePayload.licenses (License.payload license) = [license_id]
    /\ LicenseId.start_date license_id
       = Datetime.strftime (pads_year w) (clock w (reads w))
    /\ LicenseId.end_date license_id
       = Datetime.strftime (pads_year w) future
    /\ Datetime.toordinal future
       = (Datetime.toordinal (clock w (S (reads w))) + 3650)%Z
    /\ Datetime.hour future = Datetime.hour (clock w (S (reads w)))
    /\ Datetime.minute future = Datetime.minute (clock w (S (reads w)))
    /\ Datetime.second future = Datetime.second (clock w (S (reads w))).
Proof.
  intros Hvalid Hrange.
  destruct (future_time_returns (ticked w) 10)
    as (future & Hfuture & _ & Hord & Hh & Hm & Hs & _); [exact Hvalid | | ].
  { pose proof (toordinal_bounds _ Hvalid).
    cbn [ticked set_reads clock reads]. lia. }
  eexists. eexists. exists future. split.
  - apply (generate_license_returns DefaultTimeProvider_TimeProvider
             w (ticked w) (ticked (ticked w)) _ _
             (current_time_returns w) Hfuture).
  - repeat split; assumption.
Qed.

Lemma generate_license_reads_twice_witness :
  exists license license_id,
    LicenseGenerator.generate_license (LicenseGenerator.init None)
                                      world_midnight
    = (Return license, ticked (ticked world_midnight))
    /\ LicensePayload.licenses (License.payload license) = [license_id]
    /\ LicenseId.start_date license_id = ustr "2024-01-01 23:59:59"
    /\ LicenseId.end_date license_id = ustr "2033-12-30 00:00:00".
Proof.
  assert (Hvalid : Datetime.valid (Datetime.mk 2024 1 2 0 0 0 0))
    by (cbv; intuition discriminate).
  destruct (generate_license_reads_twice world_midnight Hvalid)
    as (license & license_id & future & Hgen & Hone & Hstart & Hend & _).
  { vm_compute. discriminate. }
  exists license, license_id.
  split; [exact Hgen | ]. split; [exact Hone | ]. split; [exact Hstart | ].
  assert (Hrun : LicenseGenerator.generate_license (LicenseGenerator.init None)
                   world_midnight
                 = (Return
                      (generated (ustr "2024-01-01 23:59:59")
                                 (ustr "2033-12-30 00:00:00")),
                    ticked (ticked world_midnight)))
    by reflexivity.
  rewrite Hrun in Hgen.
  assert (Hlic := f_equal (fun r => match fst r with
                                    | Return l =>
                                        List.map LicenseId.end_date
                                          (LicensePayload.licenses
                                             (License.payload l))
                                    | Raise _ => []
                                    end) Hgen).
  cbn beta in Hlic. cbn [fst] in Hlic. rewrite Hone in Hlic.
  cbn [List.map] in Hlic.
  injection Hlic as Hlic. rewrite <- Hlic. reflexivity.
Defined.

(** X9. When the 3650 days after the second reading of the clock, a
    valid [datetime], end past the last day of the year 9999, [main]
    raises [OverflowError] after the two readings: no file is written
    and nothing is printed. *)
Theorem main_raises_overflow (w : World) :
  Datetime.valid (clock w (S (reads w))) ->
  (Datetime.MAXORDINAL
   < Datetime.toordinal (clock w (S (reads w))) + 3650)%Z ->
  exists w',
    main w = (Raise OverflowError, w')
    /\ reads w' = S (S (reads w))
    /\ disk w' = disk w
    /\ stdout w' = stdout w
    /\ stderr w' = stderr w.
Proof.
  intros Hvalid Hrange.
  pose proof (future_time_raises (ticked w) 10 Hvalid) as Hraise.
  exists (ticked (ticked w)). split; [ | repeat split].
  unfold main, LicenseGenerator.init, LicenseGenerator.generate_license.
  unfold bind at 1 2.
  change (@current_time _ DefaultTimeProvider_TimeProvider w)
    with (DefaultTimeProvider.current_time w).
  rewrite current_time_returns.
  unfold bind.
  change (@future_time _ DefaultTimeProvider_TimeProvider 10 (ticked w))
    with (DefaultTimeProvider.future_time 10 (ticked w)).
  rewrite Hraise; [reflexivity | ].
  cbn [ticked set_reads clock reads]. lia.
Qed.

Lemma main_raises_overflow_witness :
  exists w',
    main world_9995 = (Raise OverflowError, w')
    /\ reads w' = 2%nat
    /\ disk w' = {[ 1 := ustr "stale" ]}
    /\ stdout w' = []
    /\ stderr w' = [].
Proof.
  apply (main_raises_overflow world_9995).
  - cbv. intuition discriminate.
  - vm_compute. reflexivity.
Defined.

Lemma future_time_state (w : World) (years : Z) :
  snd (DefaultTimeProvider.future_time years w) = ticked w.
Proof.
  unfold DefaultTimeProvider.future_time, bind, datetime_now.
  destruct (Datetime.timedelta_new (365 * years) 0 0) as [delta | e];
    [ | reflexivity].
  destruct (Datetime.add (clock w (reads w)) delta); reflexivity.
Qed.

Lemma generate_license_state (w : World) :
  snd (LicenseGenerator.generate_license DefaultTimeProvider_TimeProvider w)
  = ticked (ticked w).
Proof.
  unfold LicenseGenerator.generate_license.
  rewrite (bind_Return _ _ _ _ _ (current_time_returns w)).
  unfold bind.
  pose proof (future_time_state (ticked w) 10) as H.
  change (@future_time _ DefaultTimeProvider_TimeProvider 10 (ticked w))
    with (DefaultTimeProvider.future_time 10 (ticked w)).
  destruct (DefaultTimeProvider.future_time 10 (ticked w)) as [[finish | e] w2];
    cbn [snd] in H; subst w2; reflexivity.
Qed.

(** X10. Whatever the clock and the file system, and whether [main]
    returns or raises, it reads the clock exactly twice and leaves every
    file as it was but the one that the name [idapro.hexlic] denotes,
    under whatever name that file is known. *)
Theorem main_frame (w : World) :
  let w' := snd (main w) in
  (forall file,
     file <> inode w (ustr "idapro.hexlic") ->
     disk w' !! file = disk w !! file)
  /\ reads w' = S (S (reads w))
  /\ clock w' = clock w
  /\ unwritable w' = unwritable w.
Proof.
  cbv zeta. unfold main, bind.
  pose proof (generate_license_state w) as Hstate.
  change (LicenseGenerator.init None) with DefaultTimeProvider_TimeProvider.
  destruct (LicenseGenerator.generate_license
              DefaultTimeProvider_TimeProvider w) as [[license | e] w1];
    cbn [snd] in Hstate; subst w1; [ | cbn; auto].
  pose proof (write_json_keeps (License.to_dict license)
                (ustr "idapro.hexlic") (ticked (ticked w))) as Hframe.
  cbv zeta in Hframe.
  destruct (FileWriter.write_json (License.to_dict license)
              (ustr "idapro.hexlic") (ticked (ticked w)))
    as [[[ | ] | e] w2];
    cbn [snd] in Hframe;
    destruct Hframe
      as (Hclock & Hreads & _ & _ & _ & _ & Hopen & _ & _ & Hother);
    cbn [snd print ret set_stdout disk reads clock unwritable];
    rewrite ?Hclock, ?Hreads, ?Hopen; repeat split; exact Hother.
Qed.

(** ** The file that [write_json] leaves *)

(** The file system after [write_json]: the file that the name denotes
    holds what the device has kept of the text of the encoder, unless the
    name is no path or cannot be opened. *)
Lemma write_json_disk (data : pyval) (filename : pystr) (w : World) :
  disk (snd (FileWriter.write_json data filename w))
  = match path_error filename, unwritable w filename with
    | None, None =>
        <[inode w filename :=
            kept w (inode w filename)
                 (fst (Json.iterencode (int_max_str_digits w)
                                       (recursion_units w) data))]>
          (disk w)
    | _, _ => disk w
    end.
Proof.
  rewrite write_json_spec.
  destruct (path_error filename); [reflexivity | ].
  destruct (unwritable w filename); [reflexivity | ].
  cbv zeta. unfold fits, kept.
  destruct (capacity w (inode w filename)) as [[n msg] | ];
    [ | reflexivity].
  destruct (Nat.leb_spec
              (List.length (fst (Json.iterencode (int_max_str_digits w)
                                                 (recursion_units w) data)))
              n);
    [ | reflexivity].
  cbn [snd written set_disk disk]. rewrite List.firstn_all2 by lia.
  reflexivity.
Qed.

(** X11. Whatever the data and the outcome, [write_json] changes at
    most the file that the name denotes: the other files, the standard
    output and the clock stay as they were; when the name is no path or
    cannot be opened the whole file system stays as it was; and the
    standard error takes the diagnostic when the call returns [False]
    and stays as it was otherwise. *)
Theorem write_json_frame (data : pyval) (filename : pystr) (w : World) :
  let run := FileWriter.write_json data filename w in
  let w' := snd run in
  (forall file, file <> inode w filename -> disk w' !! file = disk w !! file)
  /\ (path_error filename <> None \/ unwritable w filename <> None ->
      disk w' = disk w)
  /\ (fst run <> Return false -> stderr w' = stderr w)
  /\ (fst run = Return false ->
      exists e, stderr w' = stderr w ++ ustr "Failed to open file :( -> "
                            ++ filename ++ [10] ++ e ++ [10])
  /\ stdout w' = stdout w
  /\ clock w' = clock w
  /\ reads w' = reads w
  /\ unwritable w' = unwritable w.
Proof.
  cbv zeta.
  destruct (write_json_keeps data filename w)
    as (Hclock & Hreads & _ & _ & _ & _ & Hopen & _ & Hstdout & Hother).
  split; [exact Hother | ].
  split.
  { rewrite write_json_disk. destruct (path_error filename);
      [reflexivity | ].
    destruct (unwritable w filename); [reflexivity | ].
    intros [H | H]; congruence. }
  split; [ | split; [ | auto]].
  - rewrite write_json_spec. destruct (path_error filename); [reflexivity | ].
    destruct (unwritable w filename); [cbn [fst]; congruence | ].
    cbv zeta. destruct (fits w (inode w filename) _);
      [reflexivity | cbn [fst]; congruence].
  - rewrite write_json_spec. destruct (path_error filename) as [e | ];
      [discriminate | ].
    destruct (unwritable w filename) as [e | ].
    + intros _. exists e. cbn [snd diagnosed set_stderr stderr].
      repeat rewrite <- List.app_assoc. reflexivity.
    + cbv zeta. destruct (fits w (inode w filename) _).
      * cbn [fst snd]. unfold outcome.
        destruct (snd (Json.iterencode _ _ _)); discriminate.
      * intros _. exists (no_room w (inode w filename)).
        cbn [snd diagnosed written set_stderr set_disk stderr].
        repeat rewrite <- List.app_assoc. reflexivity.
Qed.



Lemma run_prefix (st : Compact.state) (a b : pystr) :
  Compact.run st (a ++ b) <> None -> Compact.run st a <> None.
Proof.
  rewrite run_app. destruct (Compact.run st a); congruence.
Qed.

(** X13. Whatever the data, also when the encoder stops on an object
    that is not JSON serializable or the device keeps a part of the text
    only, the text that [write_json] leaves in a file that it has opened
    is made of printable ASCII characters only, without a space or a
    control character outside the string literals: the encoding of the
    file never matters.  What the device has taken in full also ends
    outside a string literal. *)
Theorem written_text_printable (data : pyval) (filename : pystr)
    (w : World) :
  path_error filename = None ->
  unwritable w filename = None ->
  exists text,
    disk (snd (FileWriter.write_json data filename w)) !! inode w filename
    = Some text
    /\ Forall printable text
    /\ Compact.run Compact.Outside text <> None
    /\ (fits w (inode w filename)
             (fst (Json.iterencode (int_max_str_digits w)
                                   (recursion_units w) data)) = true ->
        Compact.compact text = true).
Proof.
  intros Hpath Hopen. rewrite write_json_disk, Hpath, Hopen.
  eexists. split; [apply lookup_insert_eq | ].
  pose proof (iterencode_printable (int_max_str_digits w)
                (recursion_units w) data) as Hprint.
  pose proof (iterencode_balanced (int_max_str_digits w)
                (recursion_units w) data) as Hrun.
  unfold fits, kept.
  destruct (capacity w (inode w filename)) as [[n msg] | ].
  - split; [apply Forall_take, Hprint | ]. split.
    + apply (run_prefix _ _
               (List.skipn n (fst (Json.iterencode (int_max_str_digits w)
                                     (recursion_units w) data)))).
      rewrite List.firstn_skipn. congruence.
    + intros Hfits. apply Nat.leb_le in Hfits.
      rewrite List.firstn_all2 by exact Hfits.
      unfold Compact.compact. rewrite Hrun. reflexivity.
  - split; [exact Hprint | ]. split; [congruence | ].
    intros _. unfold Compact.compact. rewrite Hrun. reflexivity.
Qed.

Lemma written_text_printable_witness :
  exists text,
    disk (snd (FileWriter.write_json unserializable_example
                 (ustr "idapro.hexlic") world_2024))
    !! 1 = Some text
    /\ Forall printable text
    /\ Compact.compact text = true.
Proof.
  destruct (written_text_printable unserializable_example
              (ustr "idapro.hexlic") world_2024 eq_refl eq_refl)
    as (text & Hfile & Hprint & _ & Hcompact).
  exists text. split; [exact Hfile | ]. split; [exact Hprint | ].
  apply Hcompact. reflexivity.
Defined.

(** ** Reading the file back *)

Section Plain.
Import Json JsonDecoder Normal.

Lemma join_pairs_unpaired (s : pystr) :
  unpaired s = true -> join_pairs s = s.
Proof.
  induction s as [ | c r IH]; [reflexivity | ].
  cbn [unpaired forallb]. intros H. apply andb_true_iff in H.
  destruct H as [Hc Hr]. rewrite join_pairs_keep.
  - rewrite IH by exact Hr. reflexivity.
  - left. destruct (is_high_surrogate c); [discriminate | reflexivity].
Qed.

Lemma list_map_fixed {A} (f : A -> A) (l : list A) :
  Forall (fun x => f x = x) l -> List.map f l = l.
Proof. induction 1 as [ | x l Hx _ IH]; cbn; congruence. Qed.

(** The decoder reads the text of a plain value back into the value
    itself. *)
Lemma value_plain (o : pyval) :
  decodable o -> plain o = true -> value o = o.
Proof.
  induction o as [ | b | z | f | s | l IH | l IH | d IH | t] using pyval_ind;
    intros Hdec Hplain; try reflexivity; try contradiction.
  - cbn [value]. rewrite join_pairs_unpaired by exact Hplain. reflexivity.
  - apply decodable_list in Hdec. cbn [plain] in Hplain.
    rewrite forallb_forall in Hplain.
    cbn [value]. f_equal. apply list_map_fixed, List.Forall_forall.
    intros o Ho. rewrite List.Forall_forall in IH, Hdec. auto.
  - rewrite (value_dict _ Hdec).
    apply decodable_dict in Hdec. destruct Hdec as [_ Hdec].
    cbn [plain] in Hplain. rewrite forallb_forall in Hplain.
    f_equal. apply list_map_fixed, List.Forall_forall.
    intros [key v] Hkv. rewrite List.Forall_forall in IH, Hdec.
    destruct (Hdec _ Hkv) as [Hk Hv].
    specialize (Hplain _ Hkv). apply andb_true_iff in Hplain.
    destruct Hplain as [Hpk Hpv]. cbn [fst snd] in *.
    destruct key as [key | | | | | ]; try contradiction.
    cbn [Canonical.key_name] in *.
    pose proof (IH _ Hkv Hv Hpv) as Hfixed. cbn [snd] in Hfixed.
    rewrite (join_pairs_unpaired _ Hpk), Hfixed. reflexivity.
Qed.

(** A plain decodable value within the limits is encoded in full, and
    read back from its text as it was. *)
Lemma loads_plain (limit : N) (units : nat) (o : pyval) :
  decodable o -> plain o = true ->
  ints_within limit o = true -> (units_needed o <= units)%nat ->
  iterencode limit units o = (Canonical.any o, None)
  /\ loads limit (Canonical.any o) = Some o.
Proof.
  intros Hdec Hplain Hints Hunits.
  destruct (value_round_trip limit units o Hdec Hints Hunits)
    as (Htext & Hloads & _).
  rewrite (value_plain _ Hdec Hplain) in Hloads. auto.
Qed.

Lemma list_map_inj {A B} (f : A -> B) (l l' : list A) :
  (forall a a', f a = f a' -> a = a') ->
  List.map f l = List.map f l' -> l = l'.
Proof.
  intros Hf. revert l'.
  induction l as [ | a l IH]; intros [ | a' l'] H; try discriminate;
    [reflexivity | ].
  cbn in H. injection H as Ha Hl. f_equal; auto.
Qed.

Lemma str_items_inj (d d' : list (pystr * pyval)) :
  str_items d = str_items d' -> d = d'.
Proof.
  apply list_map_inj. intros [k v] [k' v'] H. cbn in H.
  injection H as -> ->. reflexivity.
Qed.

Lemma addon_to_dict_inj (a b : AddonPlugin.t) :
  AddonPlugin.to_dict a = AddonPlugin.to_dict b -> a = b.
Proof.
  destruct a, b. unfold AddonPlugin.to_dict. cbn [AddonPlugin.id
    AddonPlugin.code AddonPlugin.owner AddonPlugin.start_date
    AddonPlugin.end_date].
  intros H. injection H as -> -> -> -> ->. reflexivity.
Qed.

Lemma identification_to_dict_inj (a b : LicenseId.t) :
  LicenseId.to_dict a = LicenseId.to_dict b -> a = b.
Proof.
  destruct a, b. unfold LicenseId.to_dict. cbn [LicenseId.id
    LicenseId.license_type LicenseId.product LicenseId.product_id
    LicenseId.edition_id LicenseId.seats LicenseId.start_date
    LicenseId.end_date LicenseId.issued_on LicenseId.owner LicenseId.add_ons
    LicenseId.features].
  intros H. injection H as -> -> -> -> -> -> -> -> -> -> Haddons ->.
  apply (list_map_inj _ _ _ addon_to_dict_inj) in Haddons. subst. reflexivity.
Qed.

Lemma payload_to_dict_inj (a b : LicensePayload.t) :
  LicensePayload.to_dict a = LicensePayload.to_dict b -> a = b.
Proof.
  destruct a, b. unfold LicensePayload.to_dict. cbn [LicensePayload.name
    LicensePayload.email LicensePayload.licenses].
  intros H. injection H as -> -> Hl.
  apply (list_map_inj _ _ _ identification_to_dict_inj) in Hl. subst.
  reflexivity.
Qed.

Lemma license_to_dict_inj (a b : License.t) :
  License.to_dict a = License.to_dict b -> a = b.
Proof.
  destruct a as [ha [na ea la] sa], b as [hb [nb eb lb] sb].
  unfold License.to_dict, LicensePayload.to_dict.
  cbn [License.header License.payload License.signature LicensePayload.name
    LicensePayload.email LicensePayload.licenses].
  intros H. injection H as Hh -> -> Hl ->.
  apply str_items_inj in Hh.
  apply (list_map_inj _ _ _ identification_to_dict_inj) in Hl. subst.
  reflexivity.
Qed.

Lemma low_unpaired (s : pystr) :
  Forall (fun c => c < 256) s -> unpaired s = true.
Proof.
  intros H. apply forallb_forall. intros c Hc.
  rewrite List.Forall_forall in H. apply H in Hc.
  unfold is_high_surrogate.
  destruct (N.leb_spec 55296 c); [lia | reflexivity].
Qed.

Lemma ascii_unpaired (s : pystr) :
  Forall (fun c => c < 128) s -> unpaired s = true.
Proof.
  intros H. apply low_unpaired. revert H. apply List.Forall_impl.
  intros; lia.
Qed.

(** The generated license is plain when the two dates are. *)
Lemma generated_plain (start finish : pystr) :
  unpaired start = true -> unpaired finish = true ->
  plain (License.to_dict (generated start finish)) = true.
Proof.
  intros Hstart Hfinish.
  apply (license_fields plain
           (fun k => unpaired (Canonical.key_name k))
           unpaired (fun _ => true));
    try reflexivity.
  - intros s. apply low_unpaired, ustr_ascii.
  - match goal with
    | |- forallb unpaired ?strings = true =>
        let computed := eval vm_compute in strings in
        change (forallb unpaired computed = true)
    end.
    cbn [forallb]. rewrite Hstart, Hfinish. reflexivity.
Qed.
End Plain.

(** X14. No [to_dict] loses a field: two add-ons, two identifications,
    two payloads or two licenses with the same dictionary are equal. *)
Theorem to_dict_injective :
  (forall a b : AddonPlugin.t,
     AddonPlugin.to_dict a = AddonPlugin.to_dict b -> a = b)
  /\ (forall a b : LicenseId.t,
        LicenseId.to_dict a = LicenseId.to_dict b -> a = b)
  /\ (forall a b : LicensePayload.t,
        LicensePayload.to_dict a = LicensePayload.to_dict b -> a = b)
  /\ (forall a b : License.t, License.to_dict a = License.to_dict b -> a = b).
Proof.
  split; [exact addon_to_dict_inj | ].
  split; [exact identification_to_dict_inj | ].
  split; [exact payload_to_dict_inj | exact license_to_dict_inj].
Qed.

(** X15. Data made of [None], booleans, integers, Python strings without
    a high surrogate, lists and dictionaries with distinct string keys,
    within the limits of the interpreter, written by [write_json] under
    a name that can be opened to a file on a device with room for the
    text, is read back by [json.loads] from the text of the file as the
    very same data: same values, same order of the keys. *)
Theorem written_data_decodes (data : pyval) (filename : pystr) (w : World) :
  Normal.decodable data -> plain data = true ->
  within_limits w data ->
  path_error filename = None ->
  unwritable w filename = None ->
  fits w (inode w filename) (Canonical.any data) = true ->
  exists text,
    FileWriter.write_json data filename w
    = (Return true, written (inode w filename) text w)
    /\ JsonDecoder.loads (int_max_str_digits w) text = Some data.
Proof.
  intros Hdec Hplain [Hints Hunits] Hpath Hopen Hfits.
  destruct (loads_plain _ _ _ Hdec Hplain Hints Hunits) as [Hrun Hloads].
  exists (Canonical.any data). split; [ | exact Hloads].
  rewrite (write_json_complete _ _ _ _ Hpath Hrun), Hopen, Hfits.
  reflexivity.
Qed.

Lemma written_data_decodes_witness :
  exists text,
    FileWriter.write_json (License.to_dict license_2024)
                          (ustr "idapro.hexlic") world_2024
    = (Return true, written 1 text world_2024)
    /\ JsonDecoder.loads 4300 text = Some (License.to_dict license_2024).
Proof.
  apply (written_data_decodes (License.to_dict license_2024)
           (ustr "idapro.hexlic") world_2024).
  - apply license_decodable, generated_python_license;
      apply python_chars; reflexivity.
  - apply generated_plain; reflexivity.
  - split; [reflexivity | cbn; lia].
  - reflexivity.
  - reflexivity.
  - reflexivity.
Defined.

(** X16. The text of a license tells the license: two licenses of
    Python values, without a high surrogate in a string or a key, within
    the limits of the interpreter, that have the same serialized text
    are equal. *)
Theorem license_text_injective (limit : N) (units : nat) (a b : License.t) :
  python_license a -> python_license b ->
  plain (License.to_dict a) = true -> plain (License.to_dict b) = true ->
  ints_within limit (License.to_dict a) = true ->
  ints_within limit (License.to_dict b) = true ->
  (units_needed (License.to_dict a) <= units)%nat ->
  (units_needed (License.to_dict b) <= units)%nat ->
  fst (Json.iterencode limit units (License.to_dict a))
  = fst (Json.iterencode limit units (License.to_dict b)) ->
  a = b.
Proof.
  intros Ha Hb Hpa Hpb Hia Hib Hua Hub Htext. apply license_to_dict_inj.
  apply license_decodable in Ha, Hb.
  destruct (loads_plain _ _ _ Ha Hpa Hia Hua) as [Hra Hla].
  destruct (loads_plain _ _ _ Hb Hpb Hib Hub) as [Hrb Hlb].
  rewrite Hra, Hrb in Htext. cbn [fst] in Htext.
  rewrite Htext in Hla. congruence.
Qed.

Lemma license_text_injective_witness :
  License.init (License.payload license_2024) = license_2024.
Proof.
  assert (Hpy : python_license license_2024)
    by (apply generated_python_license; apply python_chars; reflexivity).
  assert (Hplain : plain (License.to_dict license_2024) = true)
    by (apply generated_plain; reflexivity).
  apply (license_text_injective 4300 7);
    [exact Hpy | exact Hpy | exact Hplain | exact Hplain
     | reflexivity | reflexivity | apply le_n | apply le_n | reflexivity].
Defined.

(** X17. [main] from end to end: when [idapro.hexlic] can be opened, the
    second reading of the clock is a valid [datetime] that leaves room
    for the 3650 days, and seven units of recursion are left, a license
    is generated; if the device has room for its text, [main] returns 0
    and [json.loads] reads the dictionary of the generated license back
    from the text of the file, and if not, [main] returns 1. *)
Theorem main_license_file_decodes (w : World) :
  unwritable w (ustr "idapro.hexlic") = None ->
  Datetime.valid (clock w (S (reads w))) ->
  (Datetime.toordinal (clock w (S (reads w))) + 3650
   <= Datetime.MAXORDINAL)%Z ->
  (7 <= recursion_units w)%nat ->
  exists license w',
    let file := inode w (ustr "idapro.hexlic") in
    LicenseGenerator.generate_license (LicenseGenerator.init None) w
    = (Return license, ticked (ticked w))
    /\ if fits w file (Canonical.license license)
       then
         main w = (Return 0%Z, w')
         /\ exists text,
              disk w' !! file = Some text
              /\ JsonDecoder.loads (int_max_str_digits w) text
                 = Some (License.to_dict license)
       else main w = (Return 1%Z, w').
Proof.
  intros Hopen Hvalid Hrange Hunits.
  destruct (main_generates w Hvalid Hrange)
    as (start & finish & Hgen & Hstart & Hfinish).
  pose proof (generated_python_license _ _ (ascii_valid_str _ Hstart)
                (ascii_valid_str _ Hfinish)) as Hpy.
  pose proof (generated_plain _ _ (ascii_unpaired _ Hstart)
                (ascii_unpaired _ Hfinish)) as Hplain.
  apply license_decodable in Hpy.
  destruct (loads_plain (int_max_str_digits w) (recursion_units w) _
              Hpy Hplain eq_refl Hunits) as [Hrun Hloads].
  rewrite any_license in Hrun, Hloads.
  pose proof (write_json_complete (License.to_dict (generated start finish))
                (ustr "idapro.hexlic") _ (ticked (ticked w)) eq_refl Hrun)
    as Hwrite.
  change (unwritable (ticked (ticked w))) with (unwritable w) in Hwrite.
  change (inode (ticked (ticked w))) with (inode w) in Hwrite.
  change (fits (ticked (ticked w))) with (fits w) in Hwrite.
  rewrite Hopen in Hwrite.
  exists (generated start finish). cbv zeta.
  rewrite (main_writes _ _ Hgen), Hwrite.
  destruct (fits w (inode w (ustr "idapro.hexlic"))
              (Canonical.license (generated start finish)));
    eexists; (split; [exact Hgen | ]); [ | reflexivity].
  split; [reflexivity | ].
  exists (Canonical.license (generated start finish)).
  split; [ | exact Hloads].
  cbn [set_stdout written set_disk disk]. apply lookup_insert_eq.
Qed.

Lemma main_license_file_decodes_witness :
  (exists license w' text,
     LicenseGenerator.generate_license (LicenseGenerator.init None) world_2024
     = (Return license, ticked (ticked world_2024))
     /\ main world_2024 = (Return 0%Z, w')
     /\ disk w' !! 1 = Some text
     /\ JsonDecoder.loads 4300 text = Some (License.to_dict license))
  /\ exists w', main world_full = (Return 1%Z, w').
Proof.
  assert (Hvalid : Datetime.valid (Datetime.mk 2024 1 1 0 0 0 0))
    by (cbv; intuition discriminate).
  assert (Hrange : (Datetime.toordinal (Datetime.mk 2024 1 1 0 0 0 0) + 3650
                    <= Datetime.MAXORDINAL)%Z)
    by (vm_compute; discriminate).
  assert (Hunits : (7 <= 990)%nat) by lia.
  split.
  - destruct (main_license_file_decodes world_2024 eq_refl Hvalid Hrange
                Hunits) as (license & w' & Hgen & H).
    cbv zeta in H.
    change (fits world_2024 (inode world_2024 (ustr "idapro.hexlic"))
                 (Canonical.license license)) with true in H.
    destruct H as (Hmain & text & Hfile & Hloads).
    exists license, w', text. auto.
  - destruct (main_license_file_decodes world_full eq_refl Hvalid Hrange
                Hunits) as (license & w' & Hgen & H).
    cbv zeta in H. exists w'.
    destruct (fits world_full (inode world_full (ustr "idapro.hexlic"))
                (Canonical.license license)) eqn:Hfits; [ | exact H].
    unfold fits in Hfits. cbn [capacity world_full] in Hfits.
    unfold Canonical.license, Canonical.object in Hfits.
    change (ustr "{") with [123] in Hfits.
    cbn [app List.length Nat.leb] in Hfits. discriminate.
Defined.
